(** * KnightTourPy: a shallow embedding of [KnightTourSolver.py]

    The solver fills an N x N board with Warnsdorff's heuristic, and, when
    the knight is blocked, reverses the tail of the path ("reroute") to
    open a new frontier.  Every method of the [KnightTourSolver] class is
    translated below, keeping its name.

    Conventions of the embedding:
    - Python integers are [Z]; a board is a [list (list Z)], indexed the
      way Python indexes lists (negative indices wrap, anything else out
      of range raises [IndexError]);
    - a call either returns, raises, or is cut off by the step budget of
      its [while] loop: the type [outcome];
    - the [set] of [shortest_path_length] is a [gset], the result [dict]
      of [solve] a [gmap] over strings;
    - [time()] reads a clock given to [solve]; the float under 'time' is
      the difference of two readings;
    - [verbose] and [print_solution] are at their default [False]; of
      [print_board] the loop that computes the width of a field is
      modelled, the console output is not, nor is the attribute
      [self.board], which no method reads.

    The file has five parts: the embedding, the vocabulary of the
    properties, the lemmas, the claims C1 to C10, and the further
    properties X1 to X27. *)

From Stdlib Require Import ZArith Lia.
From stdpp Require Import base option list gmap strings sets sorting.

Open Scope Z_scope.

(** ** Outcomes of a call *)

Inductive exn : Type := IndexError | TypeError.

Inductive outcome (A : Type) : Type :=
| Ret (a : A)
| Raise (e : exn)
| Timeout.
Arguments Ret {A} a.
Arguments Raise {A} e.
Arguments Timeout {A}.

Definition obind {A B} (f : A → outcome B) (m : outcome A) : outcome B :=
  match m with
  | Ret a => f a
  | Raise e => Raise e
  | Timeout => Timeout
  end.

#[export] Instance outcome_ret : MRet outcome := λ A a, Ret a.
#[export] Instance outcome_bind : MBind outcome := λ A B f m, obind f m.

(** ** Python list indexing *)

Definition py_norm (len i : Z) : Z := if i <? 0 then i + len else i.

Definition py_get {A} (l : list A) (i : Z) : outcome A :=
  let j := py_norm (Z.of_nat (length l)) i in
  if (0 <=? j) && (j <? Z.of_nat (length l)) then
    match l !! Z.to_nat j with
    | Some x => Ret x
    | None => Raise IndexError
    end
  else Raise IndexError.

Definition py_set {A} (l : list A) (i : Z) (x : A) : outcome (list A) :=
  let j := py_norm (Z.of_nat (length l)) i in
  if (0 <=? j) && (j <? Z.of_nat (length l)) then Ret (<[Z.to_nat j := x]> l)
  else Raise IndexError.

(** ** Boards and positions *)

Abbreviation pos := (Z * Z)%type (only parsing).
Abbreviation board := (list (list Z)) (only parsing).

(** [brd[r][c]] *)
Definition getitem2 (brd : board) (r c : Z) : outcome Z :=
  row ← py_get brd r; py_get row c.

(** [brd[r][c] = v]; the rows of a board are distinct objects, as
    [create_empty_board] builds them. *)
Definition setitem2 (brd : board) (r c v : Z) : outcome board :=
  row ← py_get brd r;
  row' ← py_set row c v;
  py_set brd r row'.

(** [for x in range(n)] *)
Definition range (n : Z) : list Z := Z.of_nat <$> seq 0 (Z.to_nat n).

(** Knight offsets, the class attribute [deltas]. *)
Definition deltas : list (Z * Z) :=
  [(-1, 2); (-2, 1); (-2, -1); (-1, -2); (1, -2); (2, -1); (2, 1); (1, 2)].

Definition in_range (size x : Z) : bool := (0 <=? x) && (x <? size).

Definition inside (size : Z) (p : pos) : bool :=
  in_range size p.1 && in_range size p.2.

(** Ranks: an integer, or [math.inf]. *)
Inductive rank : Type := Finite (d : Z) | Inf.

(** What [reroute] yields: (board, end, rank). *)
Abbreviation candidate := (board * pos * rank)%type (only parsing).

(** An entry of the list [boards] of [solve]: (board, last). *)
Abbreviation trial := (board * pos)%type (only parsing).

(** The values stored in the result [dict] of [solve]; the float under
    ['time'] is a difference of clock readings. *)
Inductive pyval : Type :=
| PyBoard (b : board)
| PyInt (z : Z)
| PyFloat (t : Z).

(** The [dict] that the [return] statements of [solve] build, with the
    keys 'board', 'iterations', 'reroutes' and 'time'. *)
Definition result_dict (b : board) (iterations reroutes time : Z)
  : gmap string pyval :=
  <["board" := PyBoard b]> (<["iterations" := PyInt iterations]>
    (<["reroutes" := PyInt reroutes]> (<["time" := PyFloat time]> ∅))).

(** How the scan of one generation goes on after a trial: [solve]
    returns from inside the loops, [found_deg1_board] breaks them, or the
    generator of the trial is exhausted. *)
Inductive verdict : Type :=
| Solved (b : board) (reroute_count : Z)
| Stuck (reroutes : list trial) (reroute_count : Z)
| Open (reroutes : list trial) (reroute_count : Z).

Section Solver.
(** The dataclass field [size]. *)
Variable size : Z.

Definition create_empty_board : board :=
  replicate (Z.to_nat size) (replicate (Z.to_nat size) 0).

Definition get_accessible_fields (r c : Z) : list pos :=
  List.filter (inside size) ((λ d, (r + d.1, c + d.2)) <$> deltas).

(** The fields of [fields] whose cell is 0, in order: the body of the
    generator [get_possible_jumps] (every caller runs it to its end
    with [tuple]) and of the comprehension [empty_fields] in
    [get_rank]. *)
Fixpoint empty_among (brd : board) (fields : list pos) : outcome (list pos) :=
  match fields with
  | [] => Ret []
  | f :: fs =>
      x ← getitem2 brd f.1 f.2;
      rest ← empty_among brd fs;
      Ret (if x =? 0 then f :: rest else rest)
  end.

Definition get_possible_jumps (brd : board) (r c : Z) : outcome (list pos) :=
  empty_among brd (get_accessible_fields r c).

(** The [for jump in jumps] loop of [wandorf_fill], threading
    [(best_deg, best_jump)]. *)
Fixpoint best_of (brd : board) (jumps : list pos) (best : Z * pos)
  : outcome (Z * pos) :=
  match jumps with
  | [] => Ret best
  | j :: js =>
      ps ← get_possible_jumps brd j.1 j.2;
      let deg := Z.of_nat (length ps) in
      best_of brd js (if deg <? best.1 then (deg, j) else best)
  end.

(** [wandorf_fill] mutates [brd] in place: the board as it stands when
    the call ends comes back with the outcome. *)
Fixpoint wandorf_fill (fuel : nat) (brd : board) (r c num : Z)
  : board * outcome pos :=
  match fuel with
  | O => (brd, Timeout)
  | S fuel' =>
      match setitem2 brd r c num with
      | Ret brd1 =>
          match get_possible_jumps brd1 r c with
          | Ret [] => (brd1, Ret (r, c))
          | Ret jumps =>
              match best_of brd1 jumps (9, (0, 0)) with
              | Ret best => wandorf_fill fuel' brd1 best.2.1 best.2.2 (num + 1)
              | Raise e => (brd1, Raise e)
              | Timeout => (brd1, Timeout)
              end
          | Raise e => (brd1, Raise e)
          | Timeout => (brd1, Timeout)
          end
      | Raise e => (brd, Raise e)
      | Timeout => (brd, Timeout)
      end
  end.

(** The scan shared by [get_next] ([step = 1]) and [get_prev]
    ([step = -1]); [brd[r][c]] is read again at every field. *)
Fixpoint neighbour_scan (brd : board) (r c step : Z) (fields : list pos)
  : outcome (option pos) :=
  match fields with
  | [] => Ret None
  | f :: fs =>
      x ← getitem2 brd f.1 f.2;
      y ← getitem2 brd r c;
      if x =? y + step then Ret (Some f) else neighbour_scan brd r c step fs
  end.

Definition get_next (brd : board) (r c : Z) : outcome (option pos) :=
  neighbour_scan brd r c 1 (get_accessible_fields r c).

Definition get_prev (brd : board) (r c : Z) : outcome (option pos) :=
  neighbour_scan brd r c (-1) (get_accessible_fields r c).

(** All [(r, c)] in row-major order, as the nested [range] loops go. *)
Definition all_fields : list pos :=
  r ← range size; (λ c, (r, c)) <$> range size.

Fixpoint find_in (brd : board) (num : Z) (fields : list pos)
  : outcome (option pos) :=
  match fields with
  | [] => Ret None
  | f :: fs =>
      x ← getitem2 brd f.1 f.2;
      if x =? num then Ret (Some f) else find_in brd num fs
  end.

Definition find (brd : board) (num : Z) : outcome (option pos) :=
  find_in brd num all_fields.

Fixpoint max_in (brd : board) (fields : list pos) (m : Z) (mp : pos)
  : outcome pos :=
  match fields with
  | [] => Ret mp
  | f :: fs =>
      x ← getitem2 brd f.1 f.2;
      if m <? x then max_in brd fs x f else max_in brd fs m mp
  end.

Definition get_max (brd : board) : outcome pos :=
  max_in brd all_fields 0 (0, 0).

(** Unpacking [r, c = x] where [x] may be [None]. *)
Definition unpack (x : option pos) : outcome pos :=
  match x with
  | Some p => Ret p
  | None => Raise TypeError
  end.

Fixpoint verify_loop (fuel : nat) (brd : board) (m : pos) (p : pos) (i : Z)
  : outcome bool :=
  match fuel with
  | O => Timeout
  | S fuel' =>
      x ← getitem2 brd p.1 p.2;
      y ← getitem2 brd m.1 m.2;
      if x <? y then
        nxt ← get_next brd p.1 p.2;
        q ← unpack nxt;
        z ← getitem2 brd q.1 q.2;
        if negb (z =? i) then Ret false
        else verify_loop fuel' brd m q (i + 1)
      else Ret true
  end.

Definition verify (fuel : nat) (brd : board) : outcome bool :=
  one ← find brd 1;
  p ← unpack one;
  m ← get_max brd;
  verify_loop fuel brd m p 2.

(** [shortest_path_length]: [checked] is the set of squares reached by
    walks of exactly [d] jumps; squares already seen are not
    remembered, so the loop runs for ever when the target is never
    reached. *)
Definition expand (checked : gset pos) : gset pos :=
  set_bind (λ c : pos, list_to_set (get_accessible_fields c.1 c.2)) checked.

Fixpoint spl_loop (fuel : nat) (checked : gset pos) (target : pos) (d : Z)
  : outcome Z :=
  match fuel with
  | O => Timeout
  | S fuel' =>
      if decide (target ∈ checked) then Ret d
      else spl_loop fuel' (expand checked) target (d + 1)
  end.

Definition shortest_path_length (fuel : nat) (x1 y1 x2 y2 : Z) : outcome Z :=
  spl_loop fuel {[ (x1, y1) ]} (x2, y2) 0.

(** [min(d, min_d)] *)
Definition rank_min (d : Z) (min_d : rank) : rank :=
  match min_d with
  | Inf => Finite d
  | Finite m => Finite (Z.min d m)
  end.

Fixpoint rank_loop (fuel : nat) (last : pos) (fields : list pos) (min_d : rank)
  : outcome rank :=
  match fields with
  | [] => Ret min_d
  | f :: fs =>
      d ← shortest_path_length fuel last.1 last.2 f.1 f.2;
      rank_loop fuel last fs (rank_min d min_d)
  end.

Definition get_rank (fuel : nat) (brd : board) (last : option pos)
  : outcome rank :=
  last' ← match last with None => get_max brd | Some l => Ret l end;
  empty_fields ← empty_among brd all_fields;
  rank_loop fuel last' empty_fields Inf.

(** ** [reroute] *)

(** The list [possible_ends]. *)
Fixpoint ends_of (brd : board) (fields : list pos) : outcome (list (option pos)) :=
  match fields with
  | [] => Ret []
  | f :: fs =>
      e ← get_next brd f.1 f.2;
      es ← ends_of brd fs;
      Ret (e :: es)
  end.

Definition possible_ends (brd : board) (last : pos) : outcome (list (option pos)) :=
  ends_of brd (get_accessible_fields last.1 last.2).

(** The [for i in range(...)] loop: [n] iterations are left; the
    cursors [f1], [f2] may have become [None]. *)
Fixpoint swap_loop (n : nat) (b : board) (f1 f2 : option pos) : outcome board :=
  match n with
  | O => Ret b
  | S n' =>
      p1 ← unpack f1;
      next_f1 ← get_next b p1.1 p1.2;
      p2 ← unpack f2;
      next_f2 ← get_prev b p2.1 p2.2;
      v2 ← getitem2 b p2.1 p2.2;
      v1 ← getitem2 b p1.1 p1.2;
      b1 ← setitem2 b p1.1 p1.2 v2;
      b2 ← setitem2 b1 p2.1 p2.2 v1;
      swap_loop n' b2 next_f1 next_f2
  end.

(** Lines 204-210: the copy of [brd] with the path between [end] and
    [last] reversed (the copy is a value here, [brd] is not touched). *)
Definition reroute_board (brd : board) (last : pos) (end_ : option pos)
  : outcome (board * pos) :=
  vl ← getitem2 brd last.1 last.2;
  e ← unpack end_;
  ve ← getitem2 brd e.1 e.2;
  b ← swap_loop (Z.to_nat ((vl - ve) / 2 + 1)) brd end_ (Some last);
  Ret (b, e).

(** One turn of the [for end in possible_ends] loop: [None] when the
    end is skipped, the yielded tuple otherwise. *)
Definition reroute_step (fuel : nat) (brd : board) (last : pos)
    (end_ : option pos) : outcome (option candidate) :=
  if decide (end_ = Some last) then Ret None
  else
    be ← reroute_board brd last end_;
    rk ← get_rank fuel be.1 None;
    Ret (Some (be.1, be.2, rk)).

(** The generator run to its end: what it yields until it stops, and
    how it stops. *)
Fixpoint reroute_from (fuel : nat) (brd : board) (last : pos)
    (ends : list (option pos)) : list candidate * outcome unit :=
  match ends with
  | [] => ([], Ret tt)
  | e :: es =>
      match reroute_step fuel brd last e with
      | Ret None => reroute_from fuel brd last es
      | Ret (Some cand) =>
          let rest := reroute_from fuel brd last es in
          (cand :: rest.1, rest.2)
      | Raise x => ([], Raise x)
      | Timeout => ([], Timeout)
      end
  end.

Definition reroute (fuel : nat) (brd : board) (last : pos)
  : list candidate * outcome unit :=
  match possible_ends brd last with
  | Ret ends => reroute_from fuel brd last ends
  | Raise x => ([], Raise x)
  | Timeout => ([], Timeout)
  end.

(** ** [solve] *)

(** The [k]-th call of [time()] reads [clock k]. *)
Variable clock : nat → Z.

(** [for rerouted in self.reroute(brd, last)], the generator resumed
    one end at a time. *)
Fixpoint scan_ends (fuel : nat) (brd : board) (last : pos)
    (ends : list (option pos)) (reroutes : list trial) (reroute_count : Z)
  : outcome verdict :=
  match ends with
  | [] => Ret (Open reroutes reroute_count)
  | e :: es =>
      step ← reroute_step fuel brd last e;
      match step with
      | None => scan_ends fuel brd last es reroutes reroute_count
      | Some (b, e', rk) =>
          let reroute_count := reroute_count + 1 in
          match rk with
          | Finite 1 =>
              num ← getitem2 b e'.1 e'.2;
              let filled := wandorf_fill fuel b e'.1 e'.2 num in
              deg1_last ← filled.2;
              x ← getitem2 filled.1 deg1_last.1 deg1_last.2;
              if x =? size ^ 2 then Ret (Solved filled.1 reroute_count)
              else Ret (Stuck reroutes reroute_count)
          | _ => scan_ends fuel brd last es (reroutes ++ [(b, e')]) reroute_count
          end
      end
  end.

(** [for (brd, last) in boards] *)
Fixpoint scan_trials (fuel : nat) (boards : list trial)
    (reroutes : list trial) (reroute_count : Z) : outcome verdict :=
  match boards with
  | [] => Ret (Open reroutes reroute_count)
  | (brd, last) :: rest =>
      ends ← possible_ends brd last;
      v ← scan_ends fuel brd last ends reroutes reroute_count;
      match v with
      | Open reroutes' rc' => scan_trials fuel rest reroutes' rc'
      | _ => Ret v
      end
  end.

(** [while not solution_found]: [gens] iterations are left, [i] have
    been made. *)
Fixpoint solve_loop (gens : nat) (fuel : nat) (boards : list trial)
    (reroute_count : Z) (i : nat) : outcome (gmap string pyval) :=
  match gens with
  | O => Timeout
  | S gens' =>
      let i := S i in
      v ← scan_trials fuel boards [] reroute_count;
      match v with
      | Solved b rc =>
          Ret (result_dict b (Z.of_nat i) rc (clock (S i) - clock 0))
      | Stuck reroutes rc | Open reroutes rc =>
          solve_loop gens' fuel reroutes rc i
      end
  end.

(** [solve] mutates the caller's [board] (through the first
    [wandorf_fill] only; every later board is a copy): the board as it
    stands when the call ends comes back with the outcome. *)
Definition solve (fuel : nat) (board0 : board) (start_r start_c : Z)
  : board * outcome (gmap string pyval) :=
  let filled := wandorf_fill fuel board0 start_r start_c 1 in
  let board1 := filled.1 in
  let run : outcome (gmap string pyval) :=
    las ← filled.2;
    x ← getitem2 board1 las.1 las.2;
    ok ← (if x =? size ^ 2 then verify fuel board1 else Ret false);
    if ok : bool then Ret (result_dict board1 0 0 (clock 1 - clock 0))
    else solve_loop fuel fuel [(board1, las)] 0 0 in
  (board1, run).

(** ** [print_board] *)

(** The [while s > 1] loop that computes the width of a field. *)
Fixpoint width_loop (fuel : nat) (s cell_size : Z) : outcome Z :=
  match fuel with
  | O => Timeout
  | S fuel' =>
      if 1 <? s then width_loop fuel' (s / 10) (cell_size + 1)
      else Ret cell_size
  end.

(** [cell_size] as the printing loops use it. *)
Definition cell_size (fuel : nat) : outcome Z :=
  width_loop fuel (size ^ 2) 1.

End Solver.

(** * The vocabulary of the properties *)

(** ** Well-formed boards: cells as a total function *)

Definition wf_board (size : Z) (brd : board) : Prop :=
  length brd = Z.to_nat size ∧ Forall (λ row, length row = Z.to_nat size) brd.

(** The content of a cell, 0 off the board. *)
Definition cell (brd : board) (p : pos) : Z :=
  default 0 (brd !! Z.to_nat p.1 ≫= λ row, row !! Z.to_nat p.2).

(** The board with one cell overwritten. *)
Definition upd (brd : board) (p : pos) (v : Z) : board :=
  alter (λ row, <[Z.to_nat p.2 := v]> row) (Z.to_nat p.1) brd.

(** ** Knight moves *)

Definition knight_move (p q : pos) : Prop :=
  (Z.abs (q.1 - p.1) = 1 ∧ Z.abs (q.2 - p.2) = 2) ∨
  (Z.abs (q.1 - p.1) = 2 ∧ Z.abs (q.2 - p.2) = 1).

(** ** The loops of the scans, as folds *)

(** The running maximum of [get_max]. *)
Definition max_step (brd : board) (acc : Z * pos) (f : pos) : Z * pos :=
  if acc.1 <? cell brd f then (cell brd f, f) else acc.

(** The running best of the [for jump in jumps] loop of [wandorf_fill],
    on degrees given by [deg]. *)
Definition best_step (deg : pos → Z) (best : Z * pos) (j : pos) : Z * pos :=
  if deg j <? best.1 then (deg j, j) else best.

(** ** The path-contiguity invariant *)

(** The filled cells of [brd] hold each of 1..k exactly once, and
    consecutive values sit a knight's move apart. *)
Record tour (size : Z) (brd : board) (k : Z) : Prop := {
  tour_wf : wf_board size brd;
  tour_range : ∀ p, inside size p = true → 0 <= cell brd p <= k;
  tour_all : ∀ i, 1 <= i <= k → ∃ p, inside size p = true ∧ cell brd p = i;
  tour_once : ∀ p q, inside size p = true → inside size q = true →
    cell brd p ≠ 0 → cell brd p = cell brd q → p = q;
  tour_adj : ∀ p q, inside size p = true → inside size q = true →
    1 <= cell brd p → cell brd q = cell brd p + 1 → knight_move p q
}.

(** The renumbering after [i] swaps of the reversal between the values
    [s] and [k], and the full reversal. *)
Definition flip (s k i x : Z) : Z :=
  if (s <=? x) && (x <? s + i) || (k - i <? x) && (x <=? k) then s + k - x else x.

Definition rev (s k x : Z) : Z :=
  if (s <=? x) && (x <=? k) then s + k - x else x.

(** ** A checker for the invariant *)

Definition wf_boardb (size : Z) (brd : board) : bool :=
  bool_decide (length brd = Z.to_nat size) &&
  forallb (λ row : list Z, bool_decide (length row = Z.to_nat size)) brd.

Definition knight_moveb (p q : pos) : bool :=
  (Z.abs (q.1 - p.1) =? 1) && (Z.abs (q.2 - p.2) =? 2) ||
  (Z.abs (q.1 - p.1) =? 2) && (Z.abs (q.2 - p.2) =? 1).

Definition tourb (size : Z) (brd : board) (k : Z) : bool :=
  let fields := all_fields size in
  wf_boardb size brd &&
  forallb (λ p, (0 <=? cell brd p) && (cell brd p <=? k)) fields &&
  forallb (λ i, existsb (λ p, cell brd p =? i + 1) fields) (range k) &&
  forallb (λ p, forallb (λ q,
    (cell brd p =? 0) || negb (cell brd p =? cell brd q) || bool_decide (p = q))
    fields) fields &&
  forallb (λ p, forallb (λ q,
    negb (1 <=? cell brd p) || negb (cell brd q =? cell brd p + 1) ||
    knight_moveb p q) fields) fields.

(** ** Walks of the knight *)

(** From [p] a chain of knight's moves leads to [q], the value growing by
    one at each move. *)
Inductive climbs (brd : board) : pos → pos → Prop :=
| climbs_here p : climbs brd p p
| climbs_step p q r :
    knight_move p q → cell brd q = cell brd p + 1 → climbs brd q r →
    climbs brd p r.

(** [b] ends a walk of exactly [j] jumps from [a]. *)
Definition reach (size : Z) (j : nat) (a b : pos) : Prop :=
  b ∈ Nat.iter j (expand size) {[ a ]}.

(** ** Degrees and empty cells *)

(** The number of empty fields accessible from [j]. *)
Definition degree (size : Z) (brd : board) (j : pos) : Z :=
  Z.of_nat (length (List.filter (λ f, cell brd f =? 0)
                      (get_accessible_fields size j.1 j.2))).

(** [j] is the first element of [jumps] of least degree. *)
Definition first_min (deg : pos → Z) (jumps : list pos) (j : pos) : Prop :=
  ∃ before after, jumps = before ++ j :: after ∧
    (∀ x, x ∈ before → deg j < deg x) ∧ (∀ x, x ∈ after → deg j <= deg x).

(** The empty cells of a board. *)
Definition zeros (size : Z) (brd : board) : nat :=
  length (List.filter (λ f, cell brd f =? 0) (all_fields size)).

(** ** Comparing runs *)

(** [o'] is [o], unless [o] ran out of budget. *)
Definition le_o {A} (o o' : outcome A) : Prop := o = Timeout ∨ o = o'.

Definition le_p {S A} (p p' : S * outcome A) : Prop := p.2 = Timeout ∨ p = p'.

(** Two runs that end alike, up to the 'time' entry. *)
Definition same_run (o o' : outcome (gmap string pyval)) : Prop :=
  match o, o' with
  | Ret res, Ret res' =>
      ∃ b i n t t', res = result_dict b i n t ∧ res' = result_dict b i n t'
  | Raise e, Raise e' => e = e'
  | Timeout, Timeout => True
  | _, _ => False
  end.

(** The ends left once the leading ends equal to [last] are skipped. *)
Fixpoint drop_skipped (last : pos) (ends : list (option pos)) : list (option pos) :=
  match ends with
  | [] => []
  | e :: es => if decide (e = Some last) then drop_skipped last es else ends
  end.

(** ** Boards used as examples *)

(** The 4 x 4 board as [wandorf_fill] leaves it from the corner (0, 0):
    the knight is blocked at (3, 0) after twelve squares. *)
Definition board_4x4 : board :=
  [[1; 6; 0; 10]; [0; 9; 4; 7]; [5; 2; 11; 0]; [12; 0; 8; 3]].

(** A 3 x 3 board on which the value 2 stands twice. *)
Definition board_twice : board := [[1; 0; 0]; [0; 0; 2]; [0; 2; 0]].

(** ** What the further properties speak of *)

(** No field accessible from [p] is empty: the knight is blocked at [p]. *)
Definition blocked (size : Z) (brd : board) (p : pos) : Prop :=
  ∀ f, f ∈ get_accessible_fields size p.1 p.2 → cell brd f ≠ 0.

(** [b] ends a walk of [j] knight's moves from [a] whose squares, after
    the first, are on the board. *)
Inductive hops (size : Z) : nat → pos → pos → Prop :=
| hops_0 a : hops size 0 a a
| hops_S j a c b :
    hops size j a c → knight_move c b → inside size b = true →
    hops size (S j) a b.

(** The order of ranks, [math.inf] above every integer. *)
Definition rank_le (a b : rank) : Prop :=
  match a, b with
  | Finite x, Finite y => x <= y
  | _, Inf => True
  | Inf, Finite _ => False
  end.

(** A call that does not raise, and whose result, if any, satisfies [P]. *)
Definition safe {A} (P : A → Prop) (o : outcome A) : Prop :=
  match o with
  | Ret a => P a
  | Raise _ => False
  | Timeout => True
  end.

(** A trial as [solve] keeps them: a path of [k] squares that ends,
    blocked, in [last]. *)
Definition good_trial (size k : Z) (t : list (list Z) * (Z * Z)) : Prop :=
  tour size t.1 k ∧ inside size t.2 = true ∧ cell t.1 t.2 = k ∧
  blocked size t.1 t.2.

(** What a scan of a generation that started with [base] reroutes may
    hand over. *)
Definition sound_verdict (size k base : Z) (v : verdict) : Prop :=
  match v with
  | Solved b n => tour size b (size ^ 2) ∧ base < n
  | Stuck rr n | Open rr n =>
      Forall (good_trial size k) rr ∧ Z.of_nat (length rr) <= n - base
  end.

#[global] Instance rank_eq_dec : EqDecision rank.
Proof. solve_decision. Defined.

(** Row-major order of the squares, as the nested loops of [find] and
    [get_max] visit them. *)
Definition before (p q : Z * Z) : Prop :=
  p.1 < q.1 ∨ (p.1 = q.1 ∧ p.2 < q.2).

(** * Properties *)

(** ** The outcome monad *)

Lemma bind_Ret {A B} (f : A → outcome B) (a : A) : (Ret a ≫= f) = f a.
Proof. reflexivity. Qed.

Lemma bind_returns {A B} (f : A → outcome B) (m : outcome A) (b : B) :
  (m ≫= f) = Ret b → ∃ a, m = Ret a ∧ f a = Ret b.
Proof. destruct m as [a| |]; [eauto | discriminate | discriminate]. Qed.

Ltac inv_bind H :=
  let a := fresh "a" in
  let Ha := fresh "Ha" in
  apply bind_returns in H as (a & Ha & H).

(** ** Indexing a well-formed board *)

Lemma inside_spec size p :
  inside size p = true ↔ 0 <= p.1 < size ∧ 0 <= p.2 < size.
Proof. unfold inside, in_range. lia. Qed.

Lemma wf_board_row size brd (i : nat) row :
  wf_board size brd → brd !! i = Some row → length row = Z.to_nat size.
Proof.
  intros [_ Hrows] Hi. rewrite Forall_forall in Hrows.
  apply Hrows. eapply list_elem_of_lookup_2, Hi.
Qed.

Lemma py_get_inside {A} (l : list A) (i : Z) :
  0 <= i < Z.of_nat (length l) →
  ∃ x, l !! Z.to_nat i = Some x ∧ py_get l i = Ret x.
Proof.
  intros Hi. unfold py_get, py_norm.
  destruct (Z.ltb_spec i 0); [lia|].
  destruct (Z.leb_spec 0 i); [|lia].
  destruct (Z.ltb_spec i (Z.of_nat (length l))); [|lia]. simpl.
  destruct (lookup_lt_is_Some_2 l (Z.to_nat i)) as [x Hx]; [lia|].
  exists x. by rewrite Hx.
Qed.

Lemma py_set_inside {A} (l : list A) (i : Z) (x : A) :
  0 <= i < Z.of_nat (length l) → py_set l i x = Ret (<[Z.to_nat i := x]> l).
Proof.
  intros Hi. unfold py_set, py_norm.
  destruct (Z.ltb_spec i 0); [lia|].
  destruct (Z.leb_spec 0 i); [|lia].
  by destruct (Z.ltb_spec i (Z.of_nat (length l))); [|lia].
Qed.

Lemma getitem2_inside size brd p :
  wf_board size brd → inside size p = true →
  getitem2 brd p.1 p.2 = Ret (cell brd p).
Proof.
  intros Hwf Hp. apply inside_spec in Hp as [Hr Hc].
  unfold getitem2, cell.
  destruct (py_get_inside brd p.1) as (row & Hrow & ->); [destruct Hwf; lia|].
  rewrite Hrow. simpl.
  pose proof (wf_board_row _ _ _ _ Hwf Hrow) as Hlen.
  destruct (py_get_inside row p.2) as (x & Hx & ->); [lia|].
  by rewrite Hx.
Qed.

Lemma setitem2_inside size brd p v :
  wf_board size brd → inside size p = true →
  setitem2 brd p.1 p.2 v = Ret (upd brd p v).
Proof.
  intros Hwf Hp. apply inside_spec in Hp as [Hr Hc].
  unfold setitem2, upd.
  destruct (py_get_inside brd p.1) as (row & Hrow & ->); [destruct Hwf; lia|].
  pose proof (wf_board_row _ _ _ _ Hwf Hrow) as Hlen. simpl.
  rewrite py_set_inside by lia. simpl.
  rewrite py_set_inside by (destruct Hwf; lia).
  f_equal. apply list_eq. intros i.
  destruct (decide (i = Z.to_nat p.1)) as [->|Hne].
  - rewrite list_lookup_alter_eq, Hrow.
    apply list_lookup_insert_eq. eapply lookup_lt_Some, Hrow.
  - by rewrite list_lookup_alter_ne, list_lookup_insert_ne.
Qed.

Lemma wf_upd size brd p v : wf_board size brd → wf_board size (upd brd p v).
Proof.
  intros [Hlen Hrows]. split; unfold upd.
  - by rewrite length_alter.
  - apply Forall_alter; [done|]. intros row _ Hrow. by rewrite length_insert.
Qed.

Lemma cell_upd_eq size brd p v :
  wf_board size brd → inside size p = true → cell (upd brd p v) p = v.
Proof.
  intros Hwf Hp. apply inside_spec in Hp as [Hr Hc]. unfold cell, upd.
  destruct (lookup_lt_is_Some_2 brd (Z.to_nat p.1)) as [row Hrow];
    [destruct Hwf; lia|].
  pose proof (wf_board_row _ _ _ _ Hwf Hrow) as Hlen.
  rewrite list_lookup_alter_eq, Hrow. simpl.
  rewrite list_lookup_insert_eq by lia. done.
Qed.

Lemma cell_upd_ne size brd p q v :
  inside size p = true → inside size q = true → p ≠ q →
  cell (upd brd p v) q = cell brd q.
Proof.
  intros Hp Hq Hne. apply inside_spec in Hp as [Hr Hc].
  apply inside_spec in Hq as [Hr' Hc']. unfold cell, upd.
  destruct (decide (Z.to_nat p.1 = Z.to_nat q.1)) as [Heq|Hrne].
  - rewrite <- Heq, list_lookup_alter_eq.
    destruct (brd !! Z.to_nat p.1) as [row|]; [|done]. simpl.
    rewrite list_lookup_insert_ne; [done|].
    intros Heq2. apply Hne. destruct p, q. simpl in *. f_equal; lia.
  - by rewrite list_lookup_alter_ne.
Qed.

Lemma cell_upd size brd p q v :
  wf_board size brd → inside size p = true → inside size q = true →
  cell (upd brd p v) q = if decide (p = q) then v else cell brd q.
Proof.
  intros Hwf Hp Hq. destruct (decide (p = q)) as [<-|Hne].
  - eapply cell_upd_eq; eauto.
  - eapply cell_upd_ne; eauto.
Qed.

(** ** Knight moves and accessible fields *)

Lemma knight_move_sym p q : knight_move p q → knight_move q p.
Proof. unfold knight_move. lia. Qed.

Lemma accessible_spec size r c q :
  q ∈ get_accessible_fields size r c ↔
  inside size q = true ∧ knight_move (r, c) q.
Proof.
  unfold get_accessible_fields. rewrite list_elem_of_In, filter_In, <- list_elem_of_In.
  unfold deltas, knight_move. simpl. rewrite !elem_of_cons, elem_of_nil.
  destruct q as [qr qc]. simpl. split.
  - intros [Hin Hq]. split; [done|].
    destruct Hin as [H|[H|[H|[H|[H|[H|[H|[H|[]]]]]]]]]; inversion H; lia.
  - intros [Hq Hm]. split; [|done].
    assert (Hcases : (qr = r + -1 ∧ qc = c + 2) ∨ (qr = r + -2 ∧ qc = c + 1) ∨
      (qr = r + -2 ∧ qc = c + -1) ∨ (qr = r + -1 ∧ qc = c + -2) ∨
      (qr = r + 1 ∧ qc = c + -2) ∨ (qr = r + 2 ∧ qc = c + -1) ∨
      (qr = r + 2 ∧ qc = c + 1) ∨ (qr = r + 1 ∧ qc = c + 2)) by lia.
    destruct Hcases as [[-> ->]|[[-> ->]|[[-> ->]|[[-> ->]|[[-> ->]|[[-> ->]|[[-> ->]|[-> ->]]]]]]]];
      auto 10.
Qed.

Lemma accessible_inside size r c q :
  q ∈ get_accessible_fields size r c → inside size q = true.
Proof. intros H. by apply accessible_spec in H as [? _]. Qed.

Lemma accessible_sym size p q :
  inside size p = true → q ∈ get_accessible_fields size p.1 p.2 →
  p ∈ get_accessible_fields size q.1 q.2.
Proof.
  intros Hp Hq. destruct p as [pr pc]. apply accessible_spec in Hq as [Hq Hm].
  apply accessible_spec. split; [done|]. destruct q. by apply knight_move_sym.
Qed.

Lemma accessible_length size r c :
  (length (get_accessible_fields size r c) <= 8)%nat.
Proof.
  unfold get_accessible_fields.
  etrans; [apply List.filter_length_le|]. by rewrite length_fmap.
Qed.

Lemma range_spec n x : x ∈ range n ↔ 0 <= x < n.
Proof.
  unfold range. rewrite list_elem_of_fmap. split.
  - intros (k & -> & Hk). apply elem_of_seq in Hk. lia.
  - intros Hx. exists (Z.to_nat x). split; [lia|]. apply elem_of_seq. lia.
Qed.

Lemma all_fields_spec size p : p ∈ all_fields size ↔ inside size p = true.
Proof.
  unfold all_fields. rewrite inside_spec, list_elem_of_bind. split.
  - intros (r & Hp & Hr). apply list_elem_of_fmap in Hp as (c & -> & Hc).
    apply range_spec in Hr, Hc. done.
  - intros [Hr Hc]. exists p.1. split; [|by apply range_spec].
    apply list_elem_of_fmap. exists p.2. split; [by destruct p|by apply range_spec].
Qed.

Lemma all_fields_inside size : Forall (λ p, inside size p = true) (all_fields size).
Proof. apply Forall_forall. intros p. apply all_fields_spec. Qed.

Lemma accessible_all_inside size r c :
  Forall (λ p, inside size p = true) (get_accessible_fields size r c).
Proof. apply Forall_forall. intros p. apply accessible_inside. Qed.

(** ** What the scans return *)

Lemma neighbour_scan_elem brd r c step fields q :
  neighbour_scan brd r c step fields = Ret (Some q) → q ∈ fields.
Proof.
  induction fields as [|f fs IH]; simpl; [done|].
  intros H. inv_bind H. inv_bind H.
  destruct (a =? a0 + step); [injection H as <-; left|right; by apply IH].
Qed.

Lemma neighbour_scan_some brd r c step fields q :
  neighbour_scan brd r c step fields = Ret (Some q) →
  ∃ y, getitem2 brd r c = Ret y ∧ getitem2 brd q.1 q.2 = Ret (y + step).
Proof.
  induction fields as [|f fs IH]; simpl; [done|].
  intros H. inv_bind H. inv_bind H.
  destruct (Z.eqb_spec a (a0 + step)) as [->|_]; [|by apply IH].
  injection H as <-. by exists a0.
Qed.

Lemma find_in_some brd num fields p :
  find_in brd num fields = Ret (Some p) → getitem2 brd p.1 p.2 = Ret num.
Proof.
  induction fields as [|f fs IH]; simpl; [done|].
  intros H. inv_bind H. destruct (Z.eqb_spec a num) as [->|_]; [|by apply IH].
  by injection H as <-.
Qed.

(** ** The scans of a well-formed board never fault *)

Section Scans.
Variable size : Z.
Variable brd : board.
Hypothesis Hwf : wf_board size brd.

Lemma empty_among_pure fields :
  Forall (λ p, inside size p = true) fields →
  empty_among brd fields = Ret (List.filter (λ f, cell brd f =? 0) fields).
Proof using Hwf.
  induction 1 as [|f fs Hf Hfs IH]; [done|]. simpl.
  rewrite (getitem2_inside size) by done. rewrite IH. simpl.
  by destruct (cell brd f =? 0).
Qed.

Lemma get_possible_jumps_pure r c :
  get_possible_jumps size brd r c =
  Ret (List.filter (λ f, cell brd f =? 0) (get_accessible_fields size r c)).
Proof using Hwf. apply empty_among_pure, accessible_all_inside. Qed.

Lemma neighbour_scan_pure p step fields :
  inside size p = true →
  Forall (λ p, inside size p = true) fields →
  neighbour_scan brd p.1 p.2 step fields =
  Ret (List.find (λ f, cell brd f =? cell brd p + step) fields).
Proof using Hwf.
  intros Hp. induction 1 as [|f fs Hf Hfs IH]; [done|]. simpl.
  rewrite !(getitem2_inside size) by done. simpl.
  by destruct (cell brd f =? cell brd p + step).
Qed.

Lemma get_next_pure p :
  inside size p = true →
  get_next size brd p.1 p.2 =
  Ret (List.find (λ f, cell brd f =? cell brd p + 1)
         (get_accessible_fields size p.1 p.2)).
Proof using Hwf.
  intros Hp. by apply neighbour_scan_pure, accessible_all_inside.
Qed.

Lemma get_prev_pure p :
  inside size p = true →
  get_prev size brd p.1 p.2 =
  Ret (List.find (λ f, cell brd f =? cell brd p + -1)
         (get_accessible_fields size p.1 p.2)).
Proof using Hwf.
  intros Hp. by apply neighbour_scan_pure, accessible_all_inside.
Qed.

Lemma find_in_pure num fields :
  Forall (λ p, inside size p = true) fields →
  find_in brd num fields = Ret (List.find (λ f, cell brd f =? num) fields).
Proof using Hwf.
  induction 1 as [|f fs Hf Hfs IH]; [done|]. simpl.
  rewrite (getitem2_inside size) by done. simpl.
  by destruct (cell brd f =? num).
Qed.

Lemma max_in_pure fields m mp :
  Forall (λ p, inside size p = true) fields →
  max_in brd fields m mp = Ret (foldl (max_step brd) (m, mp) fields).2.
Proof using Hwf.
  intros Hall. revert m mp.
  induction Hall as [|f fs Hf Hfs IH]; intros m mp; [done|]. simpl.
  rewrite (getitem2_inside size) by done. simpl. unfold max_step at 2. simpl.
  destruct (m <? cell brd f); apply IH.
Qed.

End Scans.

(** ** The reversal loop of [reroute] *)

Ltac flip_lia :=
  unfold flip, rev in *;
  repeat match goal with
  | |- context [Z.leb ?a ?b] => destruct (Z.leb_spec a b)
  | |- context [Z.ltb ?a ?b] => destruct (Z.ltb_spec a b)
  | H : context [Z.leb ?a ?b] |- _ => destruct (Z.leb_spec a b)
  | H : context [Z.ltb ?a ?b] |- _ => destruct (Z.ltb_spec a b)
  end; simpl in *; try lia.

Lemma flip_0 s k x : flip s k 0 x = x.
Proof. flip_lia. Qed.

Lemma flip_full s k n x :
  s <= k → k - s + 1 <= 2 * n <= k - s + 2 → flip s k n x = rev s k x.
Proof. intros. flip_lia. Qed.

Section Reversal.
Variables (size : Z) (brd : board) (k s : Z).
Hypothesis Htour : tour size brd k.
Hypothesis Hs : 1 <= s.

(** The successor scan on a partly reversed board finds the cell that
    held [x + 1] on [brd], as long as [x] and [x + 1] are not yet
    touched. *)
Lemma scan_next_flipped b i p :
  wf_board size b →
  (∀ q, inside size q = true → cell b q = flip s k i (cell brd q)) →
  inside size p = true → 0 <= i →
  cell brd p = s + i → s + i + 1 <= k - i - 1 →
  ∃ p', get_next size b p.1 p.2 = Ret (Some p') ∧
        inside size p' = true ∧ cell brd p' = s + i + 1.
Proof using Htour Hs.
  intros Hwfb Hb Hp Hi Hcp Hle.
  rewrite (get_next_pure size b Hwfb p Hp).
  destruct (tour_all _ _ _ Htour (s + i + 1)) as (p' & Hp' & Hcp'); [lia|].
  assert (Hin : p' ∈ get_accessible_fields size p.1 p.2).
  { apply accessible_spec. split; [done|]. destruct p as [pr pc].
    apply (tour_adj _ _ _ Htour); simpl; [done|done|lia|lia]. }
  destruct (List.find _ _) as [f|] eqn:Hfind.
  - apply find_some in Hfind as [Hf Heq]. apply list_elem_of_In in Hf.
    pose proof (accessible_inside _ _ _ _ Hf) as Hfi.
    exists f. split; [done|]. split; [done|].
    rewrite !Hb in Heq by done. rewrite Hcp in Heq.
    pose proof (tour_range _ _ _ Htour f Hfi).
    apply Z.eqb_eq in Heq. revert Heq. generalize (cell brd f). intros x. flip_lia.
  - exfalso. apply list_elem_of_In in Hin.
    pose proof (find_none _ _ Hfind _ Hin) as Hno. simpl in Hno.
    rewrite !Hb in Hno by done. rewrite Hcp, Hcp' in Hno.
    apply Z.eqb_neq in Hno. apply Hno. flip_lia.
Qed.

Lemma scan_prev_flipped b i p :
  wf_board size b →
  (∀ q, inside size q = true → cell b q = flip s k i (cell brd q)) →
  inside size p = true → 0 <= i →
  cell brd p = k - i → s + i + 1 <= k - i - 1 →
  ∃ p', get_prev size b p.1 p.2 = Ret (Some p') ∧
        inside size p' = true ∧ cell brd p' = k - i - 1.
Proof using Htour Hs.
  intros Hwfb Hb Hp Hi Hcp Hle.
  rewrite (get_prev_pure size b Hwfb p Hp).
  destruct (tour_all _ _ _ Htour (k - i - 1)) as (p' & Hp' & Hcp'); [lia|].
  assert (Hin : p' ∈ get_accessible_fields size p.1 p.2).
  { apply accessible_spec. split; [done|]. destruct p as [pr pc].
    apply knight_move_sym.
    apply (tour_adj _ _ _ Htour); simpl; [done|done|lia|lia]. }
  destruct (List.find _ _) as [f|] eqn:Hfind.
  - apply find_some in Hfind as [Hf Heq]. apply list_elem_of_In in Hf.
    pose proof (accessible_inside _ _ _ _ Hf) as Hfi.
    exists f. split; [done|]. split; [done|].
    rewrite !Hb in Heq by done. rewrite Hcp in Heq.
    pose proof (tour_range _ _ _ Htour f Hfi).
    apply Z.eqb_eq in Heq. revert Heq. generalize (cell brd f). intros x. flip_lia.
  - exfalso. apply list_elem_of_In in Hin.
    pose proof (find_none _ _ Hfind _ Hin) as Hno. simpl in Hno.
    rewrite !Hb in Hno by done. rewrite Hcp, Hcp' in Hno.
    apply Z.eqb_neq in Hno. apply Hno. flip_lia.
Qed.

(** The loop of [reroute] never faults, and after [n] more swaps the
    board is [brd] renumbered by [flip]. *)
Lemma swap_loop_flips (n : nat) : ∀ i b f1 f2,
  0 <= i → 2 * (i + Z.of_nat n) <= k - s + 2 →
  wf_board size b →
  (∀ q, inside size q = true → cell b q = flip s k i (cell brd q)) →
  (n ≠ 0%nat → ∃ p1 p2, f1 = Some p1 ∧ f2 = Some p2 ∧
     inside size p1 = true ∧ inside size p2 = true ∧
     cell brd p1 = s + i ∧ cell brd p2 = k - i) →
  ∃ b', swap_loop size n b f1 f2 = Ret b' ∧ wf_board size b' ∧
    ∀ q, inside size q = true →
      cell b' q = flip s k (i + Z.of_nat n) (cell brd q).
Proof using Htour Hs.
  induction n as [|n IH]; intros i b f1 f2 Hi Hn Hwfb Hb Hcur.
  { exists b. split; [done|]. split; [done|].
    intros q Hq. rewrite Z.add_0_r. by apply Hb. }
  destruct Hcur as (p1 & p2 & -> & -> & Hp1 & Hp2 & Hc1 & Hc2); [done|].
  assert (Hnext : ∃ nf1, get_next size b p1.1 p1.2 = Ret nf1 ∧
    (n ≠ 0%nat → ∃ p', nf1 = Some p' ∧ inside size p' = true ∧
       cell brd p' = s + (i + 1))).
  { destruct n as [|n'].
    - rewrite (get_next_pure size b Hwfb p1 Hp1). eexists. split; [done|]. done.
    - destruct (scan_next_flipped b i p1) as (p' & -> & Hp' & Hcp');
        [done|done|done|done|done|lia|].
      eexists. split; [done|]. intros _. exists p'. repeat split; [done|lia]. }
  assert (Hprev : ∃ nf2, get_prev size b p2.1 p2.2 = Ret nf2 ∧
    (n ≠ 0%nat → ∃ p', nf2 = Some p' ∧ inside size p' = true ∧
       cell brd p' = k - (i + 1))).
  { destruct n as [|n'].
    - rewrite (get_prev_pure size b Hwfb p2 Hp2). eexists. split; [done|]. done.
    - destruct (scan_prev_flipped b i p2) as (p' & -> & Hp' & Hcp');
        [done|done|done|done|done|lia|].
      eexists. split; [done|]. intros _. exists p'. repeat split; [done|lia]. }
  destruct Hnext as (nf1 & Hnf1 & Hcur1). destruct Hprev as (nf2 & Hnf2 & Hcur2).
  cbn [swap_loop unpack]. rewrite bind_Ret, Hnf1, bind_Ret, bind_Ret, Hnf2, bind_Ret.
  rewrite (getitem2_inside size b p2), bind_Ret by done.
  rewrite (getitem2_inside size b p1), bind_Ret by done.
  rewrite (setitem2_inside size b p1), bind_Ret by done.
  pose proof (wf_upd size b p1 (cell b p2) Hwfb) as Hwf1.
  rewrite (setitem2_inside size _ p2), bind_Ret by done.
  pose proof (wf_upd size _ p2 (cell b p1) Hwf1) as Hwf2.
  destruct (IH (i + 1) (upd (upd b p1 (cell b p2)) p2 (cell b p1)) nf1 nf2)
    as (b' & Hrun & Hwfb' & Hb'); [lia|lia|done| |  |].
  - intros q Hq.
    rewrite (cell_upd size) by done.
    rewrite !Hb by done. rewrite Hc1, Hc2.
    destruct (decide (p2 = q)) as [<-|Hne2].
    { rewrite Hc2. flip_lia. }
    rewrite (cell_upd size) by done.
    destruct (decide (p1 = q)) as [<-|Hne1].
    { rewrite Hc1. flip_lia. }
    assert (cell brd q ≠ s + i).
    { intros Heq. apply Hne1. apply (tour_once _ _ _ Htour); [done|done|lia|lia]. }
    assert (cell brd q ≠ k - i).
    { intros Heq. apply Hne2. apply (tour_once _ _ _ Htour); [done|done|lia|lia]. }
    rewrite Hb by done. flip_lia.
  - intros Hn0. destruct (Hcur1 Hn0) as (p1' & -> & ? & ?).
    destruct (Hcur2 Hn0) as (p2' & -> & ? & ?).
    exists p1', p2'. done.
  - exists b'. split; [done|]. split; [done|].
    intros q Hq. rewrite Hb' by done. f_equal. lia.
Qed.

End Reversal.

(** ** What [reroute] yields *)

Lemma ends_of_elem size brd fields ends e :
  ends_of size brd fields = Ret ends → e ∈ ends →
  ∃ f, f ∈ fields ∧ get_next size brd f.1 f.2 = Ret e.
Proof.
  revert ends. induction fields as [|f fs IH]; intros ends Hrun He; simpl in Hrun.
  - injection Hrun as <-. by apply elem_of_nil in He.
  - inv_bind Hrun. inv_bind Hrun. injection Hrun as <-.
    apply elem_of_cons in He as [->|He].
    + exists f. split; [left|done].
    + destruct (IH _ Ha0 He) as (f' & Hf' & Hn). exists f'. split; [by right|done].
Qed.

Lemma possible_ends_elem size brd last ends e :
  possible_ends size brd last = Ret ends → e ∈ ends →
  ∃ f, f ∈ get_accessible_fields size last.1 last.2 ∧
       get_next size brd f.1 f.2 = Ret e.
Proof. apply ends_of_elem. Qed.

Lemma reroute_from_elem size fuel brd last ends cand :
  cand ∈ (reroute_from size fuel brd last ends).1 →
  ∃ e, e ∈ ends ∧ reroute_step size fuel brd last e = Ret (Some cand).
Proof.
  induction ends as [|e es IH]; simpl; [by intros ?%elem_of_nil|].
  destruct (reroute_step size fuel brd last e) as [[c|]| |] eqn:Hstep; simpl.
  - intros [->|Hin]%elem_of_cons.
    + exists e. split; [left|done].
    + destruct (IH Hin) as (e' & He' & Hs'). exists e'. split; [by right|done].
  - intros Hin. destruct (IH Hin) as (e' & He' & Hs'). exists e'. split; [by right|done].
  - by intros ?%elem_of_nil.
  - by intros ?%elem_of_nil.
Qed.

(** Every candidate comes from one end of [possible_ends], that is from
    the successor of a field accessible from [last]. *)
Lemma reroute_elem size fuel brd last cand :
  cand ∈ (reroute size fuel brd last).1 →
  ∃ f e, f ∈ get_accessible_fields size last.1 last.2 ∧
         get_next size brd f.1 f.2 = Ret e ∧
         reroute_step size fuel brd last e = Ret (Some cand).
Proof.
  unfold reroute. destruct (possible_ends size brd last) as [ends| |] eqn:Hends;
    simpl; [|by intros ?%elem_of_nil..].
  intros (e & He & Hstep)%reroute_from_elem.
  destruct (possible_ends_elem _ _ _ _ _ Hends He) as (f & Hf & Hn).
  by exists f, e.
Qed.

Lemma reroute_step_yields size fuel brd last e cand :
  reroute_step size fuel brd last e = Ret (Some cand) →
  e ≠ Some last ∧
  reroute_board size brd last e = Ret (cand.1.1, cand.1.2) ∧
  get_rank size fuel cand.1.1 None = Ret cand.2.
Proof.
  unfold reroute_step. destruct (decide (e = Some last)) as [|Hne]; [done|].
  intros H. inv_bind H. inv_bind H. injection H as <-. simpl.
  by destruct a.
Qed.

Section Reroute.
Variables (size : Z) (brd : board) (k : Z) (last : pos).
Hypothesis Htour : tour size brd k.
Hypothesis Hlast : inside size last = true.
Hypothesis Hmax : cell brd last = k.

(** The successor of a field, when there is one, is on the board and
    holds the next value. *)
Lemma get_next_some f e :
  inside size f = true → get_next size brd f.1 f.2 = Ret (Some e) →
  e ∈ get_accessible_fields size f.1 f.2 ∧ cell brd e = cell brd f + 1.
Proof using Htour.
  intros Hf. rewrite (get_next_pure size brd (tour_wf _ _ _ Htour) f Hf).
  intros [= Hfind]. apply find_some in Hfind as [Hin Heq].
  split; [by apply list_elem_of_In|]. by apply Z.eqb_eq.
Qed.

(** Lines 204-210 on an end [e] of the path: no fault, and the values
    from [cell brd e] to [k] are reversed. *)
Lemma reroute_board_reverses e :
  inside size e = true → 1 <= cell brd e →
  ∃ b', reroute_board size brd last (Some e) = Ret (b', e) ∧
        wf_board size b' ∧
        ∀ q, inside size q = true → cell b' q = rev (cell brd e) k (cell brd q).
Proof using Htour Hlast Hmax.
  intros He Hs. pose proof (tour_wf _ _ _ Htour) as Hwf.
  pose proof (tour_range _ _ _ Htour e He) as Hrange.
  unfold reroute_board.
  rewrite (getitem2_inside size brd last), bind_Ret by done.
  cbn [unpack]. rewrite bind_Ret.
  rewrite (getitem2_inside size brd e), bind_Ret by done.
  rewrite Hmax. set (s := cell brd e) in *.
  pose proof (Z.div_mod (k - s) 2 ltac:(lia)) as Hdiv.
  pose proof (Z.mod_pos_bound (k - s) 2 ltac:(lia)) as Hmod.
  destruct (swap_loop_flips size brd k s Htour Hs
              (Z.to_nat ((k - s) / 2 + 1)) 0 brd (Some e) (Some last))
    as (b' & -> & Hwfb' & Hb'); [lia|lia|done| | |].
  - intros q _. by rewrite flip_0.
  - intros _. exists e, last. repeat split; try done; lia.
  - exists b'. split; [done|]. split; [done|].
    intros q Hq. rewrite Hb' by done. apply flip_full; lia.
Qed.

(** Reversing the tail of the path keeps the invariant, provided the
    cell before the reversed part is a knight's move from [last]. *)
Lemma tour_rev s b' :
  1 <= s <= k →
  wf_board size b' →
  (∀ q, inside size q = true → cell b' q = rev s k (cell brd q)) →
  (∀ p, inside size p = true → 1 <= cell brd p → cell brd p = s - 1 →
        knight_move p last) →
  tour size b' k.
Proof using Htour Hlast Hmax.
  intros Hs Hwfb' Hb' Hbridge. split.
  - done.
  - intros p Hp. rewrite Hb' by done.
    pose proof (tour_range _ _ _ Htour p Hp). flip_lia.
  - intros i Hi. destruct (tour_all _ _ _ Htour (rev s k i)) as (p & Hp & Hcp).
    { flip_lia. }
    exists p. split; [done|]. rewrite Hb', Hcp by done. flip_lia.
  - intros p q Hp Hq Hnz Heq.
    rewrite (Hb' p), (Hb' q) in Heq by done. rewrite (Hb' p) in Hnz by done.
    apply (tour_once _ _ _ Htour); [done|done| |].
    + intros H0. apply Hnz. rewrite H0. flip_lia.
    + revert Heq. generalize (cell brd p) (cell brd q). intros x y. flip_lia.
  - intros p q Hp Hq Hpos Hsucc.
    rewrite (Hb' p), (Hb' q) in Hsucc by done. rewrite (Hb' p) in Hpos by done.
    pose proof (tour_range _ _ _ Htour p Hp) as Hrp.
    pose proof (tour_range _ _ _ Htour q Hq) as Hrq.
    destruct (decide (cell brd q = cell brd p + 1)) as [Hpq|Hpq].
    { apply (tour_adj _ _ _ Htour); [done|done| |done].
      revert Hpos. generalize (cell brd p). intros x. flip_lia. }
    destruct (decide (cell brd p = cell brd q + 1)) as [Hqp|Hqp].
    { apply knight_move_sym. apply (tour_adj _ _ _ Htour); [done|done| |done].
      revert Hpos Hsucc Hqp Hrq. generalize (cell brd p) (cell brd q).
      intros x y. flip_lia. }
    assert (Hx : cell brd p = s - 1 ∧ cell brd q = k).
    { revert Hpos Hsucc Hpq Hqp Hrp Hrq. generalize (cell brd p) (cell brd q).
      intros x y. flip_lia. }
    destruct Hx as [Hx Hy].
    assert (q = last) as ->.
    { apply (tour_once _ _ _ Htour); [done|done| |congruence].
      rewrite Hy. lia. }
    apply Hbridge; [done| |done].
    revert Hpos. rewrite Hx. flip_lia.
Qed.

(** The reversal that starts after an accessible field [f]. *)
Lemma tour_rev_after f b' :
  f ∈ get_accessible_fields size last.1 last.2 →
  cell brd f + 1 <= k →
  wf_board size b' →
  (∀ q, inside size q = true → cell b' q = rev (cell brd f + 1) k (cell brd q)) →
  tour size b' k.
Proof using Htour Hlast Hmax.
  intros Hf Hle Hwf' Hcells.
  pose proof (accessible_inside _ _ _ _ Hf) as Hfi.
  pose proof (tour_range _ _ _ Htour f Hfi) as Hrf.
  apply (tour_rev (cell brd f + 1)); [lia|done|done|].
  intros p Hp Hpos Hcp.
  assert (p = f) as ->.
  { apply (tour_once _ _ _ Htour); [done|done|lia|lia]. }
  apply knight_move_sym. destruct last as [lr lc].
  by apply accessible_spec in Hf as [_ Hf].
Qed.

(** A candidate of [reroute]: its end is the successor of a field
    accessible from [last], it is not [last], and its board is [brd]
    with the values from the end's to [k] reversed. *)
Lemma reroute_candidate fuel cand :
  cand ∈ (reroute size fuel brd last).1 →
  ∃ f, f ∈ get_accessible_fields size last.1 last.2 ∧
       get_next size brd f.1 f.2 = Ret (Some cand.1.2) ∧
       inside size cand.1.2 = true ∧
       cand.1.2 ≠ last ∧
       cell brd cand.1.2 = cell brd f + 1 ∧
       wf_board size cand.1.1 ∧
       (∀ q, inside size q = true →
             cell cand.1.1 q = rev (cell brd f + 1) k (cell brd q)) ∧
       get_rank size fuel cand.1.1 None = Ret cand.2.
Proof using Htour Hlast Hmax.
  intros (f & e & Hf & Hnext & Hstep)%reroute_elem.
  apply reroute_step_yields in Hstep as (Hne & Hboard & Hrank).
  pose proof (accessible_inside _ _ _ _ Hf) as Hfi.
  destruct e as [e|].
  2:{ unfold reroute_board in Hboard.
      rewrite (getitem2_inside size brd last) in Hboard
        by (done || apply (tour_wf _ _ _ Htour)).
      discriminate. }
  destruct (get_next_some f e Hfi Hnext) as [Hin Hce].
  pose proof (accessible_inside _ _ _ _ Hin) as Hei.
  pose proof (tour_range _ _ _ Htour f Hfi) as Hrf.
  destruct (reroute_board_reverses e Hei) as (b' & Hrun & Hwfb' & Hb'); [lia|].
  rewrite Hrun in Hboard. injection Hboard as Hb He. subst b'.
  exists f. rewrite <- He, <- Hce.
  split; [done|]. split; [done|]. split; [done|]. split; [congruence|].
  done.
Qed.

End Reroute.

(** ** The checker of the invariant is sound *)

Lemma wf_boardb_sound size brd : wf_boardb size brd = true → wf_board size brd.
Proof.
  unfold wf_boardb, wf_board. rewrite andb_true_iff, forallb_forall.
  intros [Hlen Hrows]. split; [by apply bool_decide_eq_true in Hlen|].
  apply Forall_forall. intros row Hrow%list_elem_of_In.
  apply Hrows in Hrow. by apply bool_decide_eq_true in Hrow.
Qed.

Lemma knight_moveb_sound p q : knight_moveb p q = true → knight_move p q.
Proof. unfold knight_moveb, knight_move. lia. Qed.

Lemma forallb_fields size (P : pos → bool) :
  forallb P (all_fields size) = true →
  ∀ p, inside size p = true → P p = true.
Proof.
  rewrite forallb_forall. intros H p Hp.
  by apply H, list_elem_of_In, all_fields_spec.
Qed.

Lemma tourb_sound size brd k : tourb size brd k = true → tour size brd k.
Proof.
  unfold tourb. rewrite !andb_true_iff.
  intros [[[[Hwf Hrange] Hall] Honce] Hadj]. split.
  - by apply wf_boardb_sound.
  - intros p Hp. pose proof (forallb_fields _ _ Hrange p Hp) as H.
    simpl in H. lia.
  - intros i Hi. rewrite forallb_forall in Hall.
    specialize (Hall (i - 1)). rewrite existsb_exists in Hall.
    destruct Hall as (p & Hp & Heq).
    { apply list_elem_of_In, range_spec. lia. }
    exists p. split; [by apply all_fields_spec, list_elem_of_In|]. lia.
  - intros p q Hp Hq Hnz Heq.
    pose proof (forallb_fields _ _ Honce p Hp) as H. simpl in H.
    pose proof (forallb_fields _ _ H q Hq) as H'. simpl in H'.
    rewrite !orb_true_iff in H'. destruct H' as [[H'|H']|H'].
    + apply Z.eqb_eq in H'. done.
    + apply negb_true_iff, Z.eqb_neq in H'. done.
    + by apply bool_decide_eq_true in H'.
  - intros p q Hp Hq Hpos Hsucc.
    pose proof (forallb_fields _ _ Hadj p Hp) as H. simpl in H.
    pose proof (forallb_fields _ _ H q Hq) as H'. simpl in H'.
    rewrite !orb_true_iff in H'. destruct H' as [[H'|H']|H'].
    + apply negb_true_iff, Z.leb_gt in H'. lia.
    + apply negb_true_iff, Z.eqb_neq in H'. done.
    + by apply knight_moveb_sound.
Qed.

(** ** [get_max] on a path *)

Lemma max_fold_spec brd fields m mp :
  let r := foldl (max_step brd) (m, mp) fields in
  m <= r.1 ∧ (∀ f, f ∈ fields → cell brd f <= r.1) ∧
  (r = (m, mp) ∨ (r.2 ∈ fields ∧ cell brd r.2 = r.1 ∧ m < r.1)).
Proof.
  revert m mp. induction fields as [|f fs IH]; intros m mp; simpl.
  - split; [lia|]. split; [by intros f ?%elem_of_nil|by left].
  - assert (Hstep : max_step brd (m, mp) f =
      if m <? cell brd f then (cell brd f, f) else (m, mp)) by reflexivity.
    rewrite Hstep. clear Hstep.
    destruct (Z.ltb_spec m (cell brd f)) as [Hlt|Hge].
    + destruct (IH (cell brd f) f) as (Hle & Hall & Hpos). simpl in *.
      split; [lia|]. split.
      * intros g [->|Hg]%elem_of_cons; [done|by apply Hall].
      * right. destruct Hpos as [->|(Hin & Hc & Hlt')]; simpl.
        -- split; [left|done].
        -- split; [by right|]. split; [done|lia].
    + destruct (IH m mp) as (Hle & Hall & Hpos). simpl in *.
      split; [done|]. split.
      * intros g [->|Hg]%elem_of_cons; [lia|by apply Hall].
      * destruct Hpos as [->|(Hin & Hc & Hlt')]; [by left|].
        right. split; [by right|done].
Qed.

Lemma get_max_tour size brd k p :
  tour size brd k → 1 <= k → inside size p = true → cell brd p = k →
  get_max size brd = Ret p.
Proof.
  intros Htour Hk Hp Hcp. unfold get_max.
  rewrite (max_in_pure size brd (tour_wf _ _ _ Htour)) by apply all_fields_inside.
  f_equal.
  destruct (max_fold_spec brd (all_fields size) 0 (0, 0)) as (_ & Hall & Hpos).
  pose proof (Hall p ltac:(by apply all_fields_spec)) as Hge.
  destruct Hpos as [Heq|(Hin & Hc & _)].
  - rewrite Heq in Hge. simpl in Hge. lia.
  - apply all_fields_spec in Hin.
    pose proof (tour_range _ _ _ Htour _ Hin).
    symmetry. apply (tour_once _ _ _ Htour); [done|done|lia|lia].
Qed.

(** The successor of a cell below the maximum is always found. *)
Lemma get_next_total size brd k f :
  tour size brd k → inside size f = true → 1 <= cell brd f < k →
  ∃ e, get_next size brd f.1 f.2 = Ret (Some e) ∧ inside size e = true ∧
       cell brd e = cell brd f + 1.
Proof.
  intros Htour Hf Hc.
  rewrite (get_next_pure size brd (tour_wf _ _ _ Htour) f Hf).
  destruct (tour_all _ _ _ Htour (cell brd f + 1)) as (p & Hp & Hcp); [lia|].
  assert (Hin : p ∈ get_accessible_fields size f.1 f.2).
  { apply accessible_spec. split; [done|]. destruct f as [fr fc].
    apply (tour_adj _ _ _ Htour); simpl; [done|done|lia|done]. }
  destruct (List.find _ _) as [e|] eqn:Hfind.
  - apply find_some in Hfind as [He Heq]. apply list_elem_of_In in He.
    exists e. split; [done|]. split; [by eapply accessible_inside|lia].
  - apply list_elem_of_In in Hin.
    pose proof (find_none _ _ Hfind _ Hin) as Hno. simpl in Hno. lia.
Qed.

Lemma ends_of_pure size brd fields :
  wf_board size brd → Forall (λ p, inside size p = true) fields →
  ends_of size brd fields =
  Ret ((λ f, List.find (λ g, cell brd g =? cell brd f + 1)
               (get_accessible_fields size f.1 f.2)) <$> fields).
Proof.
  intros Hwf. induction 1 as [|f fs Hf Hfs IH]; [done|]. simpl.
  rewrite (get_next_pure size brd Hwf f Hf), bind_Ret, IH. done.
Qed.

(** ** [shortest_path_length] *)

Section Distance.
Variable size : Z.

Lemma elem_of_expand (checked : gset pos) q :
  q ∈ expand size checked ↔
  ∃ p, p ∈ checked ∧ q ∈ get_accessible_fields size p.1 p.2.
Proof.
  unfold expand. rewrite elem_of_set_bind.
  by setoid_rewrite elem_of_list_to_set.
Qed.

Lemma iter_expand_shift (j : nat) (checked : gset pos) :
  Nat.iter j (expand size) (expand size checked) =
  Nat.iter (S j) (expand size) checked.
Proof. by rewrite Nat.iter_succ_r. Qed.

Lemma reach_0 (a b : pos) : reach size 0 a b ↔ b = a.
Proof. unfold reach. simpl. by rewrite elem_of_singleton. Qed.

Lemma reach_S_r (j : nat) (a b : pos) :
  reach size (S j) a b ↔ ∃ c, reach size j a c ∧ b ∈ get_accessible_fields size c.1 c.2.
Proof. unfold reach. simpl. apply elem_of_expand. Qed.

Lemma reach_S_l (j : nat) (a b : pos) :
  reach size (S j) a b ↔ ∃ c, c ∈ get_accessible_fields size a.1 a.2 ∧ reach size j c b.
Proof.
  revert b. induction j as [|j IH]; intros b.
  - rewrite reach_S_r. setoid_rewrite reach_0. split.
    + intros (c & -> & Hb). by exists b.
    + intros (c & Hc & ->). by exists a.
  - rewrite reach_S_r. setoid_rewrite IH. setoid_rewrite reach_S_r. split.
    + intros (c & (c' & Hc' & Hr) & Hb). exists c'. split; [done|]. by exists c.
    + intros (c' & Hc' & c & Hr & Hb). exists c. split; [|done]. by exists c'.
Qed.

Lemma reach_inside (j : nat) (a b : pos) : reach size (S j) a b → inside size b = true.
Proof. intros (c & _ & Hb)%reach_S_r. by eapply accessible_inside. Qed.

(** The knight's graph is undirected: walks can be walked back. *)
Lemma reach_sym (j : nat) (a b : pos) :
  inside size a = true → reach size j a b → reach size j b a.
Proof.
  intros Ha. revert b. induction j as [|j IH]; intros b.
  - rewrite !reach_0. done.
  - intros (c & Hr & Hb)%reach_S_r. apply reach_S_l.
    assert (Hc : inside size c = true).
    { destruct j; [by apply reach_0 in Hr as ->|by eapply reach_inside]. }
    exists c. split; [by apply accessible_sym|by apply IH].
Qed.

(** The loop returns [d + j] exactly when [j] is the first level that
    contains the target, and the budget covers it. *)
Lemma spl_loop_returns (fuel : nat) (checked : gset pos) (target : pos) (d r : Z) :
  spl_loop size fuel checked target d = Ret r ↔
  ∃ j : nat, (j < fuel)%nat ∧ r = d + Z.of_nat j ∧
    target ∈ Nat.iter j (expand size) checked ∧
    ∀ i : nat, (i < j)%nat → target ∉ Nat.iter i (expand size) checked.
Proof.
  revert checked d. induction fuel as [|fuel IH]; intros checked d; simpl.
  - split; [done|]. intros (j & Hj & _). lia.
  - destruct (decide (target ∈ checked)) as [Hin|Hout].
    + split.
      * intros [= <-]. exists 0%nat. simpl. repeat split; [lia|lia|done|lia].
      * intros (j & Hj & -> & Hin' & Hmin). destruct j as [|j]; [f_equal; lia|].
        exfalso. by apply (Hmin 0%nat); [lia|].
    + rewrite IH. split.
      * intros (j & Hj & -> & Hin' & Hmin). exists (S j).
        rewrite <- iter_expand_shift. repeat split; [lia|lia|done|].
        intros [|i] Hi; [done|]. rewrite <- iter_expand_shift. apply Hmin. lia.
      * intros (j & Hj & -> & Hin' & Hmin). destruct j as [|j]; [done|].
        exists j. rewrite iter_expand_shift. repeat split; [lia|lia|done|].
        intros i Hi. rewrite iter_expand_shift. apply Hmin. lia.
Qed.

Lemma spl_returns (fuel : nat) (a b : pos) (r : Z) :
  shortest_path_length size fuel a.1 a.2 b.1 b.2 = Ret r ↔
  ∃ j : nat, (j < fuel)%nat ∧ r = Z.of_nat j ∧ reach size j a b ∧
    ∀ i : nat, (i < j)%nat → ¬ reach size i a b.
Proof.
  unfold shortest_path_length. rewrite spl_loop_returns.
  destruct a, b. simpl. unfold reach. by setoid_rewrite Z.add_0_l.
Qed.

Lemma spl_sym fuel a b d :
  inside size a = true → inside size b = true →
  shortest_path_length size fuel a.1 a.2 b.1 b.2 = Ret d →
  shortest_path_length size fuel b.1 b.2 a.1 a.2 = Ret d.
Proof.
  intros Ha Hb. rewrite !spl_returns.
  intros (j & Hj & -> & Hr & Hmin). exists j. repeat split; [done|..].
  - by apply reach_sym.
  - intros i Hi Hr'. apply (Hmin i Hi). by apply reach_sym.
Qed.

Lemma spl_deterministic fuel fuel' a b d d' :
  shortest_path_length size fuel a.1 a.2 b.1 b.2 = Ret d →
  shortest_path_length size fuel' a.1 a.2 b.1 b.2 = Ret d' →
  d = d'.
Proof.
  rewrite !spl_returns.
  intros (j & _ & -> & Hr & Hmin) (j' & _ & -> & Hr' & Hmin').
  destruct (lt_eq_lt_dec j j') as [[Hlt| ->]|Hlt]; [|done|].
  - by destruct (Hmin' j Hlt).
  - by destruct (Hmin j' Hlt).
Qed.

End Distance.

(** ** [wandorf_fill] *)

Lemma degree_bound size brd j : 0 <= degree size brd j <= 8.
Proof.
  unfold degree. split; [lia|].
  pose proof (List.filter_length_le (λ f, cell brd f =? 0)
                (get_accessible_fields size j.1 j.2)).
  pose proof (accessible_length size j.1 j.2). lia.
Qed.

Lemma best_of_pure size brd jumps best :
  wf_board size brd →
  best_of size brd jumps best = Ret (foldl (best_step (degree size brd)) best jumps).
Proof.
  intros Hwf. revert best. induction jumps as [|j js IH]; intros best; [done|].
  simpl. rewrite (get_possible_jumps_pure size brd Hwf), bind_Ret. apply IH.
Qed.

Lemma best_fold_spec (deg : pos → Z) jumps best :
  let r := foldl (best_step deg) best jumps in
  (r = best ∧ ∀ x, x ∈ jumps → best.1 <= deg x) ∨
  (r.1 = deg r.2 ∧ r.1 < best.1 ∧ first_min deg jumps r.2).
Proof.
  revert best. induction jumps as [|j js IH]; intros best; simpl.
  { left. split; [done|]. by intros x ?%elem_of_nil. }
  assert (Hstep : best_step deg best j =
    if deg j <? best.1 then (deg j, j) else best) by reflexivity.
  rewrite Hstep. clear Hstep.
  destruct (Z.ltb_spec (deg j) best.1) as [Hlt|Hge].
  - right. destruct (IH (deg j, j)) as [[-> Hall]|(Hd & Hlt' & Hfm)]; simpl in *.
    + split; [done|]. split; [done|]. exists [], js. split; [done|].
      split; [by intros x ?%elem_of_nil|done].
    + split; [done|]. split; [lia|].
      destruct Hfm as (l1 & l2 & Hjs & H1 & H2). exists (j :: l1), l2.
      split; [simpl; f_equal; exact Hjs|]. split; [|done].
      intros x [->|Hx]%elem_of_cons; [lia|by apply H1].
  - destruct (IH best) as [[-> Hall]|(Hd & Hlt' & Hfm)].
    + left. split; [done|]. intros x [->|Hx]%elem_of_cons; [done|by apply Hall].
    + right. split; [done|]. split; [done|].
      destruct Hfm as (l1 & l2 & Hjs & H1 & H2). exists (j :: l1), l2.
      split; [simpl; f_equal; exact Hjs|]. split; [|done].
      intros x [->|Hx]%elem_of_cons; [lia|by apply H1].
Qed.

Lemma first_min_elem deg jumps j : first_min deg jumps j → j ∈ jumps.
Proof.
  intros (l1 & l2 & -> & _). apply elem_of_app. right. left.
Qed.

Lemma filter_length_lt {A} (P Q : A → bool) (l : list A) x :
  (∀ y, y ∈ l → Q y = true → P y = true) →
  x ∈ l → P x = true → Q x = false →
  (length (List.filter Q l) < length (List.filter P l))%nat.
Proof.
  intros Himp Hx HP HQ. induction l as [|y l IH]; [by apply elem_of_nil in Hx|].
  assert (Hle : (length (List.filter Q l) <= length (List.filter P l))%nat).
  { clear -Himp. induction l as [|z l IH]; [done|]. simpl.
    pose proof (Himp z ltac:(right; left)) as Hz.
    assert (IH' : (length (List.filter Q l) ≤ length (List.filter P l))%nat).
    { apply IH. intros w Hw. apply Himp.
      apply elem_of_cons in Hw as [->|Hw]; [left|right; by right]. }
    destruct (Q z); [rewrite Hz by done; simpl; lia|].
    destruct (P z); simpl; lia. }
  simpl. apply elem_of_cons in Hx as [<-|Hx].
  - rewrite HP, HQ. simpl. lia.
  - pose proof (Himp y ltac:(left)) as Hy.
    assert (IH' : (length (List.filter Q l) < length (List.filter P l))%nat).
    { apply IH; [|done]. intros w Hw. apply Himp. by right. }
    destruct (Q y); [rewrite Hy by done; simpl; lia|].
    destruct (P y); simpl; lia.
Qed.

Lemma filter_length_le_imp {A} (P Q : A → bool) (l : list A) :
  (∀ y, y ∈ l → Q y = true → P y = true) →
  (length (List.filter Q l) <= length (List.filter P l))%nat.
Proof.
  intros Himp. induction l as [|z l IH]; [done|]. simpl.
  pose proof (Himp z ltac:(left)) as Hz.
  assert (IH' : (length (List.filter Q l) ≤ length (List.filter P l))%nat).
  { apply IH. intros w Hw. apply Himp. by right. }
  destruct (Q z); [rewrite Hz by done; simpl; lia|].
  destruct (P z); simpl; lia.
Qed.

Lemma zeros_upd_le size brd p v :
  wf_board size brd → inside size p = true → v ≠ 0 →
  (zeros size (upd brd p v) <= zeros size brd)%nat.
Proof.
  intros Hwf Hp Hv. apply filter_length_le_imp.
  intros q Hq%all_fields_spec. rewrite (cell_upd size) by done.
  destruct (decide (p = q)); [lia|done].
Qed.

Lemma zeros_upd_lt size brd p v :
  wf_board size brd → inside size p = true → v ≠ 0 → cell brd p = 0 →
  (zeros size (upd brd p v) < zeros size brd)%nat.
Proof.
  intros Hwf Hp Hv Hc. apply (filter_length_lt _ _ _ p).
  - intros q Hq%all_fields_spec. rewrite (cell_upd size) by done.
    destruct (decide (p = q)); [lia|done].
  - by apply all_fields_spec.
  - lia.
  - rewrite (cell_upd_eq size) by done. lia.
Qed.

(** One turn of the loop on a well-formed board. *)
Lemma wandorf_fill_unfold size fuel brd p num :
  wf_board size brd → inside size p = true →
  let brd1 := upd brd p num in
  let jumps := List.filter (λ f, cell brd1 f =? 0) (get_accessible_fields size p.1 p.2) in
  wandorf_fill size (S fuel) brd p.1 p.2 num =
  match jumps with
  | [] => (brd1, Ret p)
  | _ :: _ =>
      let best := foldl (best_step (degree size brd1)) (9, (0, 0)) jumps in
      wandorf_fill size fuel brd1 best.2.1 best.2.2 (num + 1)
  end.
Proof.
  intros Hwf Hp brd1 jumps. simpl.
  rewrite (setitem2_inside size brd p num Hwf Hp). fold brd1.
  pose proof (wf_upd size brd p num Hwf) as Hwf1. fold brd1 in Hwf1.
  rewrite (get_possible_jumps_pure size brd1 Hwf1). fold jumps.
  destruct jumps as [|j js]; [by destruct p|].
  by rewrite (best_of_pure size brd1 _ _ Hwf1).
Qed.

(** The jump chosen among a non-empty [jumps] is its first element of
    least degree (no degree reaches the initial [best_deg] of 9). *)
Lemma best_jump_first_min size brd jumps :
  jumps ≠ [] →
  first_min (degree size brd) jumps
    (foldl (best_step (degree size brd)) (9, (0, 0)) jumps).2.
Proof.
  intros Hne.
  destruct (best_fold_spec (degree size brd) jumps (9, (0, 0)))
    as [[_ Hall]|(_ & _ & Hfm)]; [|done].
  destruct jumps as [|j js]; [done|].
  pose proof (Hall j ltac:(left)) as H9. simpl in H9.
  pose proof (degree_bound size brd j). lia.
Qed.

(** [wandorf_fill] returns once the budget exceeds the number of empty
    cells (it writes a non-zero number into an empty cell at every turn
    after the first). *)
Lemma wandorf_fill_returns_from size fuel : ∀ brd p num,
  wf_board size brd → inside size p = true → 1 <= num →
  (zeros size (upd brd p num) < fuel)%nat →
  ∃ brd' q, wandorf_fill size fuel brd p.1 p.2 num = (brd', Ret q) ∧
    wf_board size brd' ∧ inside size q = true ∧
    List.filter (λ f, cell brd' f =? 0) (get_accessible_fields size q.1 q.2) = [].
Proof.
  induction fuel as [|fuel IH]; intros brd p num Hwf Hp Hnum Hfuel; [lia|].
  rewrite wandorf_fill_unfold by done.
  pose proof (wf_upd size brd p num Hwf) as Hwf1.
  destruct (List.filter _ _) as [|j js] eqn:Hjumps.
  { eexists _, _. done. }
  pose proof (best_jump_first_min size (upd brd p num) (j :: js) ltac:(done)) as Hfm.
  apply first_min_elem in Hfm. rewrite <- Hjumps in Hfm at 2.
  apply list_elem_of_In, filter_In in Hfm as [Hin Hz]. apply list_elem_of_In in Hin.
  cbv zeta. set (best := foldl _ _ _) in *.
  pose proof (accessible_inside _ _ _ _ Hin) as Hbi.
  apply IH; [done|done|lia|].
  pose proof (zeros_upd_lt size (upd brd p num) best.2 (num + 1) Hwf1 Hbi).
  lia.
Qed.

(** ** [solve]: the start square *)

Lemma py_get_out_of_range {A} (l : list A) (i : Z) :
  i < - Z.of_nat (length l) ∨ Z.of_nat (length l) <= i →
  py_get l i = Raise IndexError.
Proof.
  intros Hi. unfold py_get, py_norm.
  destruct (Z.ltb_spec i 0);
    destruct (Z.leb_spec 0 (i + Z.of_nat (length l)));
    destruct (Z.leb_spec 0 i);
    destruct (Z.ltb_spec (i + Z.of_nat (length l)) (Z.of_nat (length l)));
    destruct (Z.ltb_spec i (Z.of_nat (length l))); simpl; try done; lia.
Qed.

Lemma py_set_out_of_range {A} (l : list A) (i : Z) (x : A) :
  i < - Z.of_nat (length l) ∨ Z.of_nat (length l) <= i →
  py_set l i x = Raise IndexError.
Proof.
  intros Hi. unfold py_set, py_norm.
  destruct (Z.ltb_spec i 0);
    destruct (Z.leb_spec 0 (i + Z.of_nat (length l)));
    destruct (Z.leb_spec 0 i);
    destruct (Z.ltb_spec (i + Z.of_nat (length l)) (Z.of_nat (length l)));
    destruct (Z.ltb_spec i (Z.of_nat (length l))); simpl; try done; lia.
Qed.

Lemma py_get_elem {A} (l : list A) (i : Z) (x : A) : py_get l i = Ret x → x ∈ l.
Proof.
  unfold py_get. destruct (_ && _); [|done].
  destruct (l !! _) as [y|] eqn:Hy; [|done].
  intros [= <-]. by eapply list_elem_of_lookup_2.
Qed.

Lemma setitem2_out_of_range size brd r c v :
  wf_board size brd →
  r < - size ∨ size <= r ∨ c < - size ∨ size <= c →
  setitem2 brd r c v = Raise IndexError.
Proof.
  intros [Hlen Hrows] Hout. unfold setitem2.
  destruct (py_get brd r) as [row|e|] eqn:Hrow; simpl.
  - rewrite Forall_forall in Hrows.
    pose proof (Hrows row (py_get_elem _ _ _ Hrow)) as Hlrow.
    assert (Hr : - Z.of_nat (length brd) <= r < Z.of_nat (length brd)).
    { destruct (decide (r < - Z.of_nat (length brd) ∨ Z.of_nat (length brd) <= r))
        as [Hr|Hr]; [|lia].
      by rewrite py_get_out_of_range in Hrow. }
    rewrite py_set_out_of_range; [done|]. lia.
  - revert Hrow. unfold py_get. destruct (_ && _); [|by intros [= <-]].
    destruct (brd !! _); [done|by intros [= <-]].
  - revert Hrow. unfold py_get. destruct (_ && _); [|done].
    by destruct (brd !! _).
Qed.

(** ** [solve]: the result *)

Lemma solve_loop_result size clock gens : ∀ fuel boards rc i res,
  solve_loop size clock gens fuel boards rc i = Ret res →
  ∃ b reroutes (j : nat),
    res = result_dict b (Z.of_nat j) reroutes (clock (S j) - clock 0%nat).
Proof.
  induction gens as [|gens IH]; intros fuel boards rc i res; simpl; [done|].
  intros H. inv_bind H. destruct a as [b rc'|reroutes rc'|reroutes rc'].
  - injection H as <-. by exists b, rc', (S i).
  - by eapply IH.
  - by eapply IH.
Qed.

Lemma solve_result size clock fuel brd r c res :
  (solve size clock fuel brd r c).2 = Ret res →
  ∃ b reroutes (j : nat),
    res = result_dict b (Z.of_nat j) reroutes (clock (S j) - clock 0%nat).
Proof.
  unfold solve. simpl. intros H. inv_bind H. inv_bind H. inv_bind H.
  destruct a1.
  - injection H as <-. by exists (wandorf_fill size fuel brd r c 1).1, 0, 0%nat.
  - by eapply solve_loop_result.
Qed.

Lemma result_dict_lookup b i n t :
  result_dict b i n t !! "board" = Some (PyBoard b) ∧
  result_dict b i n t !! "iterations" = Some (PyInt i) ∧
  result_dict b i n t !! "reroutes" = Some (PyInt n) ∧
  result_dict b i n t !! "time" = Some (PyFloat t) ∧
  result_dict b i n t !! "success" = None.
Proof. done. Qed.

(** A run is known to return once its four entries are known (they can
    be computed without normalising the whole dict). *)
Lemma solve_returns_by_fields size clock fuel brd r c b i n t :
  ((solve size clock fuel brd r c).2 ≫= λ res,
     Ret (res !! "board", res !! "iterations", res !! "reroutes", res !! "time"))
  = Ret (Some (PyBoard b), Some (PyInt i), Some (PyInt n), Some (PyFloat t)) →
  (solve size clock fuel brd r c).2 = Ret (result_dict b i n t).
Proof.
  intros H. inv_bind H.
  destruct (solve_result _ _ _ _ _ _ _ Ha) as (b' & n' & j & ->).
  destruct (result_dict_lookup b' (Z.of_nat j) n' (clock (S j) - clock 0%nat))
    as (Hb & Hi & Hn & Ht & _).
  rewrite Hb, Hi, Hn, Ht in H. injection H as Hb' Hi' Hn' Ht'.
  by rewrite <- Hb', <- Hi', <- Hn', <- Ht'.
Qed.

(** ** A larger budget changes no outcome but [Timeout] *)

Lemma le_o_refl {A} (o : outcome A) : le_o o o.
Proof. by right. Qed.

Lemma le_o_bind {A B} (m m' : outcome A) (f f' : A → outcome B) :
  le_o m m' → (∀ a, m = Ret a → le_o (f a) (f' a)) → le_o (m ≫= f) (m' ≫= f').
Proof.
  intros [->|<-] Hf; [by left|].
  destruct m as [a| |]; [by apply Hf|by right|by left].
Qed.

Lemma le_o_bind_same {A B} (m : outcome A) (f f' : A → outcome B) :
  (∀ a, m = Ret a → le_o (f a) (f' a)) → le_o (m ≫= f) (m ≫= f').
Proof. apply le_o_bind, le_o_refl. Qed.

Section Budget.
Variable size : Z.

Lemma spl_loop_mono fuel : ∀ fuel' (checked : gset pos) target d,
  (fuel <= fuel')%nat →
  le_o (spl_loop size fuel checked target d) (spl_loop size fuel' checked target d).
Proof.
  induction fuel as [|fuel IH]; intros fuel' checked target d Hle; [by left|].
  destruct fuel' as [|fuel']; [lia|]. simpl.
  destruct (decide (target ∈ checked)); [by right|]. apply IH. lia.
Qed.

Lemma verify_loop_mono fuel : ∀ fuel' brd m p i,
  (fuel <= fuel')%nat →
  le_o (verify_loop size fuel brd m p i) (verify_loop size fuel' brd m p i).
Proof.
  induction fuel as [|fuel IH]; intros fuel' brd m p i Hle; [by left|].
  destruct fuel' as [|fuel']; [lia|]. simpl.
  apply le_o_bind_same. intros x _. apply le_o_bind_same. intros y _.
  destruct (x <? y); [|by right].
  apply le_o_bind_same. intros nxt _. apply le_o_bind_same. intros q _.
  apply le_o_bind_same. intros z _.
  destruct (negb _); [by right|]. apply IH. lia.
Qed.

Lemma verify_mono fuel fuel' brd :
  (fuel <= fuel')%nat → le_o (verify size fuel brd) (verify size fuel' brd).
Proof.
  intros Hle. unfold verify.
  apply le_o_bind_same. intros one _. apply le_o_bind_same. intros p _.
  apply le_o_bind_same. intros m _. by apply verify_loop_mono.
Qed.

Lemma rank_loop_mono fuel fuel' last fields : ∀ min_d,
  (fuel <= fuel')%nat →
  le_o (rank_loop size fuel last fields min_d)
       (rank_loop size fuel' last fields min_d).
Proof.
  induction fields as [|f fs IH]; intros min_d Hle; [by right|]. simpl.
  apply le_o_bind; [by apply spl_loop_mono|]. intros d _. by apply IH.
Qed.

Lemma get_rank_mono fuel fuel' brd last :
  (fuel <= fuel')%nat →
  le_o (get_rank size fuel brd last) (get_rank size fuel' brd last).
Proof.
  intros Hle. unfold get_rank.
  apply le_o_bind_same. intros l _. apply le_o_bind_same. intros fs _.
  by apply rank_loop_mono.
Qed.

Lemma reroute_step_mono fuel fuel' brd last e :
  (fuel <= fuel')%nat →
  le_o (reroute_step size fuel brd last e) (reroute_step size fuel' brd last e).
Proof.
  intros Hle. unfold reroute_step. destruct (decide _); [by right|].
  apply le_o_bind_same. intros be _.
  apply le_o_bind; [by apply get_rank_mono|]. intros rk _. by right.
Qed.

Lemma wandorf_fill_mono fuel : ∀ fuel' brd r c num,
  (fuel <= fuel')%nat →
  le_p (wandorf_fill size fuel brd r c num) (wandorf_fill size fuel' brd r c num).
Proof.
  induction fuel as [|fuel IH]; intros fuel' brd r c num Hle; [by left|].
  destruct fuel' as [|fuel']; [lia|]. simpl.
  destruct (setitem2 brd r c num) as [brd1|e|]; [|by right..].
  destruct (get_possible_jumps size brd1 r c) as [[|j js]|e|]; [by right| |by right..].
  destruct (best_of size brd1 (j :: js) (9, (0, 0))) as [best|e|]; [|by right..].
  apply IH. lia.
Qed.

Lemma scan_ends_mono fuel fuel' brd last ends : ∀ reroutes rc,
  (fuel <= fuel')%nat →
  le_o (scan_ends size fuel brd last ends reroutes rc)
       (scan_ends size fuel' brd last ends reroutes rc).
Proof.
  induction ends as [|e es IH]; intros reroutes rc Hle; [by right|]. simpl.
  apply le_o_bind; [by apply reroute_step_mono|].
  intros [[[b e'] rk]|] _; [|by apply IH].
  assert (Hfill : le_o
    (num ← getitem2 b e'.1 e'.2;
     let filled := wandorf_fill size fuel b e'.1 e'.2 num in
     deg1_last ← filled.2;
     x ← getitem2 filled.1 deg1_last.1 deg1_last.2;
     if x =? size ^ 2 then Ret (Solved filled.1 (rc + 1))
     else Ret (Stuck reroutes (rc + 1)))
    (num ← getitem2 b e'.1 e'.2;
     let filled := wandorf_fill size fuel' b e'.1 e'.2 num in
     deg1_last ← filled.2;
     x ← getitem2 filled.1 deg1_last.1 deg1_last.2;
     if x =? size ^ 2 then Ret (Solved filled.1 (rc + 1))
     else Ret (Stuck reroutes (rc + 1)))).
  { apply le_o_bind_same. intros num _. cbv zeta.
    destruct (wandorf_fill_mono fuel fuel' b e'.1 e'.2 num Hle) as [Ht| ->].
    - left. by rewrite Ht.
    - by right. }
  destruct rk as [d|]; [|by apply IH].
  destruct d as [|d|d]; [by apply IH| |by apply IH].
  destruct d; [by apply IH..|exact Hfill].
Qed.

Lemma scan_trials_mono fuel fuel' boards : ∀ reroutes rc,
  (fuel <= fuel')%nat →
  le_o (scan_trials size fuel boards reroutes rc)
       (scan_trials size fuel' boards reroutes rc).
Proof.
  induction boards as [|[brd last] rest IH]; intros reroutes rc Hle; [by right|].
  simpl. apply le_o_bind_same. intros ends _.
  apply le_o_bind; [by apply scan_ends_mono|].
  intros [b n|rr n|rr n] _; [by right|by right|by apply IH].
Qed.

Lemma solve_loop_mono clock gens : ∀ gens' fuel fuel' boards rc i,
  (gens <= gens')%nat → (fuel <= fuel')%nat →
  le_o (solve_loop size clock gens fuel boards rc i)
       (solve_loop size clock gens' fuel' boards rc i).
Proof.
  induction gens as [|gens IH]; intros gens' fuel fuel' boards rc i Hg Hf;
    [by left|].
  destruct gens' as [|gens']; [lia|]. simpl.
  apply le_o_bind; [by apply scan_trials_mono|].
  intros [b n|rr n|rr n] _; [by right|apply IH; lia..].
Qed.

Lemma solve_mono clock fuel fuel' brd r c :
  (fuel <= fuel')%nat →
  le_p (solve size clock fuel brd r c) (solve size clock fuel' brd r c).
Proof.
  intros Hle. unfold solve.
  destruct (wandorf_fill_mono fuel fuel' brd r c 1 Hle) as [Ht|Heq].
  { left. simpl. by rewrite Ht. }
  rewrite <- Heq. cbv zeta.
  set (filled := wandorf_fill size fuel brd r c 1).
  assert (Hrest : le_o
    (filled.2 ≫= λ las, getitem2 filled.1 las.1 las.2 ≫= λ x,
       (if x =? size ^ 2 then verify size fuel filled.1 else Ret false) ≫=
       λ ok : bool, if ok then
         Ret (result_dict filled.1 0 0 (clock 1%nat - clock 0%nat))
       else solve_loop size clock fuel fuel [(filled.1, las)] 0 0)
    (filled.2 ≫= λ las, getitem2 filled.1 las.1 las.2 ≫= λ x,
       (if x =? size ^ 2 then verify size fuel' filled.1 else Ret false) ≫=
       λ ok : bool, if ok then
         Ret (result_dict filled.1 0 0 (clock 1%nat - clock 0%nat))
       else solve_loop size clock fuel' fuel' [(filled.1, las)] 0 0)).
  { apply le_o_bind_same. intros las _. apply le_o_bind_same. intros x _.
    apply le_o_bind.
    - destruct (x =? size ^ 2); [by apply verify_mono|by right].
    - intros [|] _; [by right|]. by apply solve_loop_mono. }
  destruct Hrest as [Ht|Heq']; [by left|]. right. simpl. by rewrite Heq'.
Qed.

End Budget.

(** ** The clock only shows in the 'time' entry *)

Lemma solve_loop_clock size clock clock' gens : ∀ fuel boards rc i,
  same_run (solve_loop size clock gens fuel boards rc i)
           (solve_loop size clock' gens fuel boards rc i).
Proof.
  induction gens as [|gens IH]; intros fuel boards rc i; simpl; [done|].
  destruct (scan_trials size fuel boards [] rc) as [[b n|rr n|rr n]|e|]; simpl;
    [|apply IH|apply IH|done|done].
  by exists b, (Z.of_nat (S i)), n, (clock (S (S i)) - clock 0%nat),
    (clock' (S (S i)) - clock' 0%nat).
Qed.

Lemma solve_clock size clock clock' fuel brd r c :
  (solve size clock fuel brd r c).1 = (solve size clock' fuel brd r c).1 ∧
  same_run (solve size clock fuel brd r c).2 (solve size clock' fuel brd r c).2.
Proof.
  unfold solve. simpl. split; [done|].
  destruct (wandorf_fill size fuel brd r c 1) as [board1 [las|e|]]; simpl;
    [|done|done].
  destruct (getitem2 board1 las.1 las.2) as [x|e|]; simpl; [|done|done].
  destruct (if x =? size ^ 2 then verify size fuel board1 else Ret false)
    as [[|]|e|]; simpl; [|apply solve_loop_clock|done|done].
  by exists board1, 0, 0, (clock 1%nat - clock 0%nat), (clock' 1%nat - clock' 0%nat).
Qed.

Lemma solve_agree size clock clock' fuel fuel' brd r c res res' :
  (solve size clock fuel brd r c).2 = Ret res →
  (solve size clock' fuel' brd r c).2 = Ret res' →
  (solve size clock fuel brd r c).1 = (solve size clock' fuel' brd r c).1 ∧
  ∃ b i n t t', res = result_dict b i n t ∧ res' = result_dict b i n t'.
Proof.
  intros Hres Hres'.
  destruct (solve_mono size clock fuel (fuel `max` fuel') brd r c ltac:(lia))
    as [Ht|Heq]; [congruence|].
  destruct (solve_mono size clock' fuel' (fuel `max` fuel') brd r c ltac:(lia))
    as [Ht|Heq']; [congruence|].
  destruct (solve_clock size clock clock' (fuel `max` fuel') brd r c) as [Hb Hsame].
  rewrite <- Heq, <- Heq' in Hb, Hsame. split; [done|].
  by rewrite Hres, Hres' in Hsame.
Qed.

(** ** [verify] *)

(** The test [brd[r][c] != i] of the loop never fires: the cell that
    [get_next] returns holds the successor by construction. *)
Lemma verify_loop_never_false size fuel : ∀ brd m p i,
  getitem2 brd p.1 p.2 = Ret (i - 1) →
  verify_loop size fuel brd m p i ≠ Ret false.
Proof.
  induction fuel as [|fuel IH]; intros brd m p i Hp; simpl; [done|].
  rewrite Hp, bind_Ret.
  destruct (getitem2 brd m.1 m.2) as [y|e|]; simpl; [|done|done].
  destruct (i - 1 <? y); [|done].
  destruct (get_next size brd p.1 p.2) as [[q|]|e|] eqn:Hnext; simpl; [|done..].
  apply neighbour_scan_some in Hnext as (v & Hv & Hq).
  rewrite Hp in Hv. injection Hv as <-.
  rewrite Hq, bind_Ret. replace (i - 1 + 1) with i by lia.
  rewrite Z.eqb_refl. simpl. apply IH. rewrite Hq. f_equal. lia.
Qed.

(** [verify] never returns [False]: it returns [True], raises, or runs on. *)
Lemma verify_never_false size fuel brd : verify size fuel brd ≠ Ret false.
Proof.
  unfold verify.
  destruct (find size brd 1) as [[p|]|e|] eqn:Hfind; simpl; [|done..].
  destruct (get_max size brd) as [m|e|]; simpl; [|done..].
  apply verify_loop_never_false. by apply find_in_some in Hfind.
Qed.

Lemma verify_loop_tour size brd k m fuel : ∀ p i,
  tour size brd k → inside size m = true → cell brd m = k →
  inside size p = true → cell brd p = i - 1 → 1 <= i - 1 <= k →
  (Z.to_nat (k - (i - 1)) < fuel)%nat →
  verify_loop size fuel brd m p i = Ret true.
Proof.
  intros p i Htour Hm Hcm. revert p i.
  pose proof (tour_wf _ _ _ Htour) as Hwf.
  induction fuel as [|fuel IH]; intros p i Hp Hcp Hi Hfuel; [lia|]. simpl.
  rewrite !(getitem2_inside size) by done. simpl. rewrite Hcp, Hcm.
  destruct (Z.ltb_spec (i - 1) k) as [Hlt|Hge]; [|done].
  destruct (get_next_total size brd k p Htour Hp) as (e & -> & He & Hce); [lia|].
  simpl. rewrite (getitem2_inside size) by done. simpl.
  rewrite Hce, Hcp. replace (i - 1 + 1) with i by lia.
  rewrite Z.eqb_refl. simpl. apply IH; [done|lia|lia|lia].
Qed.

(** On a board that holds 1..k once each along knight's moves, [verify]
    returns [True]. *)
Lemma verify_tour size brd k fuel :
  tour size brd k → 1 <= k → (Z.to_nat k <= fuel)%nat →
  verify size fuel brd = Ret true.
Proof.
  intros Htour Hk Hfuel. pose proof (tour_wf _ _ _ Htour) as Hwf.
  unfold verify, find.
  rewrite (find_in_pure size brd Hwf) by apply all_fields_inside. simpl.
  destruct (tour_all _ _ _ Htour 1) as (p1 & Hp1 & Hc1); [lia|].
  destruct (tour_all _ _ _ Htour k) as (pk & Hpk & Hck); [lia|].
  destruct (List.find _ _) as [p|] eqn:Hfind.
  2:{ pose proof (find_none _ _ Hfind p1) as Hno. simpl in Hno.
      rewrite Hc1 in Hno. discriminate Hno.
      by apply list_elem_of_In, all_fields_spec. }
  apply find_some in Hfind as [Hp Hcp]. simpl.
  apply list_elem_of_In, all_fields_spec in Hp.
  rewrite (get_max_tour size brd k pk) by done. simpl.
  apply (verify_loop_tour size brd k); [done|done|done|done|lia|lia|lia].
Qed.

(** What a [True] of [verify] does tell: from a cell holding 1 a chain
    of knight's moves climbs, one by one, to a cell holding the greatest
    value of the board (so no value is missing; a value may well stand
    twice). *)
Lemma verify_loop_true_climbs size brd m fuel : ∀ p i,
  wf_board size brd → inside size p = true → inside size m = true →
  cell brd p = i - 1 →
  verify_loop size fuel brd m p i = Ret true →
  ∃ q, inside size q = true ∧ climbs brd p q ∧ cell brd m <= cell brd q.
Proof.
  induction fuel as [|fuel IH]; intros p i Hwf Hp Hm Hcp; simpl; [done|].
  rewrite !(getitem2_inside size) by done. simpl.
  destruct (Z.ltb_spec (cell brd p) (cell brd m)) as [Hlt|Hge].
  2:{ intros _. exists p. split; [done|]. split; [constructor|lia]. }
  destruct (get_next size brd p.1 p.2) as [[q|]|e|] eqn:Hnext; simpl; [|done..].
  pose proof Hnext as Hq. apply neighbour_scan_elem in Hq.
  pose proof (accessible_inside _ _ _ _ Hq) as Hqi.
  apply neighbour_scan_some in Hnext as (y & Hy & Hcq).
  rewrite (getitem2_inside size) in Hy, Hcq by done.
  injection Hy as <-. injection Hcq as Hcq. rewrite (getitem2_inside size) by done.
  simpl. destruct (Z.eqb_spec (cell brd q) i) as [Hi|Hi]; [|done]. simpl.
  intros Hrun. destruct (IH q (i + 1) Hwf Hqi Hm ltac:(lia) Hrun)
    as (r & Hr & Hclimb & Hle).
  exists r. split; [done|]. split; [|done].
  apply (climbs_step brd p q r); [|done|done].
  destruct p as [pr pc]. by apply accessible_spec in Hq as [_ Hq].
Qed.

Lemma verify_true_climbs size brd fuel :
  wf_board size brd → verify size fuel brd = Ret true →
  ∃ p q m, inside size p = true ∧ cell brd p = 1 ∧
    get_max size brd = Ret m ∧
    (∀ x, inside size x = true → cell brd x <= cell brd m) ∧
    climbs brd p q ∧ cell brd q = cell brd m.
Proof.
  intros Hwf. unfold verify, find, get_max.
  rewrite (find_in_pure size brd Hwf) by apply all_fields_inside.
  rewrite (max_in_pure size brd Hwf) by apply all_fields_inside. simpl.
  destruct (List.find _ _) as [p|] eqn:Hfind; [|done]. simpl.
  apply find_some in Hfind as [Hp Hcp].
  apply list_elem_of_In in Hp. pose proof Hp as Hpi. apply all_fields_spec in Hpi.
  apply Z.eqb_eq in Hcp.
  destruct (max_fold_spec brd (all_fields size) 0 (0, 0)) as (_ & Hall & Hpos).
  set (r := foldl (max_step brd) (0, (0, 0)) (all_fields size)) in *.
  pose proof (Hall p Hp) as Hge.
  destruct Hpos as [Heq|(Hin & Hc & _)].
  { rewrite Heq in Hge. simpl in Hge. lia. }
  apply all_fields_spec in Hin.
  intros Hrun.
  destruct (verify_loop_true_climbs size brd r.2 fuel p 2 Hwf Hpi Hin ltac:(lia) Hrun)
    as (q & Hq & Hclimb & Hle).
  exists p, q, r.2. split; [done|]. split; [done|]. split; [done|].
  split; [|split; [done|]].
  - intros x Hx%all_fields_spec. rewrite Hc. by apply Hall.
  - pose proof (Hall q ltac:(by apply all_fields_spec)). lia.
Qed.

(** ** [solve] on boards without a tour *)

Lemma scan_ends_skip size fuel brd last ends reroutes rc :
  scan_ends size fuel brd last ends reroutes rc =
  scan_ends size fuel brd last (drop_skipped last ends) reroutes rc.
Proof.
  induction ends as [|e es IH]; [done|]. simpl.
  destruct (decide (e = Some last)) as [Heq|Hne]; [|done].
  simpl. unfold reroute_step. by rewrite decide_True.
Qed.

Lemma drop_skipped_head last ends e post :
  drop_skipped last ends = e :: post → e ≠ Some last.
Proof.
  induction ends as [|e' es IH]; simpl; [done|].
  destruct (decide (e' = Some last)); [done|]. by intros [= <- _].
Qed.

(** An empty generation is never noticed: the loop goes on for ever. *)
Lemma solve_loop_empty size clock gens fuel : ∀ rc i,
  solve_loop size clock gens fuel [] rc i = Timeout.
Proof. induction gens as [|gens IH]; intros rc i; simpl; [done|apply IH]. Qed.

Lemma get_rank_timeout size fuel brd l f fs :
  get_max size brd = Ret l →
  empty_among brd (all_fields size) = Ret (f :: fs) →
  shortest_path_length size fuel l.1 l.2 f.1 f.2 = Timeout →
  get_rank size fuel brd None = Timeout.
Proof.
  intros Hmax Hempty Hspl. unfold get_rank.
  rewrite Hmax, bind_Ret, Hempty, bind_Ret. simpl. by rewrite Hspl.
Qed.

Section Stall.
Variables (size : Z) (clock : nat → Z) (fuel0 : nat).
Variables (brd : board) (r c : Z) (board1 : board) (las : pos) (x : Z).
Hypothesis Hfill : wandorf_fill size fuel0 brd r c 1 = (board1, Ret las).
Hypothesis Hlast : getitem2 board1 las.1 las.2 = Ret x.
Hypothesis Hpart : (x =? size ^ 2) = false.

(** Past the first fill, [solve] is its loop on the one trial. *)
Lemma solve_enters_loop fuel :
  (fuel0 <= fuel)%nat →
  (solve size clock fuel brd r c).2 =
  solve_loop size clock fuel fuel [(board1, las)] 0 0.
Proof using Hfill Hlast Hpart.
  intros Hle. unfold solve.
  destruct (wandorf_fill_mono size fuel0 fuel brd r c 1 Hle) as [Ht|Heq].
  { by rewrite Hfill in Ht. }
  rewrite <- Heq, Hfill. simpl. rewrite Hlast. simpl. by rewrite Hpart.
Qed.

Lemma solve_timeout_from fuel :
  (∀ fuel', (fuel0 <= fuel')%nat →
     solve_loop size clock fuel' fuel' [(board1, las)] 0 0 = Timeout) →
  (solve size clock fuel brd r c).2 = Timeout.
Proof using Hfill Hlast Hpart.
  intros Hloop.
  destruct (solve_mono size clock fuel (fuel `max` fuel0) brd r c ltac:(lia))
    as [Ht|Heq]; [done|].
  rewrite Heq, solve_enters_loop by lia. apply Hloop. lia.
Qed.

(** The first end that is not skipped makes [get_rank] search for a
    square that no walk reaches: [solve] hangs in
    [shortest_path_length]. *)
Lemma solve_stalls ends e post be l f fs :
  possible_ends size board1 las = Ret ends →
  drop_skipped las ends = e :: post →
  reroute_board size board1 las e = Ret be →
  get_max size be.1 = Ret l →
  empty_among be.1 (all_fields size) = Ret (f :: fs) →
  (∀ fuel, shortest_path_length size fuel l.1 l.2 f.1 f.2 = Timeout) →
  ∀ fuel, (solve size clock fuel brd r c).2 = Timeout.
Proof using Hfill Hlast Hpart.
  intros Hends Hdrop Hboard Hmax Hempty Hspl fuel.
  apply solve_timeout_from. intros [|fuel'] _; [done|].
  cbn [solve_loop scan_trials]. rewrite Hends, bind_Ret.
  rewrite scan_ends_skip, Hdrop. cbn [scan_ends].
  unfold reroute_step.
  rewrite decide_False by (by eapply drop_skipped_head).
  rewrite Hboard, bind_Ret.
  by rewrite (get_rank_timeout size (S fuel') be.1 l f fs Hmax Hempty (Hspl _)).
Qed.

(** Every end is skipped: the next generation is empty, and the loop
    spins on it. *)
Lemma solve_starves ends :
  possible_ends size board1 las = Ret ends →
  drop_skipped las ends = [] →
  ∀ fuel, (solve size clock fuel brd r c).2 = Timeout.
Proof using Hfill Hlast Hpart.
  intros Hends Hdrop fuel.
  apply solve_timeout_from. intros [|fuel'] _; [done|].
  cbn [solve_loop scan_trials]. rewrite Hends, bind_Ret.
  rewrite scan_ends_skip, Hdrop. cbn [scan_ends]. rewrite !bind_Ret.
  apply solve_loop_empty.
Qed.

End Stall.

(** On the 3 x 3 board no jump leads to the centre. *)
Lemma spl_loop_centre_3 fuel : ∀ (checked : gset pos) d,
  (∀ p, p ∈ checked → inside 3 p = true ∧ p ≠ (1, 1)) →
  spl_loop 3 fuel checked (1, 1) d = Timeout.
Proof.
  induction fuel as [|fuel IH]; intros checked d Hinv; [done|]. simpl.
  destruct (decide ((1, 1) ∈ checked)) as [Hin|_].
  { by destruct (Hinv _ Hin). }
  apply IH. intros q (p & Hp & Hq)%elem_of_expand.
  destruct (Hinv p Hp) as [Hpi _].
  apply accessible_spec in Hq as [Hqi Hm]. split; [done|].
  intros ->. apply inside_spec in Hpi. unfold knight_move in Hm. simpl in Hm. lia.
Qed.

Lemma spl_centre_3 l fuel :
  inside 3 l = true → l ≠ (1, 1) →
  shortest_path_length 3 fuel l.1 l.2 1 1 = Timeout.
Proof.
  intros Hl Hne. apply spl_loop_centre_3.
  intros p ->%elem_of_singleton. by destruct l.
Qed.

(** ** Fresh boards and the growth of a path *)

Lemma blocked_filter size brd p :
  List.filter (λ f, cell brd f =? 0) (get_accessible_fields size p.1 p.2) = [] ↔
  blocked size brd p.
Proof.
  unfold blocked. split.
  - intros Hnil f Hf Hz.
    assert (Hin : In f (List.filter (λ f, cell brd f =? 0)
                          (get_accessible_fields size p.1 p.2))).
    { apply filter_In. split; [by apply list_elem_of_In|lia]. }
    by rewrite Hnil in Hin.
  - intros Hb. destruct (List.filter _ _) as [|f fs] eqn:Hf; [done|].
    assert (Hin : In f (f :: fs)) by (by left). rewrite <- Hf in Hin.
    apply filter_In in Hin as [Hin Hz]. apply list_elem_of_In in Hin.
    destruct (Hb f Hin). lia.
Qed.

Lemma wf_empty_board size : wf_board size (create_empty_board size).
Proof.
  unfold create_empty_board. split; [by rewrite length_replicate|].
  apply Forall_forall. intros row Hrow%elem_of_replicate.
  destruct Hrow as [-> _]. by rewrite length_replicate.
Qed.

Lemma cell_empty_board size p : cell (create_empty_board size) p = 0.
Proof.
  unfold cell, create_empty_board.
  destruct (replicate _ _ !! Z.to_nat p.1) as [row|] eqn:Hrow; [|done].
  apply lookup_replicate in Hrow as [-> _]. simpl.
  destruct (replicate _ _ !! Z.to_nat p.2) as [x|] eqn:Hx; [|done].
  by apply lookup_replicate in Hx as [-> _].
Qed.

Lemma tour_empty size : tour size (create_empty_board size) 0.
Proof.
  split.
  - apply wf_empty_board.
  - intros p _. rewrite cell_empty_board. lia.
  - intros i Hi. lia.
  - intros p q _ _ Hnz. by rewrite cell_empty_board in Hnz.
  - intros p q _ _ Hpos. rewrite cell_empty_board in Hpos. lia.
Qed.

Lemma tour_ext size b b' k :
  tour size b k → wf_board size b' →
  (∀ q, inside size q = true → cell b' q = cell b q) →
  tour size b' k.
Proof.
  intros Ht Hwf Heq. split.
  - done.
  - intros p Hp. rewrite Heq by done. by apply (tour_range _ _ _ Ht).
  - intros i Hi. destruct (tour_all _ _ _ Ht i Hi) as (p & Hp & Hc).
    exists p. split; [done|]. by rewrite Heq.
  - intros p q Hp Hq. rewrite !Heq by done. by apply (tour_once _ _ _ Ht).
  - intros p q Hp Hq. rewrite !Heq by done. by apply (tour_adj _ _ _ Ht).
Qed.

(** Writing k + 1 into an empty field accessible from the cell that
    holds k extends the path by one square. *)
Lemma tour_extend size b k p j :
  tour size b k → 0 <= k →
  (k = 0 ∨ (inside size p = true ∧ cell b p = k ∧
            j ∈ get_accessible_fields size p.1 p.2)) →
  inside size j = true → cell b j = 0 →
  tour size (upd b j (k + 1)) (k + 1).
Proof.
  intros Ht Hk Hprev Hj Hz. pose proof (tour_wf _ _ _ Ht) as Hwf.
  assert (Hcell : ∀ q, inside size q = true →
    cell (upd b j (k + 1)) q = if decide (j = q) then k + 1 else cell b q).
  { intros q Hq. by apply (cell_upd size). }
  split.
  - by apply wf_upd.
  - intros q Hq. rewrite Hcell by done. pose proof (tour_range _ _ _ Ht q Hq).
    destruct (decide (j = q)); lia.
  - intros i Hi. destruct (decide (i = k + 1)) as [->|Hne].
    + exists j. split; [done|]. rewrite Hcell by done. by rewrite decide_True.
    + destruct (tour_all _ _ _ Ht i) as (q & Hq & Hc); [lia|].
      exists q. split; [done|]. rewrite Hcell by done.
      destruct (decide (j = q)) as [<-|]; [lia|done].
  - intros q1 q2 Hq1 Hq2. rewrite !Hcell by done.
    pose proof (tour_range _ _ _ Ht q1 Hq1). pose proof (tour_range _ _ _ Ht q2 Hq2).
    destruct (decide (j = q1)) as [<-|], (decide (j = q2)) as [<-|]; try done; try lia.
    by apply (tour_once _ _ _ Ht).
  - intros q1 q2 Hq1 Hq2. rewrite !Hcell by done.
    pose proof (tour_range _ _ _ Ht q1 Hq1). pose proof (tour_range _ _ _ Ht q2 Hq2).
    destruct (decide (j = q1)) as [<-|], (decide (j = q2)) as [<-|]; try lia.
    + intros Hpos Hsucc. destruct Hprev as [->|(Hp & Hcp & Hacc)]; [lia|].
      assert (q1 = p) as ->.
      { apply (tour_once _ _ _ Ht); [done|done|lia|lia]. }
      destruct p. by apply accessible_spec in Hacc as [_ Hacc].
    + by apply (tour_adj _ _ _ Ht).
Qed.

Lemma tour_unique_k size b k k' :
  tour size b k → tour size b k' → 0 <= k → 0 <= k' → k = k'.
Proof.
  intros Ht Ht' Hk Hk'.
  destruct (Z.lt_trichotomy k k') as [Hlt|[->|Hlt]]; [|done|].
  - destruct (tour_all _ _ _ Ht' k') as (p & Hp & Hc); [lia|].
    pose proof (tour_range _ _ _ Ht p Hp). lia.
  - destruct (tour_all _ _ _ Ht k) as (p & Hp & Hc); [lia|].
    pose proof (tour_range _ _ _ Ht' p Hp). lia.
Qed.

(** [wandorf_fill] keeps the invariant: started where its first write
    makes a path of [num] squares, it returns a path that ends, blocked,
    in the returned cell. *)
Lemma wandorf_fill_tour size fuel : ∀ brd p num brd' q,
  wf_board size brd → inside size p = true → 1 <= num →
  tour size (upd brd p num) num →
  wandorf_fill size fuel brd p.1 p.2 num = (brd', Ret q) →
  ∃ k', num <= k' ∧ tour size brd' k' ∧ inside size q = true ∧
        cell brd' q = k' ∧ blocked size brd' q.
Proof.
  induction fuel as [|fuel IH]; intros brd p num brd' q Hwf Hp Hnum Ht; [done|].
  rewrite wandorf_fill_unfold by done. cbv zeta.
  pose proof (wf_upd size brd p num Hwf) as Hwf1.
  destruct (List.filter _ _) as [|j js] eqn:Hjumps.
  { intros [= <- <-]. exists num. split; [lia|]. split; [done|]. split; [done|].
    split; [by apply (cell_upd_eq size)|]. by apply blocked_filter. }
  pose proof (best_jump_first_min size (upd brd p num) (j :: js) ltac:(done)) as Hfm.
  apply first_min_elem in Hfm. rewrite <- Hjumps in Hfm at 2.
  apply list_elem_of_In, filter_In in Hfm as [Hin Hz]. apply list_elem_of_In in Hin.
  set (best := foldl _ _ _) in *.
  pose proof (accessible_inside _ _ _ _ Hin) as Hbi.
  intros Hrun.
  destruct (IH (upd brd p num) best.2 (num + 1) brd' q Hwf1 Hbi ltac:(lia))
    as (k' & Hk' & Hrest); [|done|].
  - apply (tour_extend size _ num p); [done|lia| |done|lia].
    right. split; [done|]. split; [by apply (cell_upd_eq size)|done].
  - exists k'. split; [lia|done].
Qed.

Lemma wandorf_fill_no_raise size fuel : ∀ brd p num e,
  wf_board size brd → inside size p = true →
  (wandorf_fill size fuel brd p.1 p.2 num).2 ≠ Raise e.
Proof.
  induction fuel as [|fuel IH]; intros brd p num e Hwf Hp; [done|].
  rewrite wandorf_fill_unfold by done. cbv zeta.
  pose proof (wf_upd size brd p num Hwf) as Hwf1.
  destruct (List.filter _ _) as [|j js] eqn:Hjumps; [done|].
  pose proof (best_jump_first_min size (upd brd p num) (j :: js) ltac:(done)) as Hfm.
  apply first_min_elem in Hfm. rewrite <- Hjumps in Hfm at 2.
  apply list_elem_of_In, filter_In in Hfm as [Hin Hz]. apply list_elem_of_In in Hin.
  apply IH; [done|]. by eapply accessible_inside.
Qed.

(** ** Walks and distances *)

Lemma reach_hops size j a b : reach size j a b ↔ hops size j a b.
Proof.
  revert b. induction j as [|j IH]; intros b.
  - rewrite reach_0. split; [intros ->; constructor|by inversion 1].
  - rewrite reach_S_r. split.
    + intros (c & Hr & Hb). destruct c as [cr cc].
      apply accessible_spec in Hb as [Hb Hm].
      apply (hops_S size j a (cr, cc) b); [by apply IH|done|done].
    + inversion 1 as [|? ? c ? Hh Hm Hb]; subst. exists c. split; [by apply IH|].
      destruct c. by apply accessible_spec.
Qed.

Lemma hops_trans size j1 j2 a b c :
  hops size j1 a b → hops size j2 b c → hops size (j1 + j2) a c.
Proof.
  intros H1 H2. revert c H2. induction j2 as [|j2 IH]; intros c H2.
  - inversion H2; subst. by rewrite Nat.add_0_r.
  - inversion H2 as [|? ? c' ? Hh Hm Hc]; subst.
    rewrite Nat.add_succ_r. apply (hops_S size _ a c' c); [by apply IH|done|done].
Qed.

Lemma spl_loop_no_raise (size : Z) (fuel : nat) (checked : gset (Z * Z)) (target : Z * Z)
    (d : Z) e :
  spl_loop size fuel checked target d ≠ Raise e.
Proof.
  revert checked d. induction fuel as [|fuel IH]; intros checked d; simpl; [done|].
  destruct (decide (target ∈ checked)); [done|apply IH].
Qed.

(** A walk of [j] jumps makes the search return within [j + 1] turns. *)
Lemma spl_loop_reached (size : Z) (fuel : nat) : ∀ (checked : gset (Z * Z)) target d (j : nat),
  target ∈ Nat.iter j (expand size) checked → (j < fuel)%nat →
  ∃ r, spl_loop size fuel checked target d = Ret r ∧ r <= d + Z.of_nat j.
Proof.
  induction fuel as [|fuel IH]; intros checked target d j Hin Hj; [lia|]. simpl.
  destruct (decide (target ∈ checked)) as [|Hout]; [exists d; split; [done|lia]|].
  destruct j as [|j]; [done|].
  rewrite <- iter_expand_shift in Hin.
  destruct (IH (expand size checked) target (d + 1) j Hin ltac:(lia)) as (r & -> & Hr).
  exists r. split; [done|lia].
Qed.

Lemma spl_reached size fuel a b (j : nat) :
  hops size j a b → (j < fuel)%nat →
  ∃ r, shortest_path_length size fuel a.1 a.2 b.1 b.2 = Ret r ∧ r <= Z.of_nat j.
Proof.
  intros Hh%reach_hops Hj. unfold shortest_path_length.
  destruct (spl_loop_reached size fuel {[ (a.1, a.2) ]} (b.1, b.2) 0 j) as (r & Hr & Hle);
    [by destruct a, b|done|].
  exists r. split; [done|lia].
Qed.

(** ** Ranks *)

Lemma rank_le_refl a : rank_le a a.
Proof. destruct a; unfold rank_le; [apply Z.le_refl|exact I]. Qed.

Lemma rank_le_trans a b c : rank_le a b → rank_le b c → rank_le a c.
Proof. destruct a, b, c; unfold rank_le; try done; lia. Qed.

Lemma rank_min_spec d acc :
  rank_le (rank_min d acc) acc ∧ rank_le (rank_min d acc) (Finite d) ∧
  (rank_min d acc = acc ∨ rank_min d acc = Finite d).
Proof.
  destruct acc as [m|]; unfold rank_le; simpl.
  - split; [lia|]. split; [lia|].
    destruct (Z.min_spec d m) as [[_ ->]|[Hle ->]]; [by right|by left].
  - split; [done|]. split; [lia|by right].
Qed.

(** [rank_loop] returns the least of [min_d] and the distances to the
    fields. *)
Lemma rank_loop_spec size fuel last fields : ∀ acc rk,
  rank_loop size fuel last fields acc = Ret rk →
  (∀ f, f ∈ fields →
     ∃ d, shortest_path_length size fuel last.1 last.2 f.1 f.2 = Ret d ∧
          rank_le rk (Finite d)) ∧
  rank_le rk acc ∧
  (rk = acc ∨
   ∃ f d, f ∈ fields ∧
     shortest_path_length size fuel last.1 last.2 f.1 f.2 = Ret d ∧ rk = Finite d).
Proof.
  induction fields as [|f fs IH]; intros acc rk; simpl.
  { intros [= <-]. split; [by intros f ?%elem_of_nil|].
    split; [apply rank_le_refl|by left]. }
  intros H. apply bind_returns in H as (d & Hd & H).
  destruct (IH _ _ H) as (Hall & Hle & Hwit).
  destruct (rank_min_spec d acc) as (Hm1 & Hm2 & Hm3).
  split; [|split].
  - intros g [->|Hg]%elem_of_cons.
    + exists d. split; [done|]. by eapply rank_le_trans.
    + by apply Hall.
  - by eapply rank_le_trans.
  - destruct Hwit as [->|(g & dg & Hg & Hdg & ->)].
    + destruct Hm3 as [->| ->]; [by left|].
      right. exists f, d. split; [left|done].
    + right. exists g, dg. split; [by right|done].
Qed.

Lemma rank_loop_no_raise size fuel last fields : ∀ acc e,
  rank_loop size fuel last fields acc ≠ Raise e.
Proof.
  induction fields as [|f fs IH]; intros acc e; simpl; [done|].
  destruct (shortest_path_length _ _ _ _ _ _) as [d|e'|] eqn:Hd; simpl;
    [apply IH| |done].
  by apply spl_loop_no_raise in Hd.
Qed.

Lemma get_rank_pure size fuel brd last :
  wf_board size brd →
  get_rank size fuel brd (Some last) =
  rank_loop size fuel last
    (List.filter (λ f, cell brd f =? 0) (all_fields size)) Inf.
Proof.
  intros Hwf. unfold get_rank. simpl.
  by rewrite (empty_among_pure size brd Hwf) by apply all_fields_inside.
Qed.

Lemma get_rank_default size fuel brd l :
  get_max size brd = Ret l →
  get_rank size fuel brd None = get_rank size fuel brd (Some l).
Proof. intros Hmax. unfold get_rank. by rewrite Hmax. Qed.

Lemma get_max_returns size brd :
  wf_board size brd → ∃ m, get_max size brd = Ret m.
Proof.
  intros Hwf. unfold get_max.
  rewrite (max_in_pure size brd Hwf) by apply all_fields_inside. by eexists.
Qed.

Lemma get_rank_no_raise size fuel brd last e :
  wf_board size brd → get_rank size fuel brd last ≠ Raise e.
Proof.
  intros Hwf. destruct last as [l|].
  - rewrite get_rank_pure by done. apply rank_loop_no_raise.
  - destruct (get_max_returns size brd Hwf) as [m Hm].
    rewrite (get_rank_default _ _ _ _ Hm), get_rank_pure by done.
    apply rank_loop_no_raise.
Qed.

Lemma empty_field_elem size brd f :
  f ∈ List.filter (λ f, cell brd f =? 0) (all_fields size) ↔
  inside size f = true ∧ cell brd f = 0.
Proof.
  by rewrite list_elem_of_In, filter_In, <- list_elem_of_In, all_fields_spec,
    Z.eqb_eq.
Qed.

(** What a rank says: [inf] when no cell is empty, otherwise the least
    number of jumps from [last] to an empty cell. *)
Lemma get_rank_spec size fuel brd last rk :
  wf_board size brd →
  get_rank size fuel brd (Some last) = Ret rk →
  (rk = Inf ↔ ∀ p, inside size p = true → cell brd p ≠ 0) ∧
  (∀ d, rk = Finite d →
     ∃ (j : nat) f, d = Z.of_nat j ∧ inside size f = true ∧ cell brd f = 0 ∧
       hops size j last f ∧
       ∀ (i : nat) f', inside size f' = true → cell brd f' = 0 →
         hops size i last f' → (j <= i)%nat).
Proof.
  intros Hwf. rewrite get_rank_pure by done. intros Hrun.
  destruct (rank_loop_spec _ _ _ _ _ _ Hrun) as (Hall & _ & Hwit).
  assert (Hleast : ∀ d, rk = Finite d →
     ∃ (j : nat) f, d = Z.of_nat j ∧ inside size f = true ∧ cell brd f = 0 ∧
       hops size j last f ∧
       ∀ (i : nat) f', inside size f' = true → cell brd f' = 0 →
         hops size i last f' → (j <= i)%nat).
  { intros d ->. destruct Hwit as [|(f & d' & Hf & Hd & [= ->])]; [done|].
    apply empty_field_elem in Hf as [Hfi Hfz].
    apply spl_returns in Hd as (j & Hj & -> & Hr & Hmin).
    exists j, f. split; [done|]. split; [done|]. split; [done|].
    split; [by apply reach_hops|].
    intros i f' Hfi' Hfz' Hh.
    destruct (Hall f') as (d'' & Hd'' & Hle); [by apply empty_field_elem|].
    apply spl_returns in Hd'' as (j' & Hj' & -> & Hr' & Hmin').
    simpl in Hle. apply reach_hops in Hh.
    destruct (decide (i < j')%nat) as [Hlt|]; [by destruct (Hmin' i Hlt)|lia]. }
  split; [|done]. split.
  - intros -> p Hp Hz. destruct (Hall p) as (d & _ & Hle); [by apply empty_field_elem|].
    done.
  - intros Hfull. destruct Hwit as [|(f & d & Hf & _)]; [done|].
    apply empty_field_elem in Hf as [Hfi Hfz]. by destruct (Hfull f Hfi).
Qed.

(** A rank other than 1 at a filled cell: the knight is blocked there. *)
Lemma rank_blocked size fuel brd last rk :
  wf_board size brd → get_rank size fuel brd (Some last) = Ret rk →
  cell brd last ≠ 0 → rk ≠ Finite 1 → blocked size brd last.
Proof.
  intros Hwf Hrun Hlast Hrk f Hf Hz.
  destruct (get_rank_spec _ _ _ _ _ Hwf Hrun) as (Hinf & Hfin).
  pose proof (accessible_inside _ _ _ _ Hf) as Hfi.
  destruct rk as [d|].
  2:{ by destruct (proj1 Hinf eq_refl f Hfi). }
  destruct (Hfin d eq_refl) as (j & g & -> & Hgi & Hgz & Hh & Hmin).
  assert (H1 : hops size 1 last f).
  { apply (hops_S size 0 last last f); [constructor| |done].
    destruct last. by apply accessible_spec in Hf as [_ Hf]. }
  pose proof (Hmin 1%nat f Hfi Hz H1) as Hle.
  destruct j as [|[|j]]; [|done|lia].
  inversion Hh; subst. done.
Qed.

(** A rank of 1: an empty field is accessible. *)
Lemma rank_one_open size fuel brd last :
  wf_board size brd → get_rank size fuel brd (Some last) = Ret (Finite 1) →
  ¬ blocked size brd last.
Proof.
  intros Hwf Hrun Hb.
  destruct (get_rank_spec _ _ _ _ _ Hwf Hrun) as (_ & Hfin).
  destruct (Hfin 1 eq_refl) as (j & g & Hj & Hgi & Hgz & Hh & _).
  assert (j = 1%nat) as -> by lia.
  inversion Hh as [|? ? c ? Hh0 Hm Hi]; subst. inversion Hh0; subst.
  apply (Hb g); [|done]. destruct c. by apply accessible_spec.
Qed.

(** ** The loops of [solve] keep the invariant *)

Lemma safe_bind {A B} (Q : A → Prop) (P : B → Prop) (m : outcome A)
    (f : A → outcome B) :
  safe Q m → (∀ a, m = Ret a → Q a → safe P (f a)) → safe P (m ≫= f).
Proof. destruct m as [a| |]; simpl; [by auto|done|done]. Qed.

Lemma safe_weaken {A} (P Q : A → Prop) (o : outcome A) :
  safe P o → (∀ a, o = Ret a → P a → Q a) → safe Q o.
Proof. destruct o as [a| |]; simpl; [by auto|done|done]. Qed.

(** A candidate that [reroute_step] yields from a trial. *)
Lemma reroute_step_sound size fuel brd k last f e b e' rk :
  tour size brd k → inside size last = true → cell brd last = k →
  f ∈ get_accessible_fields size last.1 last.2 →
  get_next size brd f.1 f.2 = Ret e →
  reroute_step size fuel brd last e = Ret (Some (b, e', rk)) →
  1 <= k ∧ tour size b k ∧ inside size e' = true ∧ cell b e' = k ∧
  get_rank size fuel b (Some e') = Ret rk.
Proof.
  intros Htour Hlast Hmax Hf Hnext Hstep.
  apply reroute_step_yields in Hstep as (Hne & Hboard & Hrank). simpl in *.
  pose proof (accessible_inside _ _ _ _ Hf) as Hfi.
  pose proof (tour_wf _ _ _ Htour) as Hwf.
  destruct e as [e|].
  2:{ unfold reroute_board in Hboard.
      rewrite (getitem2_inside size brd last) in Hboard by done. discriminate. }
  destruct (get_next_some size brd k Htour f e Hfi Hnext) as [Hin Hce].
  pose proof (accessible_inside _ _ _ _ Hin) as Hei.
  pose proof (tour_range _ _ _ Htour f Hfi) as Hrf.
  pose proof (tour_range _ _ _ Htour e Hei) as Hre.
  destruct (reroute_board_reverses size brd k last Htour Hlast Hmax e Hei)
    as (b' & Hrun & Hwfb' & Hb'); [lia|].
  rewrite Hrun in Hboard. injection Hboard as <- <-.
  assert (Ht' : tour size b' k).
  { apply (tour_rev_after size brd k last Htour Hlast Hmax f); [done|lia|done|].
    intros q Hq. rewrite Hb' by done. by rewrite Hce. }
  assert (Hend : cell b' e = k).
  { rewrite Hb' by done. unfold rev.
    destruct (Z.leb_spec (cell brd e) (cell brd e)); [|lia].
    destruct (Z.leb_spec (cell brd e) k); [simpl; lia|lia]. }
  split; [lia|]. split; [done|]. split; [done|]. split; [done|].
  rewrite <- Hrank. symmetry. apply get_rank_default.
  apply (get_max_tour size b' k); [done|lia|done|done].
Qed.

Lemma reroute_step_no_raise size fuel brd k last f e x :
  good_trial size k (brd, last) →
  f ∈ get_accessible_fields size last.1 last.2 →
  get_next size brd f.1 f.2 = Ret e →
  reroute_step size fuel brd last e ≠ Raise x.
Proof.
  intros (Htour & Hlast & Hmax & Hblocked) Hf Hnext. simpl in *.
  pose proof (accessible_inside _ _ _ _ Hf) as Hfi.
  pose proof (tour_range _ _ _ Htour f Hfi) as Hrf.
  pose proof (Hblocked f Hf) as Hnz.
  assert (Hlt : cell brd f ≠ k).
  { intros Heq. assert (f = last) as ->.
    { apply (tour_once _ _ _ Htour); [done|done|done|congruence]. }
    destruct last as [lr lc]. apply accessible_spec in Hf as [_ Hm].
    unfold knight_move in Hm. simpl in Hm. lia. }
  destruct (get_next_total size brd k f Htour Hfi) as (p & Hnext' & Hp & Hcp); [lia|].
  rewrite Hnext in Hnext'. injection Hnext' as ->.
  unfold reroute_step. destruct (decide (Some p = Some last)); [done|].
  destruct (reroute_board_reverses size brd k last Htour Hlast Hmax p Hp)
    as (b' & -> & Hwf' & _); [lia|].
  simpl. destruct (get_rank size fuel b' None) as [rk|y|] eqn:Hrk; [done| |done].
  by apply get_rank_no_raise in Hrk.
Qed.

(** The branches of [scan_ends] on the rank of a candidate. *)
Lemma scan_ends_cons size fuel brd last e es reroutes rc :
  scan_ends size fuel brd last (e :: es) reroutes rc =
  step ← reroute_step size fuel brd last e;
  match step with
  | None => scan_ends size fuel brd last es reroutes rc
  | Some (b, e', rk) =>
      if decide (rk = Finite 1) then
        num ← getitem2 b e'.1 e'.2;
        let filled := wandorf_fill size fuel b e'.1 e'.2 num in
        deg1_last ← filled.2;
        x ← getitem2 filled.1 deg1_last.1 deg1_last.2;
        if x =? size ^ 2 then Ret (Solved filled.1 (rc + 1))
        else Ret (Stuck reroutes (rc + 1))
      else scan_ends size fuel brd last es (reroutes ++ [(b, e')]) (rc + 1)
  end.
Proof.
  simpl. destruct (reroute_step size fuel brd last e) as [[[[b e'] rk]|]| |];
    [|done..]. simpl.
  destruct rk as [[|[p|p|]|p]|]; done.
Qed.

Lemma scan_ends_sound size fuel brd k last base ends : ∀ reroutes rc,
  good_trial size k (brd, last) →
  (∀ e, e ∈ ends → ∃ f, f ∈ get_accessible_fields size last.1 last.2 ∧
                        get_next size brd f.1 f.2 = Ret e) →
  Forall (good_trial size k) reroutes →
  Z.of_nat (length reroutes) <= rc - base →
  safe (sound_verdict size k base)
       (scan_ends size fuel brd last ends reroutes rc).
Proof.
  induction ends as [|e es IH]; intros reroutes rc Hgood Hends Hrr Hlen.
  { simpl. done. }
  pose proof Hgood as (Htour & Hlast & Hmax & Hblocked).
  simpl in Htour, Hlast, Hmax, Hblocked.
  destruct (Hends e ltac:(left)) as (f & Hf & Hnext).
  assert (Htail : ∀ e0, e0 ∈ es →
    ∃ f0, f0 ∈ get_accessible_fields size last.1 last.2 ∧
          get_next size brd f0.1 f0.2 = Ret e0).
  { intros e0 He0. apply Hends. by right. }
  rewrite scan_ends_cons.
  destruct (reroute_step size fuel brd last e) as [[[[b e'] rk]|]| |] eqn:Hstep;
    simpl; [| |by eapply (reroute_step_no_raise size fuel brd k last f e)|done].
  2:{ by apply IH. }
  destruct (reroute_step_sound _ _ _ _ _ _ _ _ _ _ Htour Hlast Hmax Hf Hnext Hstep)
    as (Hk & Htb & He' & Hce' & Hrank).
  pose proof (tour_wf _ _ _ Htb) as Hwfb.
  destruct (decide (rk = Finite 1)) as [->|Hrk].
  - rewrite (getitem2_inside size b e') by done. simpl. rewrite Hce'.
    destruct (wandorf_fill size fuel b e'.1 e'.2 k) as [b2 [q|x|]] eqn:Hfill;
      simpl; [| |done].
    2:{ pose proof (wandorf_fill_no_raise size fuel b e' k x Hwfb He') as Hno.
        by rewrite Hfill in Hno. }
    destruct (wandorf_fill_tour size fuel b e' k b2 q Hwfb He' Hk) as
      (k' & Hk' & Ht2 & Hq & Hcq & _); [|done|].
    { apply (tour_ext size b); [done|by apply wf_upd|].
      intros p Hp. rewrite (cell_upd size) by done.
      destruct (decide (e' = p)) as [<-|]; [done|done]. }
    rewrite (getitem2_inside size b2 q) by (done || apply (tour_wf _ _ _ Ht2)).
    simpl. rewrite Hcq.
    destruct (Z.eqb_spec k' (size ^ 2)) as [->|Hne]; simpl.
    + split; [done|lia].
    + split; [done|lia].
  - apply IH; [done|done| |].
    + apply Forall_app. split; [done|]. apply Forall_singleton.
      split; [done|]. split; [done|]. split; [done|]. simpl.
      apply (rank_blocked size fuel b e' rk); [done|done|lia|done].
    + rewrite length_app. simpl. lia.
Qed.

Lemma possible_ends_returns size brd last :
  wf_board size brd → ∃ ends, possible_ends size brd last = Ret ends.
Proof.
  intros Hwf. unfold possible_ends.
  rewrite (ends_of_pure size brd _ Hwf (accessible_all_inside _ _ _)). by eexists.
Qed.

Lemma scan_trials_sound size fuel k base boards : ∀ reroutes rc,
  Forall (good_trial size k) boards →
  Forall (good_trial size k) reroutes →
  Z.of_nat (length reroutes) <= rc - base →
  safe (sound_verdict size k base) (scan_trials size fuel boards reroutes rc).
Proof.
  induction boards as [|[brd last] rest IH]; intros reroutes rc Hb Hrr Hlen.
  { simpl. done. }
  apply Forall_cons in Hb as [Hgood Hrest]. simpl.
  destruct (possible_ends_returns size brd last) as (ends & Hends).
  { destruct Hgood as (Ht & _). apply (tour_wf _ _ _ Ht). }
  rewrite Hends. simpl.
  apply (safe_bind (sound_verdict size k base)).
  - apply (scan_ends_sound size fuel brd k last base); [done| |done|done].
    intros e He. by apply (possible_ends_elem size brd last ends).
  - intros [b n|rr n|rr n] _ Hv; simpl; [done|done|].
    destruct Hv as [Hrr' Hlen']. by apply IH.
Qed.

Lemma solve_loop_sound size clock k gens : ∀ fuel boards rc (i : nat),
  Forall (good_trial size k) boards →
  boards = [] ∨ Z.of_nat i <= rc →
  safe (λ res, ∃ b (j : nat) n t,
          res = result_dict b (Z.of_nat j) n t ∧ tour size b (size ^ 2) ∧
          (1 <= j)%nat ∧ Z.of_nat j <= n)
       (solve_loop size clock gens fuel boards rc i).
Proof.
  induction gens as [|gens IH]; intros fuel boards rc i Hb Hcount; [done|].
  destruct (decide (boards = [])) as [->|Hne].
  { by rewrite solve_loop_empty. }
  destruct Hcount as [|Hcount]; [done|]. simpl.
  apply (safe_bind (sound_verdict size k rc)).
  { apply scan_trials_sound; [done|done|simpl; lia]. }
  intros [b n|rr n|rr n] _ Hv; simpl in *.
  - destruct Hv as [Ht Hn]. exists b, (S i), n, (clock (S (S i)) - clock 0%nat).
    split; [done|]. split; [done|]. lia.
  - destruct Hv as [Hrr Hlen]. apply IH; [done|].
    destruct rr; [by left|right; simpl in Hlen; lia].
  - destruct Hv as [Hrr Hlen]. apply IH; [done|].
    destruct rr; [by left|right; simpl in Hlen; lia].
Qed.

(** [verify] on a path either runs out of budget or says [True]. *)
Lemma verify_tour_safe size brd k fuel :
  tour size brd k → 1 <= k → safe (λ ok, ok = true) (verify size fuel brd).
Proof.
  intros Ht Hk.
  destruct (verify_mono size fuel (fuel `max` Z.to_nat k) brd ltac:(lia)) as [->|Heq];
    [done|].
  rewrite Heq, (verify_tour size brd k) by (done || lia). done.
Qed.

(** The first fill from a square of a fresh board. *)
Lemma first_fill_sound size fuel r c :
  inside size (r, c) = true →
  safe (λ las, ∃ k, 1 <= k ∧
          good_trial size k
            ((wandorf_fill size fuel (create_empty_board size) r c 1).1, las))
       (wandorf_fill size fuel (create_empty_board size) r c 1).2.
Proof.
  intros Hin.
  destruct (wandorf_fill size fuel (create_empty_board size) r c 1)
    as [board1 [las|x|]] eqn:Hfill; simpl; [| |done].
  2:{ pose proof (wandorf_fill_no_raise size fuel (create_empty_board size) (r, c) 1 x
                    (wf_empty_board size) Hin) as Hno.
      simpl in Hno. by rewrite Hfill in Hno. }
  destruct (wandorf_fill_tour size fuel (create_empty_board size) (r, c) 1 board1 las
              (wf_empty_board size) Hin ltac:(lia)) as (k & Hk & Ht & Hl & Hc & Hb);
    [|done|].
  { apply (tour_extend size _ 0 (r, c)); [apply tour_empty|lia|by left|done|].
    apply cell_empty_board. }
  exists k. split; [lia|]. done.
Qed.

(** What a run of [solve] on a fresh board gives: no exception; if a
    result, then a complete path, either the first fill itself, with both
    counts 0, or the outcome of at least one generation, the first fill
    being then an incomplete path. *)
Lemma solve_sound size clock fuel r c :
  inside size (r, c) = true →
  safe (λ res, ∃ b (j : nat) n t k,
          res = result_dict b (Z.of_nat j) n t ∧ tour size b (size ^ 2) ∧
          Z.of_nat j <= n ∧ 1 <= k ∧
          tour size (solve size clock fuel (create_empty_board size) r c).1 k ∧
          ((j = 0%nat ∧ n = 0 ∧ k = size ^ 2 ∧
            b = (solve size clock fuel (create_empty_board size) r c).1) ∨
           ((1 <= j)%nat ∧ k ≠ size ^ 2)))
       (solve size clock fuel (create_empty_board size) r c).2.
Proof.
  intros Hin. unfold solve. cbv zeta. simpl.
  pose proof (first_fill_sound size fuel r c Hin) as Hfill.
  set (filled := wandorf_fill size fuel (create_empty_board size) r c 1) in *.
  apply (safe_bind _ _ _ _ Hfill).
  intros las _ (k & Hk & Hgood). pose proof Hgood as (Ht & Hl & Hc & Hb).
  simpl in Ht, Hl, Hc, Hb.
  rewrite (getitem2_inside size filled.1 las) by (done || apply (tour_wf _ _ _ Ht)).
  simpl. rewrite Hc.
  destruct (Z.eqb_spec k (size ^ 2)) as [Heq|Hne].
  - apply (safe_bind _ _ _ _ (verify_tour_safe size filled.1 k fuel Ht Hk)).
    intros ok _ ->. simpl.
    exists filled.1, 0%nat, 0, (clock 1%nat - clock 0%nat), k.
    split; [done|]. split; [by rewrite <- Heq|]. split; [done|]. split; [done|].
    split; [done|]. by left.
  - simpl.
    eapply safe_weaken.
    { apply (solve_loop_sound size clock k fuel fuel [(filled.1, las)] 0 0).
      - by apply Forall_singleton.
      - right. done. }
    intros res _ (b & j & n & t & -> & Htb & Hj & Hn).
    exists b, j, n, t, k. split; [done|]. split; [done|]. split; [done|].
    split; [done|]. split; [done|]. by right.
Qed.

(** ** The accessible fields *)

Lemma NoDup_accessible size r c : NoDup (get_accessible_fields size r c).
Proof.
  unfold get_accessible_fields. apply NoDup_ListNoDup, List.NoDup_filter.
  apply NoDup_ListNoDup, NoDup_fmap_2_strong.
  - intros [a1 a2] [b1 b2] _ _ [= H1 H2]. f_equal; lia.
  - apply (bool_decide_unpack _). by vm_compute.
Qed.

Lemma accessible_not_self size r c : (r, c) ∉ get_accessible_fields size r c.
Proof.
  intros [_ Hm]%accessible_spec. unfold knight_move in Hm. simpl in Hm. lia.
Qed.

(** ** [List.find], the shape of the scans *)

Lemma find_first {A} (f : A → bool) (l : list A) (x : A) :
  List.find f l = Some x →
  ∃ l1 l2, l = l1 ++ x :: l2 ∧ f x = true ∧ ∀ y, y ∈ l1 → f y = false.
Proof.
  induction l as [|a l IH]; [done|]. simpl.
  destruct (f a) eqn:Hfa.
  - intros [= ->]. exists [], l. split; [done|]. split; [done|].
    intros y Hy. by apply elem_of_nil in Hy.
  - intros (l1 & l2 & -> & Hx & Hl1)%IH. exists (a :: l1), l2.
    split; [done|]. split; [done|].
    intros y [->|Hy]%elem_of_cons; [done|by apply Hl1].
Qed.

Lemma find_none_iff {A} (f : A → bool) (l : list A) :
  List.find f l = None ↔ ∀ y, y ∈ l → f y = false.
Proof.
  induction l as [|a l IH]; simpl.
  - split; [|done]. intros _ y Hy. by apply elem_of_nil in Hy.
  - destruct (f a) eqn:Hfa.
    + split; [done|]. intros H. specialize (H a ltac:(left)). congruence.
    + rewrite IH. split.
      * intros H y [->|Hy]%elem_of_cons; [done|by apply H].
      * intros H y Hy. apply H. by right.
Qed.

Lemma find_is_some {A} (f : A → bool) (l : list A) (x : A) :
  x ∈ l → f x = true → ∃ y, List.find f l = Some y.
Proof.
  intros Hx Hfx. destruct (List.find f l) as [y|] eqn:Hfind; [by exists y|].
  rewrite find_none_iff in Hfind. specialize (Hfind x Hx). congruence.
Qed.

(** ** [get_next] and [get_prev] along a path *)

Lemma get_prev_some size brd q p :
  wf_board size brd → inside size q = true →
  get_prev size brd q.1 q.2 = Ret (Some p) →
  p ∈ get_accessible_fields size q.1 q.2 ∧ cell brd p = cell brd q - 1.
Proof.
  intros Hwf Hq. rewrite (get_prev_pure size brd Hwf q Hq). intros [= Hfind].
  apply find_first in Hfind as (l1 & l2 & Hl & Hc & _).
  split; [|lia]. rewrite Hl. apply elem_of_app. right. by left.
Qed.

Lemma get_next_then_prev size brd k p q :
  tour size brd k → inside size p = true → 1 <= cell brd p →
  get_next size brd p.1 p.2 = Ret (Some q) →
  get_prev size brd q.1 q.2 = Ret (Some p).
Proof.
  intros Ht Hp Hpos Hnext. pose proof (tour_wf _ _ _ Ht) as Hwf.
  destruct (get_next_some size brd k Ht p q Hp Hnext) as [Hq Hcq].
  pose proof (accessible_inside _ _ _ _ Hq) as Hqi.
  rewrite (get_prev_pure size brd Hwf q Hqi).
  destruct (find_is_some (λ f, cell brd f =? cell brd q + -1)
              (get_accessible_fields size q.1 q.2) p) as [y Hy].
  { by apply accessible_sym. }
  { lia. }
  rewrite Hy. do 2 f_equal.
  apply find_first in Hy as (l1 & l2 & Hl & Hc & _).
  apply (tour_once _ _ _ Ht).
  - apply (accessible_inside size q.1 q.2). rewrite Hl.
    apply elem_of_app. right. by left.
  - done.
  - lia.
  - lia.
Qed.

Lemma get_prev_then_next size brd k p q :
  tour size brd k → inside size q = true → 2 <= cell brd q →
  get_prev size brd q.1 q.2 = Ret (Some p) →
  get_next size brd p.1 p.2 = Ret (Some q).
Proof.
  intros Ht Hq Hpos Hprev. pose proof (tour_wf _ _ _ Ht) as Hwf.
  destruct (get_prev_some size brd q p Hwf Hq Hprev) as [Hp Hcp].
  pose proof (accessible_inside _ _ _ _ Hp) as Hpi.
  rewrite (get_next_pure size brd Hwf p Hpi).
  destruct (find_is_some (λ f, cell brd f =? cell brd p + 1)
              (get_accessible_fields size p.1 p.2) q) as [y Hy].
  { by apply accessible_sym. }
  { lia. }
  rewrite Hy. do 2 f_equal.
  apply find_first in Hy as (l1 & l2 & Hl & Hc & _).
  apply (tour_once _ _ _ Ht).
  - apply (accessible_inside size p.1 p.2). rewrite Hl.
    apply elem_of_app. right. by left.
  - done.
  - lia.
  - lia.
Qed.

Lemma get_next_none size brd k p :
  tour size brd k → inside size p = true → 1 <= cell brd p →
  get_next size brd p.1 p.2 = Ret None ↔ cell brd p = k.
Proof.
  intros Ht Hp Hpos. pose proof (tour_wf _ _ _ Ht) as Hwf.
  pose proof (tour_range _ _ _ Ht p Hp) as Hr. split.
  - intros Hnone. destruct (decide (cell brd p = k)) as [|Hne]; [done|].
    destruct (get_next_total size brd k p Ht Hp) as (e & He & _); [lia|].
    congruence.
  - intros Hk. rewrite (get_next_pure size brd Hwf p Hp). f_equal.
    apply find_none_iff. intros y Hy.
    pose proof (tour_range _ _ _ Ht y (accessible_inside _ _ _ _ Hy)). lia.
Qed.

Lemma get_prev_at_start size brd k p :
  tour size brd k → inside size p = true → cell brd p = 1 →
  (get_prev size brd p.1 p.2 = Ret None ↔ blocked size brd p) ∧
  (∀ q, get_prev size brd p.1 p.2 = Ret (Some q) → cell brd q = 0).
Proof.
  intros Ht Hp Hone. pose proof (tour_wf _ _ _ Ht) as Hwf.
  rewrite (get_prev_pure size brd Hwf p Hp). split.
  - split.
    + intros [= Hnone]. rewrite find_none_iff in Hnone.
      intros f Hf. specialize (Hnone f Hf). lia.
    + intros Hb. f_equal. apply find_none_iff. intros f Hf.
      specialize (Hb f Hf). lia.
  - intros q [= Hfind]. apply find_first in Hfind as (_ & _ & _ & Hc & _). lia.
Qed.

(** ** Row-major order *)

Lemma sorted_range_from (a n : nat) :
  StronglySorted Z.lt (Z.of_nat <$> seq a n).
Proof.
  revert a. induction n as [|n IH]; intros a; simpl; constructor; [apply IH|].
  apply Forall_forall. intros x (y & -> & Hy%elem_of_seq)%list_elem_of_fmap. lia.
Qed.

Lemma sorted_rows (cols rows : list Z) :
  StronglySorted Z.lt cols → StronglySorted Z.lt rows →
  StronglySorted before (r ← rows; (λ c, (r, c)) <$> cols).
Proof.
  intros Hcols. induction 1 as [|r rows Hrows IH Hall]; [constructor|].
  change ((r :: rows) ≫= _) with
    (((λ c, (r, c)) <$> cols) ++ (rows ≫= λ r, (λ c, (r, c)) <$> cols)).
  apply StronglySorted_app_2; [| |exact IH].
  - intros x1 x2 (c1 & -> & _)%list_elem_of_fmap
           (r2 & (c2 & -> & _)%list_elem_of_fmap & Hr2)%list_elem_of_bind.
    unfold before. simpl. left. by apply (proj1 (Forall_forall _ _) Hall).
  - clear -Hcols. induction Hcols as [|c cols Hc IH Hall]; [constructor|].
    simpl. constructor; [done|].
    apply Forall_forall. intros x (c' & -> & Hc')%list_elem_of_fmap.
    unfold before. simpl. right. split; [reflexivity|].
    by apply (proj1 (Forall_forall _ _) Hall).
Qed.

Lemma sorted_all_fields size : StronglySorted before (all_fields size).
Proof.
  unfold all_fields, range. apply sorted_rows; apply sorted_range_from.
Qed.

Lemma sorted_split (l1 l2 : list (Z * Z)) (p q : Z * Z) :
  StronglySorted before (l1 ++ p :: l2) → q ∈ l1 ++ p :: l2 →
  q ∈ l1 ∨ q = p ∨ before p q.
Proof.
  intros Hs [Hq|[->|Hq]%elem_of_cons]%elem_of_app; [by left|by right; left|].
  right. right. apply StronglySorted_app in Hs as (_ & _ & Hs).
  apply StronglySorted_inv in Hs as [_ Hall].
  by apply (proj1 (Forall_forall _ _) Hall).
Qed.

Lemma before_irrefl p : ¬ before p p.
Proof. unfold before. lia. Qed.

Lemma before_asym p q : before p q → ¬ before q p.
Proof. unfold before. lia. Qed.

(** ** [find] *)

Lemma find_some_spec size brd num p :
  wf_board size brd →
  find size brd num = Ret (Some p) ↔
  inside size p = true ∧ cell brd p = num ∧
  ∀ q, inside size q = true → cell brd q = num → q = p ∨ before p q.
Proof.
  intros Hwf. unfold find.
  rewrite (find_in_pure size brd Hwf num _ (all_fields_inside size)).
  pose proof (sorted_all_fields size) as Hs. split.
  - intros [= Hfind]. apply find_first in Hfind as (l1 & l2 & Hl & Hc & Hl1).
    rewrite Hl in Hs.
    assert (Hp : p ∈ all_fields size).
    { rewrite Hl. apply elem_of_app. right. by left. }
    split; [by apply all_fields_spec|]. split; [lia|].
    intros q Hq%all_fields_spec Hcq. rewrite Hl in Hq.
    destruct (sorted_split l1 l2 p q Hs Hq) as [Hq1|[->|Hb]]; [|by left|by right].
    specialize (Hl1 q Hq1). lia.
  - intros (Hp & Hc & Hfirst).
    destruct (find_is_some (λ f, cell brd f =? num) (all_fields size) p)
      as [y Hy]; [by apply all_fields_spec|lia|].
    rewrite Hy. do 2 f_equal.
    apply find_first in Hy as (l1 & l2 & Hl & Hcy & Hl1).
    assert (Hyi : inside size y = true).
    { apply all_fields_spec. rewrite Hl. apply elem_of_app. right. by left. }
    apply all_fields_spec in Hp. rewrite Hl in Hp, Hs.
    destruct (sorted_split l1 l2 y p Hs Hp) as [Hq1|[->|Hb]]; [|done|].
    + specialize (Hl1 p Hq1). lia.
    + destruct (Hfirst y Hyi ltac:(lia)) as [->|Hb']; [done|].
      by destruct (before_asym _ _ Hb).
Qed.

Lemma find_none_spec size brd num :
  wf_board size brd →
  find size brd num = Ret None ↔
  ∀ q, inside size q = true → cell brd q ≠ num.
Proof.
  intros Hwf. unfold find.
  rewrite (find_in_pure size brd Hwf num _ (all_fields_inside size)). split.
  - intros [= Hnone] q Hq%all_fields_spec. rewrite find_none_iff in Hnone.
    specialize (Hnone q Hq). lia.
  - intros Hall. f_equal. apply find_none_iff. intros q Hq%all_fields_spec.
    specialize (Hall q Hq). lia.
Qed.

(** ** [get_max] *)

Lemma max_fold_first brd : ∀ fields m mp,
  StronglySorted before fields →
  let r := foldl (max_step brd) (m, mp) fields in
  r = (m, mp) ∨
  (r.2 ∈ fields ∧ ∀ q, q ∈ fields → cell brd q = r.1 → q = r.2 ∨ before r.2 q).
Proof.
  induction fields as [|f fs IH]; intros m mp Hs; [by left|].
  apply StronglySorted_inv in Hs as [Hs Hall]. simpl.
  assert (Hstep : max_step brd (m, mp) f =
                  if m <? cell brd f then (cell brd f, f) else (m, mp)) by done.
  rewrite Hstep.
  destruct (Z.ltb_spec m (cell brd f)) as [Hlt|Hge].
  - destruct (IH (cell brd f) f Hs) as [Heq|[Hin Hfirst]].
    + right. rewrite Heq. simpl. split; [by left|].
      intros q [->|Hq]%elem_of_cons _; [by left|].
      right. by apply (proj1 (Forall_forall _ _) Hall).
    + right. split; [by right|].
      intros q [->|Hq]%elem_of_cons Hc; [|by apply Hfirst].
      pose proof (max_fold_spec brd fs (cell brd f) f) as (Hle & Hub & Hcase).
      destruct Hcase as [Heq|(_ & _ & Hgt)]; [|lia].
      rewrite Heq. by left.
  - pose proof (max_fold_spec brd fs m mp) as (Hle & Hub & Hcase).
    destruct Hcase as [Heq|(_ & _ & Hgt)]; [by left|].
    destruct (IH m mp Hs) as [Heq|[Hin Hfirst]]; [by left|].
    right. split; [by right|].
    intros q [->|Hq]%elem_of_cons Hc; [lia|by apply Hfirst].
Qed.

Lemma get_max_spec size brd :
  wf_board size brd →
  ∃ p, get_max size brd = Ret p ∧
    (((∀ q, inside size q = true → cell brd q <= 0) ∧ p = (0, 0)) ∨
     (inside size p = true ∧ 0 < cell brd p ∧
      (∀ q, inside size q = true → cell brd q <= cell brd p) ∧
      (∀ q, inside size q = true → cell brd q = cell brd p →
            q = p ∨ before p q))).
Proof.
  intros Hwf. unfold get_max.
  rewrite (max_in_pure size brd Hwf _ 0 (0, 0) (all_fields_inside size)).
  eexists. split; [done|].
  pose proof (max_fold_spec brd (all_fields size) 0 (0, 0)) as (Hle & Hub & Hcase).
  pose proof (max_fold_first brd (all_fields size) 0 (0, 0)
                (sorted_all_fields size)) as Hfirst.
  cbv zeta in *. set (r := foldl _ _ _) in *.
  destruct Hcase as [Heq|(Hin & Hc & Hgt)].
  - left. rewrite Heq in *. simpl in *. split; [|done].
    intros q Hq%all_fields_spec. by apply Hub.
  - right. destruct Hfirst as [Heq|[_ Hfirst]].
    { rewrite Heq in Hgt. simpl in Hgt. lia. }
    split; [by apply all_fields_spec|]. split; [lia|]. split.
    + intros q Hq%all_fields_spec. rewrite Hc. by apply Hub.
    + intros q Hq%all_fields_spec Hcq. apply Hfirst; [done|lia].
Qed.

(** ** Shortest paths *)

Lemma spl_least size fuel a b d :
  shortest_path_length size fuel a.1 a.2 b.1 b.2 = Ret d ↔
  ∃ j : nat, (j < fuel)%nat ∧ d = Z.of_nat j ∧ hops size j a b ∧
    ∀ i : nat, hops size i a b → (j <= i)%nat.
Proof.
  rewrite spl_returns. split.
  - intros (j & Hj & -> & Hr & Hmin). exists j. split; [done|]. split; [done|].
    split; [by apply reach_hops|].
    intros i Hi%reach_hops. destruct (decide (j ≤ i)%nat); [done|].
    destruct (Hmin i); [lia|done].
  - intros (j & Hj & -> & Hh & Hmin). exists j. split; [done|]. split; [done|].
    split; [by apply reach_hops|].
    intros i Hi Hr%reach_hops. specialize (Hmin i Hr). lia.
Qed.

Lemma hops_off_board size j a b :
  hops size j a b → inside size b = false → j = 0%nat ∧ a = b.
Proof. destruct 1; [done|congruence]. Qed.

Lemma spl_off_board size fuel a b :
  inside size b = false → a ≠ b →
  shortest_path_length size fuel a.1 a.2 b.1 b.2 = Timeout.
Proof.
  intros Hb Hne.
  destruct (shortest_path_length size fuel a.1 a.2 b.1 b.2) as [d|e|] eqn:Hrun;
    [| |done].
  - apply spl_least in Hrun as (j & _ & _ & Hh & _).
    by destruct (hops_off_board size j a b Hh Hb).
  - by apply spl_loop_no_raise in Hrun.
Qed.

Lemma spl_triangle size f1 f2 a b c d1 d2 :
  shortest_path_length size f1 a.1 a.2 b.1 b.2 = Ret d1 →
  shortest_path_length size f2 b.1 b.2 c.1 c.2 = Ret d2 →
  ∃ d3, shortest_path_length size (f1 + f2) a.1 a.2 c.1 c.2 = Ret d3 ∧
        d3 <= d1 + d2.
Proof.
  intros (j1 & Hj1 & -> & Hh1 & _)%spl_least (j2 & Hj2 & -> & Hh2 & _)%spl_least.
  destruct (spl_reached size (f1 + f2) a c (j1 + j2)) as (d3 & Hrun & Hle).
  - by apply (hops_trans size j1 j2 a b c).
  - lia.
  - exists d3. split; [done|lia].
Qed.

(** A knight's move changes the colour of the square. *)
Lemma hops_parity size j a b :
  hops size j a b → ∃ m, b.1 + b.2 - (a.1 + a.2) = Z.of_nat j + 2 * m.
Proof.
  induction 1 as [a|j a c b _ [m IH] Hm _].
  - exists 0. lia.
  - unfold knight_move in Hm.
    assert (Hstep : ∃ n, b.1 + b.2 - (c.1 + c.2) = 1 + 2 * n).
    { assert (Hd : b.1 + b.2 - (c.1 + c.2) = 3 ∨ b.1 + b.2 - (c.1 + c.2) = 1 ∨
                   b.1 + b.2 - (c.1 + c.2) = -1 ∨ b.1 + b.2 - (c.1 + c.2) = -3)
        by lia.
      destruct Hd as [Hd|[Hd|[Hd|Hd]]];
        [exists 1|exists 0|exists (-1)|exists (-2)]; lia. }
    destruct Hstep as [n Hn]. exists (m + n). lia.
Qed.

(** ** Boards are determined by their cells *)

Lemma board_ext size b b' :
  wf_board size b → wf_board size b' →
  (∀ q, inside size q = true → cell b q = cell b' q) → b = b'.
Proof.
  intros [Hl Hr] [Hl' Hr'] Hc.
  apply (list_eq_same_length _ _ (Z.to_nat size)); [done|done|].
  intros i row row' Hi Hrow Hrow'.
  pose proof (proj1 (Forall_lookup _ _) Hr i row Hrow) as Hlr.
  pose proof (proj1 (Forall_lookup _ _) Hr' i row' Hrow') as Hlr'.
  apply (list_eq_same_length _ _ (Z.to_nat size)); [done|done|].
  intros j x y Hj Hx Hy.
  specialize (Hc (Z.of_nat i, Z.of_nat j)). unfold cell in Hc. simpl in Hc.
  rewrite !Nat2Z.id, Hrow, Hrow' in Hc. simpl in Hc. rewrite Hx, Hy in Hc.
  apply Hc. unfold inside, in_range. simpl.
  repeat (apply andb_true_intro; split); lia.
Qed.

Lemma rev_rev s k x : rev s k (rev s k x) = x.
Proof.
  unfold rev.
  destruct (Z.leb_spec s x), (Z.leb_spec x k); simpl;
    repeat (match goal with |- context [?a <=? ?b] => destruct (Z.leb_spec a b) end;
            simpl); lia.
Qed.

(** ** Rerouting twice *)

Lemma reroute_board_round_trip size brd k last f e b' e' :
  tour size brd k → inside size last = true → cell brd last = k →
  f ∈ get_accessible_fields size last.1 last.2 →
  get_next size brd f.1 f.2 = Ret (Some e) →
  reroute_board size brd last (Some e) = Ret (b', e') →
  e' = e ∧ cell b' e = k ∧ reroute_board size b' e (Some last) = Ret (brd, last).
Proof.
  intros Ht Hlast Hmax Hf Hnext Hrun.
  pose proof (accessible_inside _ _ _ _ Hf) as Hfi.
  pose proof (tour_wf _ _ _ Ht) as Hwf.
  destruct (get_next_some size brd k Ht f e Hfi Hnext) as [Hin Hce].
  pose proof (accessible_inside _ _ _ _ Hin) as Hei.
  pose proof (tour_range _ _ _ Ht f Hfi) as Hrf.
  pose proof (tour_range _ _ _ Ht e Hei) as Hre.
  destruct (reroute_board_reverses size brd k last Ht Hlast Hmax e Hei)
    as (b1 & Hrun1 & Hwf1 & Hb1); [lia|].
  rewrite Hrun1 in Hrun. injection Hrun as <- <-.
  assert (Ht1 : tour size b1 k).
  { apply (tour_rev_after size brd k last Ht Hlast Hmax f); [done|lia|done|].
    intros q Hq. rewrite Hb1 by done. by rewrite Hce. }
  assert (Hend : cell b1 e = k).
  { rewrite Hb1 by done. unfold rev.
    destruct (Z.leb_spec (cell brd e) (cell brd e)); [|lia].
    destruct (Z.leb_spec (cell brd e) k); [simpl; lia|lia]. }
  assert (Hstart : cell b1 last = cell brd e).
  { rewrite Hb1 by done. unfold rev. rewrite Hmax.
    destruct (Z.leb_spec (cell brd e) k); [|lia].
    destruct (Z.leb_spec k k); [simpl; lia|lia]. }
  split; [done|]. split; [done|].
  destruct (reroute_board_reverses size b1 k e Ht1 Hei Hend last Hlast)
    as (b2 & Hrun2 & Hwf2 & Hb2); [lia|].
  rewrite Hrun2. do 2 f_equal. apply (board_ext size); [done|done|].
  intros q Hq. rewrite Hb2, Hstart, Hb1 by done. apply rev_rev.
Qed.

(** ** A path through every square *)

Lemma sorted_NoDup (l : list (Z * Z)) : StronglySorted before l → NoDup l.
Proof.
  induction 1 as [|p l Hs IH Hall]; constructor; [|done].
  intros Hp. apply (before_irrefl p).
  by apply (proj1 (Forall_forall _ _) Hall).
Qed.

Lemma length_rows (cols rows : list Z) :
  length (r ← rows; (λ c, (r, c)) <$> cols) = (length rows * length cols)%nat.
Proof.
  induction rows as [|r rows IH]; [done|].
  change ((r :: rows) ≫= _) with
    (((λ c, (r, c)) <$> cols) ++ (rows ≫= λ r, (λ c, (r, c)) <$> cols)).
  rewrite length_app, length_fmap, IH. simpl. lia.
Qed.

Lemma length_all_fields size :
  length (all_fields size) = (Z.to_nat size * Z.to_nat size)%nat.
Proof.
  unfold all_fields, range.
  by rewrite length_rows, !length_fmap, !length_seq.
Qed.

Lemma tour_positions size brd k :
  tour size brd k → ∀ n : nat, Z.of_nat n <= k →
  ∃ ps, length ps = n ∧ NoDup ps ∧
        ∀ p, p ∈ ps ↔ inside size p = true ∧ 1 <= cell brd p <= Z.of_nat n.
Proof.
  intros Ht. induction n as [|n IH]; intros Hn.
  { exists []. split; [done|]. split; [constructor|].
    intros p. split; [by intros ?%elem_of_nil|lia]. }
  destruct IH as (ps & Hlen & Hnd & Hps); [lia|].
  destruct (tour_all _ _ _ Ht (Z.of_nat (S n))) as (p & Hp & Hc); [lia|].
  exists (p :: ps). split; [simpl; lia|]. split.
  - constructor; [|done]. intros Hin%Hps. lia.
  - intros q. rewrite elem_of_cons, Hps. split.
    + intros [->|[Hq Hr]]; [split; [done|lia]|split; [done|lia]].
    + intros [Hq Hr]. destruct (decide (cell brd q = Z.of_nat (S n))) as [Heq|Hne].
      * left. apply (tour_once _ _ _ Ht); [done|done|lia|lia].
      * right. split; [done|lia].
Qed.

Lemma tour_full size brd p :
  tour size brd (size ^ 2) → inside size p = true →
  1 <= cell brd p <= size ^ 2.
Proof.
  intros Ht Hp.
  assert (Hsize : 0 <= size).
  { unfold inside, in_range in Hp. lia. }
  assert (Hsq : size ^ 2 = Z.of_nat (Z.to_nat size * Z.to_nat size)) by lia.
  destruct (tour_positions size brd _ Ht (Z.to_nat size * Z.to_nat size))
    as (ps & Hlen & Hnd & Hps); [lia|].
  assert (Hsub : ps ⊆+ all_fields size).
  { apply NoDup_submseteq; [done|].
    intros q [Hq _]%Hps. by apply all_fields_spec. }
  apply submseteq_length_Permutation in Hsub.
  2:{ rewrite length_all_fields. lia. }
  assert (Hin : p ∈ ps).
  { rewrite Hsub. by apply all_fields_spec. }
  apply Hps in Hin as [_ Hr]. lia.
Qed.

(** ** [wandorf_fill]: what it writes *)

Lemma wandorf_fill_frame size fuel : ∀ brd p num brd' las,
  wf_board size brd → inside size p = true → 1 <= num →
  wandorf_fill size fuel brd p.1 p.2 num = (brd', Ret las) →
  cell brd' p = num ∧
  ∀ q, inside size q = true → q ≠ p →
       cell brd' q = cell brd q ∨ (cell brd q = 0 ∧ num < cell brd' q).
Proof.
  induction fuel as [|fuel IH]; intros brd p num brd' las Hwf Hp Hnum; [done|].
  rewrite wandorf_fill_unfold by done. cbv zeta.
  pose proof (wf_upd size brd p num Hwf) as Hwf1.
  destruct (List.filter _ _) as [|j js] eqn:Hjumps.
  { intros [= <- <-]. split; [by apply (cell_upd_eq size)|].
    intros q Hq Hne. left. by apply (cell_upd_ne size). }
  pose proof (best_jump_first_min size (upd brd p num) (j :: js) ltac:(done)) as Hfm.
  apply first_min_elem in Hfm. rewrite <- Hjumps in Hfm at 2.
  apply list_elem_of_In, filter_In in Hfm as [Hin Hz]. apply list_elem_of_In in Hin.
  set (best := foldl _ _ _) in *.
  pose proof (accessible_inside _ _ _ _ Hin) as Hbi.
  assert (Hbp : p ≠ best.2).
  { intros Heq. rewrite <- Heq, (cell_upd_eq size) in Hz by done. lia. }
  intros Hrun.
  destruct (IH (upd brd p num) best.2 (num + 1) brd' las Hwf1 Hbi ltac:(lia) Hrun)
    as [Hhere Hrest].
  split.
  - destruct (Hrest p Hp Hbp) as [Heq|[Hzero _]].
    + by rewrite Heq, (cell_upd_eq size).
    + rewrite (cell_upd_eq size) in Hzero by done. lia.
  - intros q Hq Hne. destruct (decide (q = best.2)) as [->|Hnb].
    + right. rewrite (cell_upd_ne size) in Hz by done. split; [lia|lia].
    + destruct (Hrest q Hq Hnb) as [Heq|[Hzero Hlt]].
      * left. rewrite Heq. by apply (cell_upd_ne size).
      * right. rewrite (cell_upd_ne size) in Hzero by done. split; [done|lia].
Qed.

(** On a fresh board every square is empty. *)
Lemma zeros_empty_board size :
  zeros size (create_empty_board size) = (Z.to_nat size * Z.to_nat size)%nat.
Proof.
  unfold zeros. rewrite <- length_all_fields. f_equal.
  induction (all_fields size) as [|f fs IH]; [done|].
  simpl. rewrite cell_empty_board. simpl. by rewrite IH.
Qed.

Lemma wandorf_fill_fresh size fuel r c :
  inside size (r, c) = true → (Z.to_nat (size ^ 2) <= fuel)%nat →
  ∃ brd' las k,
    wandorf_fill size fuel (create_empty_board size) r c 1 = (brd', Ret las) ∧
    1 <= k ∧ tour size brd' k ∧ cell brd' (r, c) = 1 ∧
    inside size las = true ∧ cell brd' las = k ∧ blocked size brd' las.
Proof.
  intros Hin Hfuel. pose proof (wf_empty_board size) as Hwf.
  assert (Hsize : 0 <= size).
  { unfold inside, in_range in Hin. simpl in Hin. lia. }
  destruct (wandorf_fill_returns_from size fuel (create_empty_board size) (r, c) 1
              Hwf Hin ltac:(lia)) as (brd' & las & Hrun & _).
  { pose proof (zeros_upd_lt size (create_empty_board size) (r, c) 1 Hwf Hin
                  ltac:(lia) (cell_empty_board size (r, c))) as Hlt.
    rewrite zeros_empty_board in Hlt. nia. }
  simpl in Hrun.
  destruct (wandorf_fill_tour size fuel (create_empty_board size) (r, c) 1 brd' las
              Hwf Hin ltac:(lia)) as (k & Hk & Ht & Hl & Hc & Hb); [|done|].
  { apply (tour_extend size _ 0 (r, c)); [apply tour_empty|lia|by left|done|].
    apply cell_empty_board. }
  destruct (wandorf_fill_frame size fuel (create_empty_board size) (r, c) 1 brd' las
              Hwf Hin ltac:(lia) Hrun) as [Hstart _].
  exists brd', las, k. done.
Qed.

(** ** The width of a printed field *)

Lemma width_loop_spec : ∀ fuel s c,
  0 <= s → (Z.to_nat s < fuel)%nat →
  ∃ w, width_loop fuel s c = Ret w ∧ c <= w ∧ s < 10 ^ (w - c + 1) ∧
       (w = c ∨ 10 ^ (w - c - 1) < s).
Proof.
  induction fuel as [|fuel IH]; intros s c Hs Hfuel; [lia|]. simpl.
  destruct (Z.ltb_spec 1 s) as [Hgt|Hle].
  - assert (Hdiv : 10 * (s / 10) <= s < 10 * (s / 10) + 10).
    { pose proof (Z.div_mod s 10 ltac:(lia)).
      pose proof (Z.mod_pos_bound s 10 ltac:(lia)). lia. }
    destruct (IH (s / 10) (c + 1)) as (w & -> & Hcw & Hup & Hlow); [lia|lia|].
    exists w. split; [done|]. split; [lia|].
    replace (w - c + 1) with (Z.succ (w - (c + 1) + 1)) by lia.
    rewrite Z.pow_succ_r by lia. split; [lia|]. right.
    destruct (decide (w = c + 1)) as [->|Hne].
    + replace (c + 1 - c - 1) with 0 by lia. simpl. lia.
    + destruct Hlow as [->|Hlow]; [done|].
      replace (w - c - 1) with (Z.succ (w - (c + 1) - 1)) by lia.
      rewrite Z.pow_succ_r by lia. lia.
  - exists c. split; [done|]. split; [lia|].
    replace (c - c + 1) with 1 by lia. split; [simpl; lia|by left].
Qed.

(** ** How many candidates [reroute] yields *)

Lemma reroute_from_length size fuel brd last ends :
  (length (reroute_from size fuel brd last ends).1 <=
   length (List.filter (λ e, bool_decide (e ≠ Some last)) ends))%nat.
Proof.
  induction ends as [|e es IH]; [done|]. simpl.
  unfold reroute_step at 1.
  destruct (decide (e = Some last)) as [->|Hne].
  - rewrite bool_decide_eq_false_2 by (intros H; by apply H). done.
  - rewrite bool_decide_eq_true_2 by done.
    destruct (reroute_board size brd last e) as [be| |]; simpl; [|lia|lia].
    destruct (get_rank size fuel be.1 None) as [rk| |]; simpl; lia.
Qed.

Lemma filter_all {A} (l : list A) : List.filter (λ _, true) l = l.
Proof. induction l as [|a l IH]; [done|]. simpl. by rewrite IH. Qed.

Lemma reroute_length size brd k last fuel :
  tour size brd k → inside size last = true → cell brd last = k → 2 <= k →
  (length (reroute size fuel brd last).1 <= 7)%nat.
Proof.
  intros Ht Hlast Hmax Hk. pose proof (tour_wf _ _ _ Ht) as Hwf.
  unfold reroute, possible_ends.
  rewrite (ends_of_pure size brd _ Hwf (accessible_all_inside _ _ _)).
  etransitivity; [apply reroute_from_length|].
  destruct (tour_all _ _ _ Ht (k - 1)) as (p & Hp & Hcp); [lia|].
  assert (Hacc : p ∈ get_accessible_fields size last.1 last.2).
  { destruct last as [lr lc]. apply accessible_spec. split; [done|].
    apply knight_move_sym. apply (tour_adj _ _ _ Ht); [done|done|lia|simpl; lia]. }
  assert (Hnext : List.find (λ g, cell brd g =? cell brd p + 1)
                    (get_accessible_fields size p.1 p.2) = Some last).
  { destruct (get_next_total size brd k p Ht Hp) as (e & He & Hei & Hce); [lia|].
    rewrite (get_next_pure size brd Hwf p Hp) in He. injection He as ->.
    f_equal. apply (tour_once _ _ _ Ht); [done|done|lia|lia]. }
  pose proof (accessible_length size last.1 last.2) as Hlen.
  set (ends := (λ f, List.find _ _) <$> _).
  assert (Hlt : (length (List.filter (λ e, bool_decide (e ≠ Some last)) ends) <
                 length (List.filter (λ _ : option (Z * Z), true) ends))%nat).
  { apply (filter_length_lt _ _ ends (Some last)); [done| |done|].
    - apply list_elem_of_fmap. by exists p.
    - apply bool_decide_eq_false_2. intros H. by apply H. }
  rewrite filter_all in Hlt. unfold ends in Hlt at 2. rewrite length_fmap in Hlt.
  lia.
Qed.

(** * The claims *)

(** ** The blocked 4 x 4 board *)

Example board_4x4_filled :
  wandorf_fill 4 13 (create_empty_board 4) 0 0 1 = (board_4x4, Ret (3, 0)).
Proof. vm_compute. reflexivity. Qed.

Example board_4x4_tour : tour 4 board_4x4 12.
Proof. apply tourb_sound. vm_compute. reflexivity. Qed.

Example board_4x4_reroute :
  reroute 4 8 board_4x4 (3, 0) =
  ([([[1; 6; 0; 12]; [0; 9; 4; 7]; [5; 2; 11; 0]; [10; 0; 8; 3]], (0, 3), Finite 2)],
   Ret tt).
Proof. vm_compute. reflexivity. Qed.

Ltac stall_3x3 :=
  eapply solve_stalls with (fuel0 := 9%nat);
    [vm_compute; reflexivity | vm_compute; reflexivity | reflexivity
    | vm_compute; reflexivity | vm_compute; reflexivity
    | vm_compute; reflexivity | vm_compute; reflexivity
    | vm_compute; reflexivity
    | intros ?; apply spl_centre_3; [reflexivity | discriminate] ].

(** C1, where the code departs from it. From no square of the 3 x 3
    board does [solve] ever return or raise, whatever the budget: from
    the centre the first generation is empty, from the other squares
    [get_rank] searches for the centre, which no jump reaches. And in
    general the loop of [solve] never ends on an empty generation. *)
Theorem solve_3x3_never_returns clock fuel r c :
  inside 3 (r, c) = true →
  (solve 3 clock fuel (create_empty_board 3) r c).2 = Timeout ∧
  ∀ size gens rc i, solve_loop size clock gens fuel [] rc i = Timeout.
Proof.
  intros Hin. split; [|intros; apply solve_loop_empty].
  apply inside_spec in Hin. simpl in Hin.
  assert (Hr : r = 0 ∨ r = 1 ∨ r = 2) by lia.
  assert (Hc : c = 0 ∨ c = 1 ∨ c = 2) by lia.
  revert fuel.
  destruct Hr as [->|[->| ->]], Hc as [->|[->| ->]]; try stall_3x3.
  eapply solve_starves with (fuel0 := 9%nat);
    [vm_compute; reflexivity | vm_compute; reflexivity | reflexivity
    | vm_compute; reflexivity | vm_compute; reflexivity].
Qed.

Lemma solve_3x3_never_returns_witness :
  (solve 3 (λ _, 0) 1000 (create_empty_board 3) 0 0).2 = Timeout.
Proof.
  pose proof (solve_3x3_never_returns (λ _, 0) 1000 0 0 eq_refl) as [Hrun _].
  exact Hrun.
Defined.

(** C2. On a board whose filled cells hold 1..k once each, consecutive
    values a knight's move apart, with [last] holding k: every candidate
    that [reroute] yields has a board with the same property for the
    same k (the values are only moved, and the path stays contiguous). *)
Theorem reroute_preserves_tour size brd k last fuel cand :
  tour size brd k → inside size last = true → cell brd last = k →
  cand ∈ (reroute size fuel brd last).1 →
  tour size cand.1.1 k.
Proof.
  intros Htour Hlast Hmax Hcand.
  destruct (reroute_candidate size brd k last Htour Hlast Hmax fuel cand Hcand)
    as (f & Hf & Hnext & Hei & Hne & Hce & Hwf' & Hcells & _).
  pose proof (tour_range _ _ _ Htour _ Hei) as Hre.
  apply (tour_rev_after size brd k last Htour Hlast Hmax f); [done|lia|done|done].
Qed.

Lemma reroute_preserves_tour_witness :
  tour 4 [[1; 6; 0; 12]; [0; 9; 4; 7]; [5; 2; 11; 0]; [10; 0; 8; 3]] 12.
Proof.
  apply (reroute_preserves_tour 4 board_4x4 12 (3, 0) 8
           ([[1; 6; 0; 12]; [0; 9; 4; 7]; [5; 2; 11; 0]; [10; 0; 8; 3]],
            (0, 3), Finite 2)).
  - apply tourb_sound. vm_compute. reflexivity.
  - reflexivity.
  - reflexivity.
  - vm_compute. apply list_elem_of_here.
Defined.

(** C3, as the code has it. Every candidate that [reroute] yields carries
    its own [end] (the successor of a field accessible from [last], never
    [last] itself), which holds the maximum k on the rerouted board, while
    [last] now holds the value that follows the untouched part of the
    path; the third component is [get_rank] of the rerouted board. *)
Theorem reroute_yields_end size brd k last fuel cand :
  tour size brd k → inside size last = true → cell brd last = k →
  cand ∈ (reroute size fuel brd last).1 →
  (∃ f, f ∈ get_accessible_fields size last.1 last.2 ∧
        get_next size brd f.1 f.2 = Ret (Some cand.1.2) ∧
        cell cand.1.1 last = cell brd f + 1) ∧
  cand.1.2 ≠ last ∧
  cell cand.1.1 cand.1.2 = k ∧
  get_max size cand.1.1 = Ret cand.1.2 ∧
  get_rank size fuel cand.1.1 None = Ret cand.2.
Proof.
  intros Htour Hlast Hmax Hcand.
  destruct (reroute_candidate size brd k last Htour Hlast Hmax fuel cand Hcand)
    as (f & Hf & Hnext & Hei & Hne & Hce & Hwf' & Hcells & Hrank).
  pose proof (accessible_inside _ _ _ _ Hf) as Hfi.
  pose proof (tour_range _ _ _ Htour f Hfi) as Hrf.
  pose proof (tour_range _ _ _ Htour _ Hei) as Hre.
  assert (Htour' : tour size cand.1.1 k).
  { apply (tour_rev_after size brd k last Htour Hlast Hmax f); [done|lia|done|done]. }
  assert (Hend : cell cand.1.1 cand.1.2 = k).
  { rewrite Hcells, Hce by done. flip_lia. }
  split; [|split; [done|split; [done|split; [|done]]]].
  - exists f. split; [done|]. split; [done|].
    rewrite Hcells, Hmax by done. flip_lia.
  - apply (get_max_tour size _ k); [done|lia|done|done].
Qed.

Lemma reroute_yields_end_witness :
  (0, 3) ≠ (3, 0) ∧
  get_rank 4 8 [[1; 6; 0; 12]; [0; 9; 4; 7]; [5; 2; 11; 0]; [10; 0; 8; 3]] None
  = Ret (Finite 2).
Proof.
  destruct (reroute_yields_end 4 board_4x4 12 (3, 0) 8
           ([[1; 6; 0; 12]; [0; 9; 4; 7]; [5; 2; 11; 0]; [10; 0; 8; 3]],
            (0, 3), Finite 2)) as (_ & Hne & _ & _ & Hrank).
  - apply tourb_sound. vm_compute. reflexivity.
  - reflexivity.
  - reflexivity.
  - vm_compute. apply list_elem_of_here.
  - split; [exact Hne|exact Hrank].
Defined.

(** C3, as the spec words it, fails: on the blocked 4 x 4 board the one
    candidate carries (0, 3), not the original [last] = (3, 0). *)
Lemma reroute_end_is_not_last :
  ¬ (∀ cand, cand ∈ (reroute 4 8 board_4x4 (3, 0)).1 → cand.1.2 = (3, 0)).
Proof.
  intros H.
  specialize (H ([[1; 6; 0; 12]; [0; 9; 4; 7]; [5; 2; 11; 0]; [10; 0; 8; 3]],
                 (0, 3), Finite 2)).
  rewrite board_4x4_reroute in H. discriminate H. apply list_elem_of_here.
Qed.

(** C4. One turn of [wandorf_fill] at a cell [p] of a well-formed board
    writes [num] into [p]. If no field accessible from [p] is then empty,
    the call returns [p] with the board so written. Otherwise the call
    goes on, with [num + 1] and on the written board, from the empty
    accessible field of least degree (the count of its own empty
    accessible fields), the first such in the order of the offsets. Run
    with a positive [num] and a budget above the number of empty cells,
    the call returns a cell without empty accessible fields. *)
Theorem wandorf_fill_warnsdorff size fuel brd p num :
  wf_board size brd → inside size p = true →
  let brd1 := upd brd p num in
  let jumps := List.filter (λ f, cell brd1 f =? 0)
                 (get_accessible_fields size p.1 p.2) in
  (jumps = [] →
     wandorf_fill size (S fuel) brd p.1 p.2 num = (brd1, Ret p)) ∧
  (jumps ≠ [] →
     ∃ j, first_min (degree size brd1) jumps j ∧
       wandorf_fill size (S fuel) brd p.1 p.2 num =
       wandorf_fill size fuel brd1 j.1 j.2 (num + 1)) ∧
  (1 <= num → (zeros size brd <= fuel)%nat →
     ∃ brd' q, wandorf_fill size (S fuel) brd p.1 p.2 num = (brd', Ret q) ∧
       wf_board size brd' ∧ inside size q = true ∧
       List.filter (λ f, cell brd' f =? 0)
         (get_accessible_fields size q.1 q.2) = []).
Proof.
  intros Hwf Hp brd1 jumps.
  pose proof (wandorf_fill_unfold size fuel brd p num Hwf Hp) as Hstep.
  cbv zeta in Hstep. fold brd1 in Hstep. fold jumps in Hstep.
  split; [|split].
  - intros Hj. by rewrite Hj in Hstep.
  - intros Hj. exists (foldl (best_step (degree size brd1)) (9, (0, 0)) jumps).2.
    split; [by apply best_jump_first_min|].
    by destruct jumps.
  - intros Hnum Hfuel. apply wandorf_fill_returns_from; [done..|].
    pose proof (zeros_upd_le size brd p num Hwf Hp). unfold brd1 in *. lia.
Qed.

Lemma wandorf_fill_warnsdorff_witness :
  ∃ brd' q, wandorf_fill 4 17 (create_empty_board 4) 0 0 1 = (brd', Ret q) ∧
    wf_board 4 brd' ∧ inside 4 q = true ∧
    List.filter (λ f, cell brd' f =? 0) (get_accessible_fields 4 q.1 q.2) = [].
Proof.
  destruct (wandorf_fill_warnsdorff 4 16 (create_empty_board 4) (0, 0) 1)
    as (_ & _ & Hret).
  - apply wf_boardb_sound. reflexivity.
  - reflexivity.
  - apply Hret; [lia|]. vm_compute. lia.
Defined.

(** C5, as the code has it. [solve] checks nothing itself: when the
    start row or column is out of the range Python accepts as an index of
    an N x N board (below -N or at least N), the first assignment of
    [wandorf_fill] raises an index error and the board is as it was. *)
Theorem solve_start_out_of_range size clock fuel brd r c :
  wf_board size brd →
  r < - size ∨ size <= r ∨ c < - size ∨ size <= c →
  fuel ≠ 0%nat →
  solve size clock fuel brd r c = (brd, Raise IndexError).
Proof.
  intros Hwf Hout Hfuel. destruct fuel as [|fuel]; [done|].
  unfold solve. cbn [wandorf_fill].
  by rewrite (setitem2_out_of_range size brd r c 1 Hwf Hout).
Qed.

Lemma solve_start_out_of_range_witness :
  solve 3 (λ _, 0) 1 (create_empty_board 3) 1 3
  = (create_empty_board 3, Raise IndexError).
Proof.
  apply (solve_start_out_of_range 3 (λ _, 0) 1 (create_empty_board 3) 1 3).
  - apply wf_boardb_sound. reflexivity.
  - lia.
  - lia.
Defined.

(** C5, as the spec words it, fails: the start (-1, -1) is outside
    [0, 1), yet Python's negative indices reach the one cell of the 1 x 1
    board; [solve] writes into it and returns a result. *)
Lemma solve_accepts_negative_start :
  inside 1 (-1, -1) = false ∧
  (solve 1 (λ _, 0) 1 (create_empty_board 1) (-1) (-1)).1 = [[1]] ∧
  (solve 1 (λ _, 0) 1 (create_empty_board 1) (-1) (-1)).1 ≠ create_empty_board 1 ∧
  ∃ res, (solve 1 (λ _, 0) 1 (create_empty_board 1) (-1) (-1)).2 = Ret res.
Proof.
  split; [reflexivity|]. split; [reflexivity|]. split; [discriminate|].
  eexists. lazy -[result_dict]. reflexivity.
Qed.

(** C6, where the code departs from it: [verify] returns [True] on a
    board with a repeated value, on which no k makes the filled values
    exactly 1..k. *)
Theorem verify_accepts_repeated_value :
  verify 3 2 board_twice = Ret true ∧
  cell board_twice (1, 2) = 2 ∧ cell board_twice (2, 1) = 2 ∧
  ∀ k, ¬ tour 3 board_twice k.
Proof.
  split; [vm_compute; reflexivity|]. split; [reflexivity|]. split; [reflexivity|].
  intros k Htour.
  assert (H : (1, 2) = (2, 1) :> Z * Z); [|discriminate H].
  by apply (tour_once _ _ _ Htour).
Qed.

(** C7. The distance from a square to itself is 0 (one turn of the loop
    is enough); between two squares of the board, whenever the search
    from [a] reaches [b] in [d] jumps, the search from [b] reaches [a]
    within the same budget and returns the same [d]; and whenever both
    searches return, for any squares and budgets, they return the same
    number. *)
Theorem shortest_path_length_symmetric size fuel fuel' a b d :
  shortest_path_length size (S fuel) a.1 a.2 a.1 a.2 = Ret 0 ∧
  (inside size a = true → inside size b = true →
   shortest_path_length size fuel a.1 a.2 b.1 b.2 = Ret d →
   shortest_path_length size fuel b.1 b.2 a.1 a.2 = Ret d) ∧
  (∀ d', shortest_path_length size fuel a.1 a.2 b.1 b.2 = Ret d →
         shortest_path_length size fuel' b.1 b.2 a.1 a.2 = Ret d' →
         d = d').
Proof.
  split; [|split].
  - unfold shortest_path_length. simpl.
    destruct (decide _) as [|Hout]; [done|]. destruct Hout.
    destruct a. by apply elem_of_singleton.
  - apply spl_sym.
  - intros d' Hab Hba.
    pose proof Hab as Hab'. pose proof Hba as Hba'.
    apply spl_returns in Hab' as (j & _ & -> & Hr & _).
    apply spl_returns in Hba' as (j' & _ & -> & Hr' & _).
    destruct j as [|j].
    { apply reach_0 in Hr as ->. eapply spl_deterministic; eauto. }
    destruct j' as [|j'].
    { apply reach_0 in Hr' as ->. eapply spl_deterministic; eauto. }
    apply reach_inside in Hr, Hr'.
    apply spl_sym in Hab; [|done..].
    eapply spl_deterministic; eauto.
Qed.

Lemma shortest_path_length_symmetric_witness :
  shortest_path_length 8 7 7 7 0 0 = Ret 6.
Proof.
  apply (shortest_path_length_symmetric 8 7 7 (0, 0) (7, 7) 6).
  - reflexivity.
  - reflexivity.
  - vm_compute. reflexivity.
Defined.

(** C8, as the code has it. Whenever [solve] returns, the result is a
    dict with exactly the keys 'board' (a board), 'iterations' and
    'reroutes' (integers) and 'time' (the elapsed time); it has no
    'success' entry. *)
Theorem solve_result_fields size clock fuel brd r c res :
  (solve size clock fuel brd r c).2 = Ret res →
  dom res = {[ "board"; "iterations"; "reroutes"; "time" ]} ∧
  (∃ b, res !! "board" = Some (PyBoard b)) ∧
  (∃ i, res !! "iterations" = Some (PyInt i)) ∧
  (∃ n, res !! "reroutes" = Some (PyInt n)) ∧
  (∃ t, res !! "time" = Some (PyFloat t)) ∧
  res !! "success" = None.
Proof.
  intros (b & n & j & ->)%solve_result.
  destruct (result_dict_lookup b (Z.of_nat j) n (clock (S j) - clock 0%nat))
    as (Hb & Hi & Hn & Ht & Hs).
  split; [|by eauto 10].
  unfold result_dict. rewrite !dom_insert_L, dom_empty_L. set_solver.
Qed.

Lemma solve_result_fields_witness :
  ∃ res, (solve 6 Z.of_nat 40 (create_empty_board 6) 2 3).2 = Ret res ∧
    dom res = {[ "board"; "iterations"; "reroutes"; "time" ]} ∧
    res !! "iterations" = Some (PyInt 2) ∧
    res !! "reroutes" = Some (PyInt 16) ∧
    res !! "success" = None.
Proof.
  eexists. split.
  { apply solve_returns_by_fields. vm_compute. reflexivity. }
  destruct (solve_result_fields 6 Z.of_nat 40 (create_empty_board 6) 2 3 _
              ltac:(apply solve_returns_by_fields; vm_compute; reflexivity))
    as (Hdom & _ & _ & _ & _ & Hnone).
  split; [exact Hdom|]. split; [reflexivity|]. split; [reflexivity|exact Hnone].
Defined.

(** C8, as the spec words it, fails: the result of a successful run on
    the 1 x 1 board has no 'success' field (nor 'reroute_count' or
    'generation_count'), and it has a 'time' field. *)
Lemma solve_result_has_no_success_field :
  ∃ res, (solve 1 (λ _, 0) 1 (create_empty_board 1) 0 0).2 = Ret res ∧
    res !! "success" = None ∧
    res !! "reroute_count" = None ∧
    res !! "generation_count" = None ∧
    res !! "time" = Some (PyFloat 0).
Proof.
  eexists. split; [lazy -[result_dict]; reflexivity|].
  repeat split; vm_compute; reflexivity.
Qed.

(** C9. Two runs of [solve] on fresh empty boards of the same size, from
    the same start, that both return (whatever their clocks and budgets)
    leave the caller's board in the same state and return the same
    'board', 'reroutes' and 'iterations'. *)
Theorem solve_deterministic size clock clock' fuel fuel' r c res res' :
  (solve size clock fuel (create_empty_board size) r c).2 = Ret res →
  (solve size clock' fuel' (create_empty_board size) r c).2 = Ret res' →
  (solve size clock fuel (create_empty_board size) r c).1 =
  (solve size clock' fuel' (create_empty_board size) r c).1 ∧
  res !! "board" = res' !! "board" ∧
  res !! "reroutes" = res' !! "reroutes" ∧
  res !! "iterations" = res' !! "iterations".
Proof.
  intros Hres Hres'.
  destruct (solve_agree _ _ _ _ _ _ _ _ _ _ Hres Hres')
    as (Hb & b & i & n & t & t' & -> & ->).
  done.
Qed.

Lemma solve_deterministic_witness :
  ∃ res res',
    (solve 6 (λ _, 0) 40 (create_empty_board 6) 2 3).2 = Ret res ∧
    (solve 6 Z.of_nat 50 (create_empty_board 6) 2 3).2 = Ret res' ∧
    res !! "board" = res' !! "board" ∧
    res !! "reroutes" = res' !! "reroutes" ∧
    res !! "iterations" = res' !! "iterations".
Proof.
  eexists _, _. split; [|split].
  - apply solve_returns_by_fields. vm_compute. reflexivity.
  - apply solve_returns_by_fields. vm_compute. reflexivity.
  - eapply (solve_deterministic 6 (λ _, 0) Z.of_nat 40 50 2 3).
    + apply solve_returns_by_fields. vm_compute. reflexivity.
    + apply solve_returns_by_fields. vm_compute. reflexivity.
Defined.

(** C10. On a board that satisfies the invariant, with [last] holding
    the maximum and every field accessible from it filled: the list
    [possible_ends] is computed without fault, none of its entries is
    [None], each is a position on the board, and the reversal loop run
    from it returns a board (no index or type error). The cursors of the
    loop are [end], [last] and what [get_next] and [get_prev] return,
    which is always a position on the board. *)
Theorem reroute_never_faults size brd k last :
  tour size brd k → inside size last = true → cell brd last = k →
  (∀ f, f ∈ get_accessible_fields size last.1 last.2 → cell brd f ≠ 0) →
  (∃ ends, possible_ends size brd last = Ret ends ∧
    ∀ e, e ∈ ends →
      ∃ p, e = Some p ∧ inside size p = true ∧
        ∃ b', reroute_board size brd last e = Ret (b', p) ∧ wf_board size b') ∧
  (∀ (b : board) (q p : pos),
     get_next size b q.1 q.2 = Ret (Some p) ∨
     get_prev size b q.1 q.2 = Ret (Some p) →
     inside size p = true).
Proof.
  intros Htour Hlast Hmax Hblocked. split.
  2:{ intros b q p [H|H]; apply neighbour_scan_elem in H;
        by eapply accessible_inside. }
  pose proof (tour_wf _ _ _ Htour) as Hwf.
  unfold possible_ends.
  rewrite (ends_of_pure size brd _ Hwf (accessible_all_inside _ _ _)).
  eexists. split; [done|].
  intros e (f & -> & Hf)%list_elem_of_fmap.
  pose proof (accessible_inside _ _ _ _ Hf) as Hfi.
  pose proof (tour_range _ _ _ Htour f Hfi) as Hrf.
  pose proof (Hblocked f Hf) as Hnz.
  assert (Hlt : cell brd f ≠ k).
  { intros Heq. assert (f = last) as ->.
    { apply (tour_once _ _ _ Htour); [done|done|done|congruence]. }
    destruct last as [lr lc]. apply accessible_spec in Hf as [_ Hm].
    unfold knight_move in Hm. simpl in Hm. lia. }
  destruct (get_next_total size brd k f Htour Hfi) as (p & Hnext & Hp & Hcp); [lia|].
  rewrite (get_next_pure size brd Hwf f Hfi) in Hnext. injection Hnext as ->.
  exists p. split; [done|]. split; [done|].
  destruct (reroute_board_reverses size brd k last Htour Hlast Hmax p Hp)
    as (b' & Hrun & Hwf' & _); [lia|].
  by exists b'.
Qed.

Lemma reroute_never_faults_witness :
  ∃ ends, possible_ends 4 board_4x4 (3, 0) = Ret ends ∧
    ∀ e, e ∈ ends →
      ∃ p, e = Some p ∧ inside 4 p = true ∧
        ∃ b', reroute_board 4 board_4x4 (3, 0) e = Ret (b', p) ∧ wf_board 4 b'.
Proof.
  apply (reroute_never_faults 4 board_4x4 12 (3, 0)).
  - apply tourb_sound. vm_compute. reflexivity.
  - reflexivity.
  - reflexivity.
  - intros f Hf. vm_compute in Hf.
    apply elem_of_cons in Hf as [->|Hf]; [discriminate|].
    apply elem_of_cons in Hf as [->|Hf]; [discriminate|].
    by apply elem_of_nil in Hf.
Defined.

(** * Further properties of the code *)

(** ** [get_accessible_fields] and [get_possible_jumps] *)

(** X1. [get_accessible_fields] yields, without repetition, exactly the
    squares of the board a knight's move away from [(r, c)]: at most
    eight, and never [(r, c)] itself. The origin need not be on the
    board. *)
Theorem get_accessible_fields_exact size r c :
  NoDup (get_accessible_fields size r c) ∧
  (length (get_accessible_fields size r c) <= 8)%nat ∧
  ((r, c) ∉ get_accessible_fields size r c) ∧
  ∀ q, q ∈ get_accessible_fields size r c ↔
       (inside size q = true ∧ knight_move (r, c) q).
Proof.
  split; [apply NoDup_accessible|]. split; [apply accessible_length|].
  split; [apply accessible_not_self|]. intros q. apply accessible_spec.
Qed.

(** X2. Between two squares of the board accessibility is symmetric. *)
Theorem get_accessible_fields_symmetric size p q :
  inside size p = true → inside size q = true →
  q ∈ get_accessible_fields size p.1 p.2 ↔
  p ∈ get_accessible_fields size q.1 q.2.
Proof. intros Hp Hq. split; by apply accessible_sym. Qed.

Lemma get_accessible_fields_symmetric_witness :
  (2, 1) ∈ get_accessible_fields 8 0 0 ↔ (0, 0) ∈ get_accessible_fields 8 2 1.
Proof.
  apply (get_accessible_fields_symmetric 8 (0, 0) (2, 1)); reflexivity.
Defined.

(** X3. On a well-formed board [get_possible_jumps] raises nothing and
    yields, without repetition, exactly the empty squares of the board a
    knight's move away from [(r, c)]. *)
Theorem get_possible_jumps_exact size brd r c :
  wf_board size brd →
  ∃ jumps, get_possible_jumps size brd r c = Ret jumps ∧ NoDup jumps ∧
    ∀ q, q ∈ jumps ↔
         inside size q = true ∧ knight_move (r, c) q ∧ cell brd q = 0.
Proof.
  intros Hwf. rewrite (get_possible_jumps_pure size brd Hwf).
  eexists. split; [done|]. split.
  - apply NoDup_ListNoDup, List.NoDup_filter, NoDup_ListNoDup, NoDup_accessible.
  - intros q. rewrite list_elem_of_In, filter_In, <- list_elem_of_In,
      accessible_spec, Z.eqb_eq. tauto.
Qed.

Lemma get_possible_jumps_exact_witness :
  ∃ jumps, get_possible_jumps 4 board_4x4 0 0 = Ret jumps ∧ NoDup jumps ∧
    ∀ q, q ∈ jumps ↔
         inside 4 q = true ∧ knight_move (0, 0) q ∧ cell board_4x4 q = 0.
Proof.
  apply (get_possible_jumps_exact 4 board_4x4 0 0).
  apply wf_boardb_sound. reflexivity.
Defined.

(** ** [wandorf_fill] *)

(** X4. [wandorf_fill] keeps the path invariant: started at a square of
    the board where its first write makes a path of [num] squares, it
    never raises, and when it returns, the board holds a path of some
    [k' >= num] squares that ends in the returned square, with no empty
    square accessible from there. *)
Theorem wandorf_fill_keeps_path size fuel brd p num :
  wf_board size brd → inside size p = true → 1 <= num →
  tour size (upd brd p num) num →
  (∀ e, (wandorf_fill size fuel brd p.1 p.2 num).2 ≠ Raise e) ∧
  ∀ brd' las, wandorf_fill size fuel brd p.1 p.2 num = (brd', Ret las) →
    ∃ k', num <= k' ∧ tour size brd' k' ∧ inside size las = true ∧
          cell brd' las = k' ∧ blocked size brd' las.
Proof.
  intros Hwf Hp Hnum Ht. split.
  - intros e. by apply wandorf_fill_no_raise.
  - intros brd' las Hrun. by apply (wandorf_fill_tour size fuel brd p num).
Qed.

Lemma wandorf_fill_keeps_path_witness :
  ∃ k', 1 <= k' ∧ tour 4 board_4x4 k' ∧ inside 4 (3, 0) = true ∧
        cell board_4x4 (3, 0) = k' ∧ blocked 4 board_4x4 (3, 0).
Proof.
  pose proof (wandorf_fill_keeps_path 4 13 (create_empty_board 4) (0, 0) 1) as H.
  destruct H as [_ H].
  - apply wf_boardb_sound. reflexivity.
  - reflexivity.
  - lia.
  - apply tourb_sound. vm_compute. reflexivity.
  - apply (H board_4x4 (3, 0)). vm_compute. reflexivity.
Defined.

(** X5. [wandorf_fill] writes into empty squares only: when it returns,
    the start holds [num], and every other square of the board either
    holds what it held, or was empty and now holds a number greater than
    [num]. *)
Theorem wandorf_fill_writes_only_empty size fuel brd p num brd' las :
  wf_board size brd → inside size p = true → 1 <= num →
  wandorf_fill size fuel brd p.1 p.2 num = (brd', Ret las) →
  cell brd' p = num ∧
  ∀ q, inside size q = true → q ≠ p →
       cell brd' q = cell brd q ∨ (cell brd q = 0 ∧ num < cell brd' q).
Proof. apply wandorf_fill_frame. Qed.

Lemma wandorf_fill_writes_only_empty_witness :
  cell board_4x4 (0, 0) = 1 ∧
  ∀ q, inside 4 q = true → q ≠ (0, 0) →
       cell board_4x4 q = cell (create_empty_board 4) q ∨
       (cell (create_empty_board 4) q = 0 ∧ 1 < cell board_4x4 q).
Proof.
  apply (wandorf_fill_writes_only_empty 4 13 (create_empty_board 4) (0, 0) 1
           board_4x4 (3, 0)).
  - apply wf_boardb_sound. reflexivity.
  - reflexivity.
  - lia.
  - vm_compute. reflexivity.
Defined.

(** X6. On a fresh board, from a square of the board, [wandorf_fill]
    returns within [size ^ 2] turns of its loop: the board then holds a
    path that starts with 1 at the start square and ends, blocked, at
    the returned square. *)
Theorem wandorf_fill_from_fresh_board size fuel r c :
  inside size (r, c) = true → (Z.to_nat (size ^ 2) <= fuel)%nat →
  ∃ brd' las k,
    wandorf_fill size fuel (create_empty_board size) r c 1 = (brd', Ret las) ∧
    1 <= k ∧ tour size brd' k ∧ cell brd' (r, c) = 1 ∧
    inside size las = true ∧ cell brd' las = k ∧ blocked size brd' las.
Proof. apply wandorf_fill_fresh. Qed.

Lemma wandorf_fill_from_fresh_board_witness :
  ∃ brd' las k,
    wandorf_fill 5 25 (create_empty_board 5) 2 2 1 = (brd', Ret las) ∧
    1 <= k ∧ tour 5 brd' k ∧ cell brd' (2, 2) = 1 ∧
    inside 5 las = true ∧ cell brd' las = k ∧ blocked 5 brd' las.
Proof.
  apply (wandorf_fill_from_fresh_board 5 25 2 2).
  - reflexivity.
  - simpl. lia.
Defined.

(** ** [get_next] and [get_prev] *)

(** X7. Along a path [get_next] and [get_prev] are inverse to each
    other: from a filled square [p], [get_next] returns [q] exactly when
    [q] holds at least 2 and [get_prev] returns [p] from [q]. *)
Theorem get_next_get_prev_inverse size brd k p q :
  tour size brd k → inside size p = true → inside size q = true →
  1 <= cell brd p →
  get_next size brd p.1 p.2 = Ret (Some q) ↔
  2 <= cell brd q ∧ get_prev size brd q.1 q.2 = Ret (Some p).
Proof.
  intros Ht Hp Hq Hpos. split.
  - intros Hnext.
    destruct (get_next_some size brd k Ht p q Hp Hnext) as [_ Hc].
    split; [lia|]. by apply (get_next_then_prev size brd k).
  - intros [Hq2 Hprev]. by apply (get_prev_then_next size brd k).
Qed.

Lemma get_next_get_prev_inverse_witness :
  get_next 4 board_4x4 0 0 = Ret (Some (2, 1)) ↔
  2 <= cell board_4x4 (2, 1) ∧ get_prev 4 board_4x4 2 1 = Ret (Some (0, 0)).
Proof.
  apply (get_next_get_prev_inverse 4 board_4x4 12 (0, 0) (2, 1)).
  - apply tourb_sound. vm_compute. reflexivity.
  - reflexivity.
  - reflexivity.
  - vm_compute. discriminate.
Defined.

(** X8. On a path [get_next] returns [None] from a filled square
    exactly at the end of the path. *)
Theorem get_next_none_at_end size brd k p :
  tour size brd k → inside size p = true → 1 <= cell brd p →
  get_next size brd p.1 p.2 = Ret None ↔ cell brd p = k.
Proof. apply get_next_none. Qed.

Lemma get_next_none_at_end_witness :
  get_next 4 board_4x4 3 0 = Ret None ↔ cell board_4x4 (3, 0) = 12.
Proof.
  apply (get_next_none_at_end 4 board_4x4 12 (3, 0)).
  - apply tourb_sound. vm_compute. reflexivity.
  - reflexivity.
  - vm_compute. discriminate.
Defined.

(** X9. At the first square of a path [get_prev] looks for the value 0:
    what it returns is an empty square, and it returns [None] only if
    no empty square is accessible from there. *)
Theorem get_prev_at_first_square size brd k p :
  tour size brd k → inside size p = true → cell brd p = 1 →
  (get_prev size brd p.1 p.2 = Ret None ↔ blocked size brd p) ∧
  (∀ q, get_prev size brd p.1 p.2 = Ret (Some q) → cell brd q = 0).
Proof. apply get_prev_at_start. Qed.

Lemma get_prev_at_first_square_witness :
  (get_prev 4 board_4x4 0 0 = Ret None ↔ blocked 4 board_4x4 (0, 0)) ∧
  (∀ q, get_prev 4 board_4x4 0 0 = Ret (Some q) → cell board_4x4 q = 0).
Proof.
  apply (get_prev_at_first_square 4 board_4x4 12 (0, 0)).
  - apply tourb_sound. vm_compute. reflexivity.
  - reflexivity.
  - reflexivity.
Defined.

(** ** [find] and [get_max] *)

(** X10. On a well-formed board [find] returns the first square, in
    row-major order, that holds [num], and [None] exactly when no square
    of the board holds it. *)
Theorem find_first_in_row_major size brd num :
  wf_board size brd →
  (∀ p, find size brd num = Ret (Some p) ↔
        inside size p = true ∧ cell brd p = num ∧
        ∀ q, inside size q = true → cell brd q = num → q = p ∨ before p q) ∧
  (find size brd num = Ret None ↔
   ∀ q, inside size q = true → cell brd q ≠ num).
Proof.
  intros Hwf. split.
  - intros p. by apply find_some_spec.
  - by apply find_none_spec.
Qed.

Lemma find_first_in_row_major_witness :
  (∀ p, find 3 board_twice 2 = Ret (Some p) ↔
        inside 3 p = true ∧ cell board_twice p = 2 ∧
        ∀ q, inside 3 q = true → cell board_twice q = 2 → q = p ∨ before p q) ∧
  (find 3 board_twice 2 = Ret None ↔
   ∀ q, inside 3 q = true → cell board_twice q ≠ 2).
Proof.
  apply (find_first_in_row_major 3 board_twice 2).
  apply wf_boardb_sound. reflexivity.
Defined.

(** X11. On a well-formed board [get_max] returns (0, 0) if no square
    holds a positive number (also on the board of size 0, which has no
    square (0, 0)); otherwise the first square, in row-major order,
    that holds the greatest number. *)
Theorem get_max_first_greatest size brd :
  wf_board size brd →
  ∃ p, get_max size brd = Ret p ∧
    (((∀ q, inside size q = true → cell brd q <= 0) ∧ p = (0, 0)) ∨
     (inside size p = true ∧ 0 < cell brd p ∧
      (∀ q, inside size q = true → cell brd q <= cell brd p) ∧
      (∀ q, inside size q = true → cell brd q = cell brd p →
            q = p ∨ before p q))).
Proof. apply get_max_spec. Qed.

Lemma get_max_first_greatest_witness :
  ∃ p, get_max 3 board_twice = Ret p ∧
    (((∀ q, inside 3 q = true → cell board_twice q <= 0) ∧ p = (0, 0)) ∨
     (inside 3 p = true ∧ 0 < cell board_twice p ∧
      (∀ q, inside 3 q = true → cell board_twice q <= cell board_twice p) ∧
      (∀ q, inside 3 q = true → cell board_twice q = cell board_twice p →
            q = p ∨ before p q))).
Proof.
  apply (get_max_first_greatest 3 board_twice).
  apply wf_boardb_sound. reflexivity.
Defined.

(** ** [verify] *)

(** X12. [verify] never returns [False]: the test of its loop compares
    the cell that [get_next] found with the successor it was found by. *)
Theorem verify_never_returns_false size fuel brd :
  verify size fuel brd ≠ Ret false.
Proof. apply verify_never_false. Qed.

(** X13. [verify] returns [True] on every board that holds a path of
    [k >= 1] squares, after at most [k] turns of its loop. *)
Theorem verify_accepts_paths size brd k fuel :
  tour size brd k → 1 <= k → (Z.to_nat k <= fuel)%nat →
  verify size fuel brd = Ret true.
Proof. apply verify_tour. Qed.

Lemma verify_accepts_paths_witness : verify 4 12 board_4x4 = Ret true.
Proof.
  apply (verify_accepts_paths 4 board_4x4 12 12).
  - apply tourb_sound. vm_compute. reflexivity.
  - lia.
  - simpl. lia.
Defined.

(** X14. What [True] from [verify] tells on a well-formed board: from
    a square that holds 1, a chain of knight's moves, each to a square
    holding one more, leads to a square that holds the greatest number
    of the board. *)
Theorem verify_true_means_climb size brd fuel :
  wf_board size brd → verify size fuel brd = Ret true →
  ∃ p q m, inside size p = true ∧ cell brd p = 1 ∧
    get_max size brd = Ret m ∧
    (∀ x, inside size x = true → cell brd x <= cell brd m) ∧
    climbs brd p q ∧ cell brd q = cell brd m.
Proof. apply verify_true_climbs. Qed.

Lemma verify_true_means_climb_witness :
  ∃ p q m, inside 3 p = true ∧ cell board_twice p = 1 ∧
    get_max 3 board_twice = Ret m ∧
    (∀ x, inside 3 x = true → cell board_twice x <= cell board_twice m) ∧
    climbs board_twice p q ∧ cell board_twice q = cell board_twice m.
Proof.
  apply (verify_true_means_climb 3 board_twice 2).
  - apply wf_boardb_sound. reflexivity.
  - vm_compute. reflexivity.
Defined.

(** ** [shortest_path_length] *)

(** X15. [shortest_path_length] never raises, and it returns [d]
    exactly when [d] is the least number of knight's moves on the board
    that lead from the origin to the destination (and the budget
    allows [d] turns of the loop). *)
Theorem shortest_path_length_is_least size fuel a b :
  (∀ e, shortest_path_length size fuel a.1 a.2 b.1 b.2 ≠ Raise e) ∧
  ∀ d, shortest_path_length size fuel a.1 a.2 b.1 b.2 = Ret d ↔
       ∃ j : nat, (j < fuel)%nat ∧ d = Z.of_nat j ∧ hops size j a b ∧
                  ∀ i : nat, hops size i a b → (j <= i)%nat.
Proof.
  split.
  - intros e. apply spl_loop_no_raise.
  - intros d. apply spl_least.
Qed.

(** X16. For a destination off the board, other than the origin, the
    loop of [shortest_path_length] never ends. *)
Theorem shortest_path_length_off_board size fuel a b :
  inside size b = false → a ≠ b →
  shortest_path_length size fuel a.1 a.2 b.1 b.2 = Timeout.
Proof. apply spl_off_board. Qed.

Lemma shortest_path_length_off_board_witness :
  shortest_path_length 8 1000 0 0 8 8 = Timeout.
Proof.
  apply (shortest_path_length_off_board 8 1000 (0, 0) (8, 8)).
  - reflexivity.
  - discriminate.
Defined.

(** X17. The triangle inequality: if the searches from [a] to [b] and
    from [b] to [c] return, the search from [a] to [c] returns, within
    the sum of their budgets, at most the sum of their results. *)
Theorem shortest_path_length_triangle size f1 f2 a b c d1 d2 :
  shortest_path_length size f1 a.1 a.2 b.1 b.2 = Ret d1 →
  shortest_path_length size f2 b.1 b.2 c.1 c.2 = Ret d2 →
  ∃ d3, shortest_path_length size (f1 + f2) a.1 a.2 c.1 c.2 = Ret d3 ∧
        d3 <= d1 + d2.
Proof. apply spl_triangle. Qed.

Lemma shortest_path_length_triangle_witness :
  ∃ d3, shortest_path_length 8 (5 + 3) 0 0 4 4 = Ret d3 ∧ d3 <= 4 + 2.
Proof.
  apply (shortest_path_length_triangle 8 5 3 (0, 0) (1, 1) (4, 4) 4 2).
  - vm_compute. reflexivity.
  - vm_compute. reflexivity.
Defined.

(** X18. The result of [shortest_path_length] has the parity of the
    colour change: it differs from the difference of the coordinate
    sums by an even number. *)
Theorem shortest_path_length_parity size fuel a b d :
  shortest_path_length size fuel a.1 a.2 b.1 b.2 = Ret d →
  ∃ m, b.1 + b.2 - (a.1 + a.2) = d + 2 * m.
Proof.
  intros (j & _ & -> & Hh & _)%spl_least. by apply (hops_parity size).
Qed.

Lemma shortest_path_length_parity_witness :
  ∃ m, 7 + 7 - (0 + 0) = 6 + 2 * m.
Proof.
  apply (shortest_path_length_parity 8 7 (0, 0) (7, 7) 6).
  vm_compute. reflexivity.
Defined.

(** ** [get_rank] *)

(** X19. On a well-formed board [get_rank] never raises; its result is
    [inf] exactly when the board has no empty square, and otherwise the
    least number of knight's moves that lead from [last] to an empty
    square. *)
Theorem get_rank_least_distance size fuel brd last :
  wf_board size brd →
  (∀ l e, get_rank size fuel brd l ≠ Raise e) ∧
  ∀ rk, get_rank size fuel brd (Some last) = Ret rk →
    (rk = Inf ↔ ∀ p, inside size p = true → cell brd p ≠ 0) ∧
    ∀ d, rk = Finite d →
      ∃ (j : nat) f, d = Z.of_nat j ∧ inside size f = true ∧ cell brd f = 0 ∧
        hops size j last f ∧
        ∀ (i : nat) f', inside size f' = true → cell brd f' = 0 →
                        hops size i last f' → (j <= i)%nat.
Proof.
  intros Hwf. split.
  - intros l e. by apply get_rank_no_raise.
  - intros rk Hrk. by apply (get_rank_spec size fuel brd last rk).
Qed.

Lemma get_rank_least_distance_witness :
  (Finite 2 = Inf ↔ ∀ p, inside 4 p = true → cell board_4x4 p ≠ 0) ∧
  ∀ d, Finite 2 = Finite d →
    ∃ (j : nat) f, d = Z.of_nat j ∧ inside 4 f = true ∧
      cell board_4x4 f = 0 ∧ hops 4 j (3, 0) f ∧
      ∀ (i : nat) f', inside 4 f' = true → cell board_4x4 f' = 0 →
                      hops 4 i (3, 0) f' → (j <= i)%nat.
Proof.
  pose proof (get_rank_least_distance 4 8 board_4x4 (3, 0)) as H.
  destruct H as [_ H].
  - apply wf_boardb_sound. reflexivity.
  - apply (H (Finite 2)). vm_compute. reflexivity.
Defined.

(** X20. At a filled square [last] of a well-formed board the rank is 1
    exactly when an empty square is accessible from [last]: the test
    [rank == 1] of [solve] tells whether the fill can go on from there. *)
Theorem get_rank_one_iff_open size fuel brd last rk :
  wf_board size brd → cell brd last ≠ 0 →
  get_rank size fuel brd (Some last) = Ret rk →
  rk = Finite 1 ↔ ¬ blocked size brd last.
Proof.
  intros Hwf Hfilled Hrk. split.
  - intros ->. by apply (rank_one_open size fuel brd last).
  - intros Hopen. destruct (decide (rk = Finite 1)) as [|Hne]; [done|].
    destruct Hopen. by apply (rank_blocked size fuel brd last rk).
Qed.

Lemma get_rank_one_iff_open_witness :
  Finite 2 = Finite 1 ↔ ¬ blocked 4 board_4x4 (3, 0).
Proof.
  apply (get_rank_one_iff_open 4 8 board_4x4 (3, 0) (Finite 2)).
  - apply wf_boardb_sound. reflexivity.
  - vm_compute. discriminate.
  - vm_compute. reflexivity.
Defined.

(** ** [reroute] *)

(** X21. Rerouting is undone by rerouting: on a path that ends in
    [last], if [end] is the successor of a square accessible from
    [last], the reversal loop run from [end] gives a board on which
    [end] holds the maximum, and the same loop run on that board from
    [last] gives the first board back. *)
Theorem reroute_board_undone size brd k last f e b' e' :
  tour size brd k → inside size last = true → cell brd last = k →
  f ∈ get_accessible_fields size last.1 last.2 →
  get_next size brd f.1 f.2 = Ret (Some e) →
  reroute_board size brd last (Some e) = Ret (b', e') →
  e' = e ∧ cell b' e = k ∧
  reroute_board size b' e (Some last) = Ret (brd, last).
Proof. apply reroute_board_round_trip. Qed.

Lemma reroute_board_undone_witness :
  (0, 3) = (0, 3) ∧
  cell [[1; 6; 0; 12]; [0; 9; 4; 7]; [5; 2; 11; 0]; [10; 0; 8; 3]] (0, 3) = 12 ∧
  reroute_board 4 [[1; 6; 0; 12]; [0; 9; 4; 7]; [5; 2; 11; 0]; [10; 0; 8; 3]]
    (0, 3) (Some (3, 0)) = Ret (board_4x4, (3, 0)).
Proof.
  apply (reroute_board_undone 4 board_4x4 12 (3, 0) (1, 1) (0, 3)).
  - apply tourb_sound. vm_compute. reflexivity.
  - reflexivity.
  - reflexivity.
  - vm_compute. apply list_elem_of_further, list_elem_of_here.
  - vm_compute. reflexivity.
  - vm_compute. reflexivity.
Defined.

(** X22. From a path of at least two squares that ends in [last],
    [reroute] yields at most seven candidates: of the at most eight
    squares round [last] one is the predecessor of [last], whose
    successor is [last] and is skipped. *)
Theorem reroute_at_most_seven size brd k last fuel :
  tour size brd k → inside size last = true → cell brd last = k → 2 <= k →
  (length (reroute size fuel brd last).1 <= 7)%nat.
Proof. apply reroute_length. Qed.

Lemma reroute_at_most_seven_witness :
  (length (reroute 4 8 board_4x4 (3, 0)%Z).1 <= 7)%nat.
Proof.
  apply (reroute_at_most_seven 4 board_4x4 12 (3, 0) 8).
  - apply tourb_sound. vm_compute. reflexivity.
  - reflexivity.
  - reflexivity.
  - lia.
Defined.

(** ** [solve] *)

(** X23. Whatever [solve] returns on a fresh board, from a start on the
    board, is a solution: the 'board' of the result holds a path of
    [size ^ 2] squares, so every square holds one of 1..[size ^ 2], and
    [verify] accepts it. *)
Theorem solve_returns_complete_path size clock fuel r c res :
  inside size (r, c) = true →
  (solve size clock fuel (create_empty_board size) r c).2 = Ret res →
  ∃ b, res !! "board" = Some (PyBoard b) ∧ tour size b (size ^ 2) ∧
       (∀ p, inside size p = true → 1 <= cell b p <= size ^ 2) ∧
       verify size (Z.to_nat (size ^ 2)) b = Ret true.
Proof.
  intros Hin Hrun. pose proof (solve_sound size clock fuel r c Hin) as Hs.
  rewrite Hrun in Hs. simpl in Hs.
  destruct Hs as (b & j & n & t & k & -> & Ht & _).
  exists b. split; [apply result_dict_lookup|]. split; [done|]. split.
  - intros p Hp. by apply tour_full.
  - apply (verify_tour size b (size ^ 2)); [done| |lia].
    apply inside_spec in Hin. simpl in Hin. nia.
Qed.

Lemma solve_returns_complete_path_witness :
  ∃ res b, (solve 6 Z.of_nat 40 (create_empty_board 6) 2 3).2 = Ret res ∧
    res !! "board" = Some (PyBoard b) ∧ tour 6 b (6 ^ 2) ∧
    (∀ p, inside 6 p = true → 1 <= cell b p <= 6 ^ 2) ∧
    verify 6 (Z.to_nat (6 ^ 2)) b = Ret true.
Proof.
  eexists.
  destruct (solve_returns_complete_path 6 Z.of_nat 40 2 3 _ eq_refl
              ltac:(apply solve_returns_by_fields; vm_compute; reflexivity))
    as (b & Hb & Ht & Hfull & Hv).
  exists b.
  split; [apply solve_returns_by_fields; vm_compute; reflexivity|].
  exact (conj Hb (conj Ht (conj Hfull Hv))).
Defined.

(** X24. On a fresh board, from a start on the board, [solve] never
    raises. *)
Theorem solve_never_raises size clock fuel r c e :
  inside size (r, c) = true →
  (solve size clock fuel (create_empty_board size) r c).2 ≠ Raise e.
Proof.
  intros Hin Hrun. pose proof (solve_sound size clock fuel r c Hin) as Hs.
  by rewrite Hrun in Hs.
Qed.

Lemma solve_never_raises_witness :
  (solve 8 Z.of_nat 100 (create_empty_board 8) 0 0).2 ≠ Raise IndexError.
Proof. apply (solve_never_raises 8 Z.of_nat 100 0 0 IndexError). reflexivity. Defined.

(** X25. The counts of a result: either both 'iterations' and
    'reroutes' are 0 (the first fill was complete), or at least one
    generation was scanned and at least as many candidates were counted
    as generations. *)
Theorem solve_counts size clock fuel r c res :
  inside size (r, c) = true →
  (solve size clock fuel (create_empty_board size) r c).2 = Ret res →
  ∃ j n, res !! "iterations" = Some (PyInt j) ∧
         res !! "reroutes" = Some (PyInt n) ∧
         ((j = 0 ∧ n = 0) ∨ 1 <= j <= n).
Proof.
  intros Hin Hrun. pose proof (solve_sound size clock fuel r c Hin) as Hs.
  rewrite Hrun in Hs. simpl in Hs.
  destruct Hs as (b & j & n & t & k & -> & _ & Hjn & _ & _ & Hcase).
  exists (Z.of_nat j), n. split; [apply result_dict_lookup|].
  split; [apply result_dict_lookup|].
  destruct Hcase as [(-> & -> & _)|[Hj _]]; [by left|right; lia].
Qed.

Lemma solve_counts_witness :
  ∃ j n, result_dict [[1]] 0 0 0 !! "iterations" = Some (PyInt j) ∧
         result_dict [[1]] 0 0 0 !! "reroutes" = Some (PyInt n) ∧
         ((j = 0 ∧ n = 0) ∨ 1 <= j <= n).
Proof.
  apply (solve_counts 1 (λ _, 0) 1 0 0).
  - reflexivity.
  - lazy -[result_dict]. reflexivity.
Defined.

(** X26. The board the caller passed is not the solution in general:
    after a run of [solve] that returns, it holds the first fill, a
    path that starts with 1 at the start square. If 'iterations' is 0
    this path is complete and is the 'board' of the result; otherwise
    it is incomplete, and the 'board' of the result is another board. *)
Theorem solve_leaves_first_fill size clock fuel r c res :
  inside size (r, c) = true →
  (solve size clock fuel (create_empty_board size) r c).2 = Ret res →
  ∃ b j k board1,
    (solve size clock fuel (create_empty_board size) r c).1 = board1 ∧
    (wandorf_fill size fuel (create_empty_board size) r c 1).1 = board1 ∧
    res !! "board" = Some (PyBoard b) ∧
    res !! "iterations" = Some (PyInt j) ∧
    1 <= k ∧ tour size board1 k ∧ cell board1 (r, c) = 1 ∧
    (j = 0 → k = size ^ 2 ∧ b = board1) ∧
    (j ≠ 0 → k ≠ size ^ 2 ∧ b ≠ board1).
Proof.
  intros Hin Hrun. pose proof (solve_sound size clock fuel r c Hin) as Hs.
  rewrite Hrun in Hs. simpl in Hs.
  destruct Hs as (b & j & n & t & k & -> & Ht & _ & Hk & Ht1 & Hcase).
  exists b, (Z.of_nat j), k, (solve size clock fuel (create_empty_board size) r c).1.
  split; [done|]. split; [done|]. split; [apply result_dict_lookup|].
  split; [apply result_dict_lookup|]. split; [done|]. split; [done|]. split.
  - destruct (wandorf_fill size fuel (create_empty_board size) r c 1)
      as [board1 [las|x|]] eqn:Hfill.
    + destruct (wandorf_fill_frame size fuel (create_empty_board size) (r, c) 1
                  board1 las (wf_empty_board size) Hin ltac:(lia) Hfill) as [H1 _].
      unfold solve. cbv zeta. simpl. by rewrite Hfill.
    + unfold solve in Hrun. cbv zeta in Hrun. simpl in Hrun.
      by rewrite Hfill in Hrun.
    + unfold solve in Hrun. cbv zeta in Hrun. simpl in Hrun.
      by rewrite Hfill in Hrun.
  - destruct Hcase as [(-> & _ & -> & ->)|[Hj Hne]].
    + split; [done|]. intros Hne. by destruct Hne.
    + split; [lia|]. intros _. split; [done|].
      intros Heq. rewrite Heq in Ht. apply Hne.
      apply (tour_unique_k size _ _ _ Ht1 Ht); [lia|].
      apply Z.pow_nonneg. apply inside_spec in Hin. simpl in Hin. lia.
Qed.

Lemma solve_leaves_first_fill_witness :
  ∃ res b j k board1,
    (solve 6 Z.of_nat 40 (create_empty_board 6) 2 3).2 = Ret res ∧
    (solve 6 Z.of_nat 40 (create_empty_board 6) 2 3).1 = board1 ∧
    res !! "board" = Some (PyBoard b) ∧
    res !! "iterations" = Some (PyInt j) ∧
    1 <= k ∧ tour 6 board1 k ∧ cell board1 (2, 3) = 1 ∧
    (j ≠ 0 → k ≠ 6 ^ 2 ∧ b ≠ board1).
Proof.
  eexists.
  destruct (solve_leaves_first_fill 6 Z.of_nat 40 2 3 _ eq_refl
              ltac:(apply solve_returns_by_fields; vm_compute; reflexivity))
    as (b & j & k & board1 & H1 & _ & Hb & Hj & Hk & Ht & Hc & _ & Hne).
  exists b, j, k, board1.
  split; [apply solve_returns_by_fields; vm_compute; reflexivity|].
  exact (conj H1 (conj Hb (conj Hj (conj Hk (conj Ht (conj Hc Hne)))))).
Defined.

(** ** [print_board] *)

(** X27. The loop of [print_board] that computes the width ends, and
    the width [w] it gives is enough and not much more: every number up
    to [size ^ 2] is below [10 ^ w], so in a field of [w + 1] characters
    it is printed after at least one blank; and [w] is 1 or
    [10 ^ (w - 2) < size ^ 2]. *)
Theorem cell_size_fits size fuel :
  (Z.to_nat (size ^ 2) < fuel)%nat →
  ∃ w, cell_size size fuel = Ret w ∧ 1 <= w ∧ size ^ 2 < 10 ^ w ∧
       (w = 1 ∨ 10 ^ (w - 2) < size ^ 2).
Proof.
  intros Hfuel.
  destruct (width_loop_spec fuel (size ^ 2) 1) as (w & Hrun & Hw & Hup & Hlow);
    [nia|done|].
  exists w. split; [done|]. split; [done|].
  replace (w - 1 + 1) with w in Hup by lia.
  replace (w - 1 - 1) with (w - 2) in Hlow by lia. done.
Qed.

Lemma cell_size_fits_witness :
  ∃ w, cell_size 8 65 = Ret w ∧ 1 <= w ∧ 8 ^ 2 < 10 ^ w ∧
       (w = 1 ∨ 10 ^ (w - 2) < 8 ^ 2).
Proof. apply (cell_size_fits 8 65). simpl. lia. Defined.
